(** * GabeDA feature engine: registry, classifier, resolver, group execution

    A shallow embedding of the feature-dependency resolution and execution
    core (src/features/{store,detector,resolver}.py and
    src/execution/{calculator,groupby}.py), with the properties of the
    engine stated and proved over it.

    Conventions.
    - Python dictionaries used as maps are stdpp [gmap]s; lists that carry an
      order (exec_seq, input_cols, DataFrame columns) are Rocq lists.
    - A Python exception is a value of type [exn]; a call that may raise
      returns [res A].
    - A Python [str] is modelled by the Rocq string of its UTF-8 bytes: the
      substring test of two texts is the substring test of their bytes.
      [str.lower] is fixed on ASCII text only; on other text it is a
      parameter of the definitions that call it. *)

From Stdlib Require Import Ascii String ZArith Permutation.
From stdpp Require Import gmap strings list fin_maps pretty.

(** ** Exceptions and the error monad *)

Inductive exn : Type :=
  | ArgumentNotFound (feature arg : string) (enrichment : bool)
      (* ValueError("Argument '<arg>' not found for feature '<feature>'") *)
  | KeyError (key : string)          (* dict or DataFrame column lookup *)
  | IndexError                       (* values[0] on a frame without rows *)
  | VectorizeSizeZero                (* ValueError: np.vectorize on size 0 inputs *)
  | BroadcastError                   (* ValueError: operands could not be broadcast *)
  | SequenceAsElement                (* ValueError: setting an array element with
                                        a sequence *)
  | NoneToInteger                    (* TypeError: int() of None *)
  | NaNToInteger                     (* ValueError: cannot convert float NaN to
                                        integer *)
  | IntegerOverflow                  (* OverflowError: Python int out of the bounds
                                        of the integer type *)
  | UnsizedResult                    (* TypeError: len() of unsized object *)
  | ShapelessResult                  (* AttributeError: a scalar of Python has no
                                        attribute 'shape' *)
  | LengthMismatch                   (* column assignment of a wrong length *)
  | BodyRaised (code : nat)          (* exception raised by a feature body *)
  | RecursionError                   (* interpreter recursion limit reached *)
  | AttributeError                   (* None has no attribute 'get' *)
  | FileNotFoundError (name : string)
  | OutsideModel.                    (* no exception of Python: what numpy does
                                        here has no counterpart among the values
                                        modelled, or depends on its version *)

(** The exceptions numpy, pandas and the feature bodies raise while a
    feature is computed (and the mark of a computation that leaves the
    model); the engine's own errors are not among them. *)
Definition from_calculation (e : exn) : Prop :=
  match e with
  | VectorizeSizeZero | BroadcastError | SequenceAsElement
  | NoneToInteger | NaNToInteger | IntegerOverflow | UnsizedResult
  | ShapelessResult | LengthMismatch | BodyRaised _ | OutsideModel => True
  | _ => False
  end.

Inductive res (A : Type) : Type :=
  | Ok (a : A)
  | Raise (e : exn).
Arguments Ok {A} a.
Arguments Raise {A} e.

#[global] Instance res_bind : MBind res := fun A B k m =>
  match m with
  | Ok a => k a
  | Raise e => Raise e
  end.

#[global] Instance res_ret : MRet res := fun A a => Ok a.

Definition is_ok {A : Type} (m : res A) : Prop := ∃ a, m = Ok a.

(** A loop [for x in xs: s = body(x, s)] whose body may raise. *)
Fixpoint for_each {A S : Type} (body : A → S → res S) (xs : list A) (s : S) : res S :=
  match xs with
  | [] => Ok s
  | x :: xs' => s' ← body x s; for_each body xs' s'
  end.

(** ** Text: lower-casing and the substring test *)

Module Text.

Definition lower_ascii (c : ascii) : ascii :=
  let n := nat_of_ascii c in
  if (65 <=? n)%nat && (n <=? 90)%nat then ascii_of_nat (n + 32) else c.

(** [str.lower()] on ASCII text *)
Fixpoint lower (s : string) : string :=
  match s with
  | EmptyString => EmptyString
  | String c s' => String (lower_ascii c) (lower s')
  end.

Fixpoint starts_with (p s : string) : bool :=
  match p, s with
  | EmptyString, _ => true
  | String a p', String b s' => if Ascii.eqb a b then starts_with p' s' else false
  | String _ _, EmptyString => false
  end.

(** [p in s] on strings *)
Fixpoint contains (p s : string) : bool :=
  starts_with p s
  || match s with
     | EmptyString => false
     | String _ s' => contains p s'
     end.

(** Every character is below 128. *)
Fixpoint is_ascii (s : string) : bool :=
  match s with
  | EmptyString => true
  | String c s' => (nat_of_ascii c <? 128)%nat && is_ascii s'
  end.

(** [p] is a substring of [s] *)
Definition occurs (p s : string) : Prop :=
  ∃ pre post, s = pre +:+ p +:+ post.

(** [p] occurs in [s] up to the case of the ASCII letters *)
Definition occurs_ci (p s : string) : Prop :=
  ∃ pre mid post, s = pre +:+ mid +:+ post ∧ lower mid = lower p.

(** What is known of a function that stands for [str.lower]: on ASCII
    text it is [lower]. *)
Definition lowers_ascii (str_lower : string → string) : Prop :=
  ∀ s, is_ascii s = true → str_lower s = lower s.

End Text.

(** ** FeatureTypeDetector (src/features/detector.py) *)

Module Detector.
Import Text.

Definition AGGREGATION_KEYWORDS : list string :=
  [ "np.vectorize("; "np.where("; "#gby"; ".sum("; ".max("; ".min(";
    ".unique("; ".nunique("; ".mean("; ".median("; ".percentile(";
    ".take("; "[first_value]"; ".nansum("; "np.nanmax("; "np.nanmin(";
    "flag1"; "rows_out"; "agg_out"; "#agg"; ".count_nonzero("; "zip(";
    "counter(" ]%string.

(** The argument of [is_aggregation]: a callable, whose source
    [inspect.getsource] either returns or fails to retrieve (OSError,
    TypeError), or a code string. *)
Inductive feature_body : Type :=
  | BodyCallable (getsource : option string)
  | BodyText (code : string).

(** The text that is scanned, when there is one. *)
Definition feature_text (b : feature_body) : option string :=
  match b with
  | BodyCallable src => src
  | BodyText code => Some code
  end.

Section lowering.

(** [str.lower]: what it does to text outside ASCII is given by the
    Unicode tables of the interpreter. *)
Variable str_lower : string → string.

Definition is_aggregation_with (keywords : list string) (b : feature_body) : bool :=
  match feature_text b with
  | None => false
  | Some feature_text =>
      let feature_text_lower := str_lower feature_text in
      existsb (fun keyword => contains (str_lower keyword) feature_text_lower) keywords
  end.

Definition is_aggregation : feature_body → bool :=
  is_aggregation_with AGGREGATION_KEYWORDS.

End lowering.

End Detector.

(** ** FeatureStore (src/features/store.py), the in-memory registry *)

Module Store.

(** A feature definition: a Python function, with the names of its
    positional parameters ([__code__.co_varnames[:co_argcount]]) and the
    source text [inspect.getsource] finds for it, or a dict with the keys
    'udf' (a code string) and, possibly, 'args'. *)
Inductive feature_def : Type :=
  | DefCallable (co_varnames : list string) (getsource : option string)
  | DefDict (udf : string) (args : option (list string)).

(** [self.features] maps the keys "model:name" and "name" to definitions;
    [self.current_model] is None or a model name. *)
Record FeatureStore : Type := {
  features : gmap string feature_def;
  current_model : option string;
}.

(** Truth value of an [Optional[str]]: None and the empty string are false. *)
Definition truthy (model : option string) : bool :=
  match model with
  | Some m => negb (String.eqb m "")
  | None => false
  end.

(** [model or self.current_model] *)
Definition py_or (model current_model : option string) : option string :=
  if truthy model then model else current_model.

(** [f"{model}:{name}" if model else name] *)
Definition key_of (model : option string) (name : string) : string :=
  match model with
  | Some m => if truthy model then m +:+ ":" +:+ name else name
  | None => name
  end.

Definition store_feature (st : FeatureStore) (name : string) (d : feature_def)
    (model : option string) : FeatureStore :=
  let model := py_or model (current_model st) in
  let key := key_of model name in
  {| features := <[key := d]> (features st); current_model := current_model st |}.

Definition get_feature (st : FeatureStore) (name : string)
    (model : option string) : option feature_def :=
  let model := py_or model (current_model st) in
  let key := key_of model name in
  let feature_def := features st !! key in
  match feature_def with
  | None => if truthy model then features st !! name else feature_def
  | Some _ => feature_def
  end.

Definition has_feature (st : FeatureStore) (name : string) : bool :=
  bool_decide (name ∈ dom (features st)).

(** [load_from_filesystem(model, feature, base_path)], given what the two
    folders searched (the model's, then 'common') hold for each feature:
    the code of <feature>.py and the 'args' of metadata.json. *)
Definition load_from_filesystem (disk : gmap string (string * list string))
    (st : FeatureStore) (model feature : string) : res FeatureStore :=
  match disk !! feature with
  | None => Raise (FileNotFoundError feature)
  | Some (udf_code, args) =>
      Ok (store_feature st feature (DefDict udf_code (Some args)) (Some model))
  end.

End Store.

(** ** DependencyResolver (src/features/resolver.py) *)

Module Resolver.
Import Store.

(** The [group_by] argument as callers pass it. *)
Inductive group_by_arg : Type :=
  | GbNone
  | GbStr (col : string)
  | GbList (cols : list string).

(** [normalize_to_list(group_by, empty_indicators=[None, ''])] *)
Definition normalize_to_list (g : group_by_arg) : list string :=
  match g with
  | GbNone => []
  | GbStr col => if String.eqb col "" then [] else [col]
  | GbList cols => cols
  end.

(** What stays fixed during one call of [resolve_dependencies]. [feat_idx]
    is [get_feature_index(model, base_path)], [disk] what
    [load_from_filesystem] finds for this model. *)
Record resolver_env : Type := {
  available_cols : list string;
  group_by : list string;
  feat_idx : list string;
  model : string;
  disk : gmap string (string * list string);
}.

(** The two accumulators, and the store that [load_from_filesystem] mutates. *)
Record rstate : Type := {
  store : FeatureStore;
  input_cols : list string;
  exec_seq : list string;
}.

(** [if x not in l: l.append(x)] *)
Definition append_new (x : string) (l : list string) : list string :=
  if bool_decide (x ∈ l) then l else l ++ [x].

Definition add_input (feature : string) (s : rstate) : rstate :=
  {| store := store s;
     input_cols := append_new feature (input_cols s);
     exec_seq := exec_seq s |}.

Definition add_exec (feature : string) (s : rstate) : rstate :=
  {| store := store s;
     input_cols := input_cols s;
     exec_seq := append_new feature (exec_seq s) |}.

(** The argument list of a definition, as Case 3 extracts it. *)
Definition arg_list (d : feature_def) : list string :=
  match d with
  | DefCallable co_varnames _ => co_varnames
  | DefDict _ args => default [] args
  end.

(** Case 2, on the store. [None]: the feature is unknown and becomes an
    input column; [Some st']: the feature is defined (perhaps just
    fetched), go on to Case 3 with the store [st']. *)
Definition fetch (env : resolver_env) (feature : string) (st : FeatureStore)
    : res (option FeatureStore) :=
  if has_feature st feature then Ok (Some st)
  else if bool_decide (feature ∈ feat_idx env) then
    st' ← load_from_filesystem (disk env) st (model env) feature;
    Ok (Some st')
  else Ok None.

(** [_resolve_feature]. [fuel] is the number of nested calls the
    interpreter still allows: a call that would exceed the recursion limit
    raises RecursionError. *)
Fixpoint _resolve_feature (env : resolver_env) (fuel : nat) (feature : string)
    (s : rstate) : res rstate :=
  match fuel with
  | O => Raise RecursionError
  | S fuel' =>
      (* Case 1: the feature is an available column of the input data *)
      if bool_decide (feature ∈ available_cols env) then Ok (add_input feature s)
      else
        (* Case 2: not defined yet, fetch it or take it as an input column *)
        fetched ← fetch env feature (store s);
        match fetched with
        | None => Ok (add_input feature s)
        | Some st1 =>
            (* Case 3: defined, resolve its arguments first *)
            match get_feature st1 feature None with
            | None => Raise AttributeError
            | Some feature_def =>
                s2 ← for_each
                       (fun arg s' =>
                          if bool_decide (arg ∈ group_by env) then Ok s'
                          else _resolve_feature env fuel' arg s')
                       (arg_list feature_def)
                       {| store := st1;
                          input_cols := input_cols s;
                          exec_seq := exec_seq s |};
                Ok (add_exec feature s2)
            end
        end
  end.

(** The loop over the arguments of a feature, as in Case 3. *)
Definition resolve_args (env : resolver_env) (fuel : nat)
    : list string → rstate → res rstate :=
  for_each
    (fun arg s' =>
       if bool_decide (arg ∈ group_by env) then Ok s'
       else _resolve_feature env fuel arg s').

(** [_extract_external_columns]: the input columns that carry the prefix
    "<ext_name>_" of a configured external source, source by source. *)
Definition _extract_external_columns (input_cols : list string)
    (external_data : list string) : list string :=
  flat_map
    (fun ext_name =>
       filter (fun col => Text.starts_with (ext_name +:+ "_") col = true) input_cols)
    external_data.

(** [resolve_dependencies]: every requested output is resolved with the
    whole recursion budget, in the order given. *)
Definition resolve_dependencies (env : resolver_env) (fuel : nat)
    (output_cols : list string) (st : FeatureStore) : res rstate :=
  for_each (_resolve_feature env fuel) output_cols
    {| store := st; input_cols := []; exec_seq := [] |}.

(** Position of the first occurrence, as [list.index]. *)
Fixpoint index_of (x : string) (l : list string) : option nat :=
  match l with
  | [] => None
  | y :: l' => if bool_decide (x = y) then Some 0 else S <$> index_of x l'
  end.

(** [a] comes strictly before [f] in the list: [index(a) < index(f)]. *)
Definition precedes (a f : string) (l : list string) : Prop :=
  ∃ i j, index_of a l = Some i ∧ index_of f l = Some j ∧ i < j.

(** What a visit of [feature] finds when the store is [st]: a column taken
    from the input (Case 1, or Case 2 without a definition), a feature
    with the definition Case 3 recurses on, or a failing lookup. *)
Inductive visit : Type :=
  | Input
  | Feature (d : feature_def)
  | Broken (e : exn).

Definition classify (env : resolver_env) (st : FeatureStore) (feature : string) : visit :=
  if bool_decide (feature ∈ available_cols env) then Input
  else
    match fetch env feature st with
    | Raise e => Broken e
    | Ok None => Input
    | Ok (Some st1) =>
        match get_feature st1 feature None with
        | None => Broken AttributeError
        | Some d => Feature d
        end
    end.

(** [f] is a feature and [a] one of the arguments Case 3 recurses on. *)
Definition depends (env : resolver_env) (st : FeatureStore) (f a : string) : Prop :=
  ∃ d, classify env st f = Feature d ∧ a ∈ arg_list d ∧ a ∉ group_by env.

(** Names are identifiers: they do not contain the ':' that separates the
    model from the name in the keys of the store. *)
Definition colon_free (name : string) : bool := negb (Text.contains ":" name).

Definition args_named (d : feature_def) : Prop :=
  forallb colon_free (arg_list d) = true.

(** The requested outputs and the arguments of every definition, in the
    store or on disk, are such names. *)
Definition well_named (env : resolver_env) (output_cols : list string)
    (st : FeatureStore) : bool :=
  forallb colon_free output_cols
  && bool_decide (map_Forall (fun _ d => args_named d) (features st))
  && bool_decide (map_Forall (fun _ ua => forallb colon_free ua.2 = true) (disk env)).

(** [h] is reached from a requested output: it is an output, or an
    argument Case 3 recurses on of a feature that is reached. These are
    the names [_resolve_feature] can be called with. *)
Definition reached (env : resolver_env) (st : FeatureStore)
    (output_cols : list string) (h : string) : Prop :=
  ∃ o, o ∈ output_cols ∧ rtc (depends env st) o h.

(** The part of the dependency graph reached from the outputs has no
    failing lookup and no cycle: [rank] decreases from every reached
    feature to its arguments. *)
Definition ranked_reached (env : resolver_env) (st : FeatureStore)
    (output_cols : list string) (rank : string → nat) : Prop :=
  ∀ h, reached env st output_cols h →
       match classify env st h with
       | Input => True
       | Feature d => ∀ a, a ∈ arg_list d → a ∉ group_by env → rank a < rank h
       | Broken _ => False
       end.

(** Two checks on a list of names, to establish the above by computation:
    [nodes] holds the outputs and, with a feature, its arguments; on
    [nodes] every lookup succeeds and [rank] decreases. *)
Definition closed_nodes (env : resolver_env) (st : FeatureStore)
    (nodes output_cols : list string) : bool :=
  forallb (fun o => bool_decide (o ∈ nodes)) output_cols
  && forallb
       (fun f =>
          match classify env st f with
          | Feature d =>
              forallb
                (fun a => bool_decide (a ∈ group_by env) || bool_decide (a ∈ nodes))
                (arg_list d)
          | _ => true
          end)
       nodes.

Definition ranked_on (env : resolver_env) (st : FeatureStore) (rank : string → nat)
    (nodes : list string) : bool :=
  forallb
    (fun f =>
       match classify env st f with
       | Input => true
       | Feature d =>
           forallb
             (fun a => bool_decide (a ∈ group_by env) || bool_decide (rank a < rank f))
             (arg_list d)
       | Broken _ => false
       end)
    nodes.

End Resolver.

(** ** The invariant of the resolution *)

Module ResolverInv.
Import Store Resolver.

(** The definitions on disk have well-named arguments. *)
Definition disk_named (env : resolver_env) : Prop :=
  map_Forall (fun _ ua => forallb colon_free ua.2 = true) (disk env).

(** [d] is the definition a visit of [f] finds, and a lookup returns it. *)
Definition settled (env : resolver_env) (st : FeatureStore) (f : string)
    (d : feature_def) : Prop :=
  classify env st f = Feature d ∧ get_feature st f None = Some d.

(** From [st] to [st'] the store has only grown by fetched features: no
    name is classified differently, settled names stay settled, and the
    definitions keep well-named arguments. *)
Definition grows (env : resolver_env) (st st' : FeatureStore) : Prop :=
  (∀ f, colon_free f = true → classify env st' f = classify env st f) ∧
  (∀ f d, colon_free f = true → settled env st f d → get_feature st' f None = Some d) ∧
  (map_Forall (fun _ d => args_named d) (features st) →
   map_Forall (fun _ d => args_named d) (features st')).

(** The state of a resolution started with the store [st0]: every feature
    of [exec_seq] is a feature whose definition a lookup returns, and each
    of its arguments outside [group_by] either comes before it in
    [exec_seq] or is an input column. *)
Definition inv (env : resolver_env) (st0 : FeatureStore) (s : rstate) : Prop :=
  grows env st0 (store s) ∧
  map_Forall (fun _ d => args_named d) (features (store s)) ∧
  ∀ f, f ∈ exec_seq s →
       colon_free f = true ∧
       ∃ d, classify env st0 f = Feature d ∧
            get_feature (store s) f None = Some d ∧
            ∀ a, a ∈ arg_list d → a ∉ group_by env →
                 precedes a f (exec_seq s) ∨ classify env st0 a = Input.

(** What a visit of [f] that returns has achieved. *)
Definition visited (env : resolver_env) (st0 : FeatureStore) (f : string)
    (s s' : rstate) : Prop :=
  inv env st0 s' ∧
  grows env (store s) (store s') ∧
  exec_seq s `prefix_of` exec_seq s' ∧
  (classify env st0 f = Input ∨ f ∈ exec_seq s').

End ResolverInv.

(** ** Tables: the part of pandas and numpy the engine relies on *)

Module Frame.

(** A cell. [VNone] and [VNaN] are the two missing values pandas knows
    here ([isna]). *)
Inductive value : Type :=
  | VNone
  | VNaN
  | VInt (n : Z)
  | VStr (s : string)
  | VBool (b : bool).

Definition isna (v : value) : bool :=
  match v with
  | VNone | VNaN => true
  | _ => false
  end.

(** What a feature body receives and returns: a scalar or a
    one-dimensional array. *)
Inductive pyobj : Type :=
  | Scalar (v : value)
  | Array (vs : list value).

(** A DataFrame: [nrows] is the length of its index, every column holds
    [nrows] cells, and the columns keep their order. *)
Record DataFrame : Type := {
  nrows : nat;
  columns : list (string * list value);
}.

(** [pd.DataFrame()] *)
Definition empty_frame : DataFrame := {| nrows := 0; columns := [] |}.

Definition column_names (df : DataFrame) : list string := (columns df).*1.

(** [c in df.columns] *)
Definition has_column (c : string) (df : DataFrame) : bool :=
  bool_decide (c ∈ column_names df).

Fixpoint assoc {A : Type} (c : string) (l : list (string * A)) : option A :=
  match l with
  | [] => None
  | (c', a) :: l' => if bool_decide (c = c') then Some a else assoc c l'
  end.

(** [df[c].values], when the column exists *)
Definition get_column (c : string) (df : DataFrame) : option (list value) :=
  assoc c (columns df).

(** [df[c]] raises KeyError on a missing column. *)
Definition getitem (c : string) (df : DataFrame) : res (list value) :=
  match get_column c df with
  | Some vs => Ok vs
  | None => Raise (KeyError c)
  end.

(** [values[0]] *)
Definition first_value (vs : list value) : res value :=
  match vs with
  | v :: _ => Ok v
  | [] => Raise IndexError
  end.

Fixpoint put {A : Type} (c : string) (a : A) (l : list (string * A)) : list (string * A) :=
  match l with
  | [] => [(c, a)]
  | (c', a') :: l' => if bool_decide (c = c') then (c, a) :: l' else (c', a') :: put c a l'
  end.

(** [df[c] = r]: an existing column is replaced in place, a new one is
    appended; a scalar fills the column, an array must have one cell per
    row. *)
Definition setitem (c : string) (r : pyobj) (df : DataFrame) : res DataFrame :=
  match r with
  | Scalar v =>
      Ok {| nrows := nrows df; columns := put c (replicate (nrows df) v) (columns df) |}
  | Array vs =>
      if bool_decide (length vs = nrows df)
      then Ok {| nrows := nrows df; columns := put c vs (columns df) |}
      else Raise LengthMismatch
  end.

(** [df.empty]: no rows or no columns *)
Definition is_empty (df : DataFrame) : bool :=
  bool_decide (nrows df = 0) || bool_decide (columns df = []).

(** [df.dropna(axis=1, how='all')] *)
Definition dropna_all (df : DataFrame) : DataFrame :=
  {| nrows := nrows df;
     columns := filter (fun cv => forallb isna cv.2 = false) (columns df) |}.

(** Names in order of first appearance. *)
Fixpoint first_seen (seen : list string) (names : list string) : list string :=
  match names with
  | [] => []
  | c :: names' =>
      if bool_decide (c ∈ seen) then first_seen seen names'
      else c :: first_seen (c :: seen) names'
  end.

(** [pd.concat(dfs, ignore_index=True)]: the rows stacked, the union of the
    columns in the order of their first appearance, NaN where a frame lacks
    a column. The cells are copied as they are: the element type pandas
    gives the column (integers and booleans become floats or objects next
    to NaN) is not modelled. *)
Definition concat (dfs : list DataFrame) : DataFrame :=
  {| nrows := sum_list (nrows <$> dfs);
     columns :=
       (fun c =>
          (c, flat_map
                (fun df => default (replicate (nrows df) VNaN) (get_column c df))
                dfs))
       <$> first_seen [] (flat_map column_names dfs) |}.

End Frame.

(** ** FeatureCalculator (src/execution/calculator.py) *)

Module Calculator.
Import Frame.

(** A compiled feature body: called with the argument values, it returns a
    value or raises an exception of its own. What it does depends on the
    values only: a cell handed over as a scalar of numpy (the first call of
    [np.vectorize]) and as an object of Python (its other calls) gives the
    same outcome. A scalar it returns is a scalar of Python. *)
Inductive outcome : Type :=
  | Returns (r : pyobj)
  | Throws (code : nat).

Definition callable : Type := list pyobj → outcome.

(** A call of the body, the exception of the body propagating. *)
Definition invoke (func : callable) (args : list pyobj) : res pyobj :=
  match func args with
  | Returns r => Ok r
  | Throws code => Raise (BodyRaised code)
  end.

(** The shape of an argument after [asarray]: [None] for a scalar, the
    length for an array. *)
Definition shape_of (a : pyobj) : option nat :=
  match a with
  | Scalar _ => None
  | Array vs => Some (length vs)
  end.

Definition size_of (a : pyobj) : nat :=
  match a with
  | Scalar _ => 1
  | Array vs => length vs
  end.

(** numpy broadcasting of two shapes of dimension at most one *)
Definition broadcast2 (s1 s2 : option nat) : res (option nat) :=
  match s1, s2 with
  | None, s | s, None => Ok s
  | Some n, Some m =>
      if bool_decide (n = m) then Ok (Some n)
      else if bool_decide (n = 1) then Ok (Some m)
      else if bool_decide (m = 1) then Ok (Some n)
      else Raise BroadcastError
  end.

Definition broadcast_shape (args : list pyobj) : res (option nat) :=
  for_each (fun a s => broadcast2 s (shape_of a)) args None.

(** The cell an argument contributes to row [i] of the broadcast: a scalar
    and a one-cell array are repeated, a longer array is indexed. *)
Definition cell_at (i : nat) (a : pyobj) : value :=
  match a with
  | Scalar v => v
  | Array vs => default VNaN (vs !! (if bool_decide (length vs = 1) then 0 else i))
  end.

(** The element types numpy finds for the outputs modelled. *)
Inductive dtype : Type :=
  | DObject      (* 'O' *)
  | DBool        (* '?' *)
  | DInt64       (* 'l' *)
  | DUInt64      (* 'L' *)
  | DFloat64     (* 'd' *)
  | DStr.        (* 'U' *)

Definition in_int64 (n : Z) : bool := (- 2 ^ 63 <=? n)%Z && (n <? 2 ^ 63)%Z.

Definition in_uint64 (n : Z) : bool := (0 <=? n)%Z && (n <? 2 ^ 64)%Z.

(** [asarray(v).dtype] for a scalar [v], where a C long has 64 bits. *)
Definition dtype_of (v : value) : dtype :=
  match v with
  | VNone => DObject
  | VNaN => DFloat64
  | VInt n => if in_int64 n then DInt64 else if in_uint64 n then DUInt64 else DObject
  | VStr _ => DStr
  | VBool _ => DBool
  end.

(** [bool(v)] *)
Definition truth (v : value) : bool :=
  match v with
  | VNone => false
  | VNaN => true
  | VInt n => negb (n =? 0)%Z
  | VStr s => negb (String.eqb s "")
  | VBool b => b
  end.

(** A string cell of numpy does not keep NUL characters at its end. *)
Fixpoint rstrip_nul (s : string) : string :=
  match s with
  | EmptyString => EmptyString
  | String c s' =>
      match rstrip_nul s' with
      | EmptyString => if Ascii.eqb c zero then EmptyString else String c EmptyString
      | t => String c t
      end
  end.

(** The conversion of one output to the element type [t], as the cast of
    an array of objects does it: [bool(v)], [int(v)] within the bounds of
    the type, [float(v)] with None taken as NaN, [str(v)]. A result that
    would be a finite float, the parsing of a string as a number, a
    negative integer for the unsigned type and the text of an integer of
    4300 digits or more are outside the model. *)
Definition astype_cell (t : dtype) (v : value) : res value :=
  match t with
  | DObject => Ok v
  | DBool => Ok (VBool (truth v))
  | DInt64 =>
      match v with
      | VNone => Raise NoneToInteger
      | VNaN => Raise NaNToInteger
      | VInt n => if in_int64 n then Ok (VInt n) else Raise IntegerOverflow
      | VStr _ => Raise OutsideModel
      | VBool b => Ok (VInt (if b then 1 else 0))
      end
  | DUInt64 =>
      match v with
      | VNone => Raise NoneToInteger
      | VNaN => Raise NaNToInteger
      | VInt n =>
          if in_uint64 n then Ok (VInt n)
          else if (n <? 0)%Z then Raise OutsideModel
          else Raise IntegerOverflow
      | VStr _ => Raise OutsideModel
      | VBool b => Ok (VInt (if b then 1 else 0))
      end
  | DFloat64 =>
      match v with
      | VNone | VNaN => Ok VNaN
      | VInt _ | VStr _ | VBool _ => Raise OutsideModel
      end
  | DStr =>
      match v with
      | VNone => Ok (VStr "None")
      | VNaN => Ok (VStr "nan")
      | VInt n =>
          if (Z.abs n <? 10 ^ 4300)%Z then Ok (VStr (pretty n)) else Raise OutsideModel
      | VStr s => Ok (VStr (rstrip_nul s))
      | VBool b => Ok (VStr (if b then "True" else "False"))
      end
  end.

(** The same for an output of any kind: an array of two cells or more
    cannot become a cell of a numeric or boolean type; the other arrays
    are outside the model. *)
Definition astype (t : dtype) (r : pyobj) : res value :=
  match r with
  | Scalar v => astype_cell t v
  | Array vs =>
      match t with
      | DBool | DInt64 | DUInt64 | DFloat64 =>
          if bool_decide (2 ≤ length vs) then Raise SequenceAsElement
          else Raise OutsideModel
      | DObject | DStr => Raise OutsideModel
      end
  end.

(** [asanyarray(outputs, dtype=otypes[0])], cell by cell: the outputs are
    converted to the element type of the output of the first call,
    [first]. The element type of an array that the first call returns is
    not in the model. *)
Definition convert (first : pyobj) (r : pyobj) : res value :=
  match first with
  | Scalar v => astype (dtype_of v) r
  | Array _ => Raise OutsideModel
  end.


(** [np.vectorize(func)] applied to the arguments, without [otypes] and
    without cache. Without arguments it is the call [func()]. Otherwise
    the arguments must be non-empty; the body is called once on the first
    cells to find the element type of the result, then the shapes are
    broadcast, the body is called for every row, in order, and at the end
    the outputs are converted to that element type. Arguments that are
    all scalars give a scalar (an array without dimension). *)
Definition np_vectorize (func : callable) (args : list pyobj) : res pyobj :=
  match args with
  | [] => invoke func []
  | _ :: _ =>
      if existsb (fun a => bool_decide (size_of a = 0)) args
      then Raise VectorizeSizeZero
      else
        first ← invoke func (Scalar <$> (cell_at 0 <$> args));
        shape ← broadcast_shape args;
        match shape with
        | None =>
            output ← invoke func (Scalar <$> (cell_at 0 <$> args));
            v ← convert first output;
            Ok (Scalar v)
        | Some n =>
            outputs ← mapM (M := res)
                        (fun i => invoke func (Scalar <$> (cell_at i <$> args)))
                        (seq 0 n);
            out ← mapM (M := res) (convert first) outputs;
            Ok (Array out)
        end
  end.




(** [calculate_filter]: the globals injected into the body have no effect
    on the value. The line that logs the result reads [result.shape] and
    [len(result)]: a result that is a scalar of Python (a call without
    arguments) has no attribute [shape], and the array without dimension
    that scalar arguments give has no length. Every exception is logged and
    raised again. *)
Definition calculate_filter (feature_name : string) (func : callable)
    (args_data : list pyobj) : res pyobj :=
  result ← np_vectorize func args_data;
  match result, args_data with
  | Array _, _ => Ok result
  | Scalar _, [] => Raise ShapelessResult
  | Scalar _, _ :: _ => Raise UnsizedResult
  end.

(** [calculate_attribute]: the body is called once, on the arguments as
    they are. *)
Definition calculate_attribute (feature_name : string) (func : callable)
    (args_data : list pyobj) : res pyobj :=
  invoke func args_data.

End Calculator.

(** ** GroupByProcessor (src/execution/groupby.py) *)

Module GroupBy.
Import Frame Calculator.
Import Resolver(group_by_arg, GbNone, GbStr, GbList).

(** The entries of [cfg_model] the processor reads. [ext_cols_list] is
    [cfg_model.get('ext_cols', {}).get('list', [])]. *)
Record cfg_model : Type := {
  exec_seq : list string;
  feature_funcs : gmap string callable;
  feature_args : gmap string (list string);
  feature_groupby_flg : gmap string bool;
  ext_cols_list : list string;
  group_by : group_by_arg;
}.

(** What the processor writes to the log, as far as the properties below
    speak of it. *)
Inductive log_line : Type :=
  | SkippingPresent (feature : string)          (* debug: already a column *)
  | RoutedFilter (feature : string) (uses_attributes : bool)  (* info: FILTER, Case 1 or 2 *)
  | RoutedAttribute (feature : string) (aggregation : bool)   (* info: ATTRIBUTE, Case 3 or 4 *)
  | SkippingAttribute (feature : string).      (* warning, enrichment mode *)

(** The working state of one group: the row table, the scalar map, the
    filters computed so far, and the log. *)
Record group_state : Type := {
  data_in : DataFrame;
  agg_results : gmap string pyobj;
  filters_calculated : list string;
  log : list log_line;
}.

(** The argument values collected so far and the two flags. *)
Record arg_scan : Type := {
  args_data : list pyobj;
  in_flg : bool;
  out_flg : bool;
}.

Definition scan_start : arg_scan :=
  {| args_data := []; in_flg := false; out_flg := false |}.

(** [cfg_model[table][feature]] *)
Definition lookup_cfg {A : Type} (table : gmap string A) (feature : string) : res A :=
  match table !! feature with
  | Some a => Ok a
  | None => Raise (KeyError feature)
  end.

(** One turn of [for arg in args]: the three sources in their priority
    order. *)
Definition resolve_arg (cfg : cfg_model) (st : group_state) (feature : string)
    (arg : string) (acc : arg_scan) : res arg_scan :=
  match agg_results st !! arg with
  | Some v =>
      (* Priority 1: agg_results *)
      Ok {| args_data := args_data acc ++ [v]; in_flg := in_flg acc; out_flg := true |}
  | None =>
      if bool_decide (arg ∈ ext_cols_list cfg) then
        (* Priority 2: external data, data_in[arg].values[0] *)
        col ← getitem arg (data_in st);
        v ← first_value col;
        Ok {| args_data := args_data acc ++ [Scalar v]; in_flg := in_flg acc; out_flg := true |}
      else
        match get_column arg (data_in st) with
        | Some col =>
            (* Priority 3: a column of data_in *)
            Ok {| args_data := args_data acc ++ [Array col]; in_flg := true; out_flg := out_flg acc |}
        | None => Raise (ArgumentNotFound feature arg false)
        end
  end.

(** Where an argument is found, in the order the three sources are tried. *)
Definition from_scalar_map (st : group_state) (arg : string) : bool :=
  bool_decide (is_Some (agg_results st !! arg)).

Definition from_external (cfg : cfg_model) (st : group_state) (arg : string) : bool :=
  negb (from_scalar_map st arg) && bool_decide (arg ∈ ext_cols_list cfg).

Definition from_row_table (cfg : cfg_model) (st : group_state) (arg : string) : bool :=
  negb (from_scalar_map st arg) && negb (bool_decide (arg ∈ ext_cols_list cfg))
  && has_column arg (data_in st).

(** Found in none of the three. *)
Definition unresolved (cfg : cfg_model) (st : group_state) (arg : string) : bool :=
  negb (from_scalar_map st arg) && negb (bool_decide (arg ∈ ext_cols_list cfg))
  && negb (has_column arg (data_in st)).

(** Listed as external, but not readable as [data_in[arg].values[0]]: the
    column is missing or the table has no row. *)
Definition external_unreadable (cfg : cfg_model) (st : group_state) (arg : string) : bool :=
  from_external cfg st arg
  && match get_column arg (data_in st) with
     | Some (_ :: _) => false
     | _ => true
     end.

(** The log lines that report a computation of [feature]. *)
Definition computes (feature : string) (l : log_line) : bool :=
  match l with
  | RoutedFilter f _ | RoutedAttribute f _ => bool_decide (f = feature)
  | SkippingPresent _ | SkippingAttribute _ => false
  end.

Definition add_log (l : log_line) (st : group_state) : group_state :=
  {| data_in := data_in st; agg_results := agg_results st;
     filters_calculated := filters_calculated st; log := log st ++ [l] |}.

(** Cases 1 and 2, FILTER: the column computed row by row is stored in
    [data_in] under the name of the feature. *)
Definition run_as_filter (feature : string) (func : callable) (scan : arg_scan)
    (st : group_state) : res group_state :=
  r ← calculate_filter feature func (args_data scan);
  df ← setitem feature r (data_in st);
  Ok {| data_in := df;
        agg_results := agg_results st;
        filters_calculated := filters_calculated st ++ [feature];
        log := log st ++ [RoutedFilter feature (out_flg scan)] |}.

(** Cases 3 and 4, ATTRIBUTE: the value of one call is stored in
    [agg_results] under the name of the feature. *)
Definition run_as_attribute (feature : string) (func : callable)
    (groupby_flg : bool) (scan : arg_scan) (st : group_state) : res group_state :=
  r ← calculate_attribute feature func (args_data scan);
  Ok {| data_in := data_in st;
        agg_results := <[feature := r]> (agg_results st);
        filters_calculated := filters_calculated st;
        log := log st ++ [RoutedAttribute feature groupby_flg] |}.

(** The body of the single loop of [process_group], for one feature. *)
Definition process_feature (cfg : cfg_model) (feature : string) (st : group_state)
    : res group_state :=
  if has_column feature (data_in st) then Ok (add_log (SkippingPresent feature) st)
  else
    func ← lookup_cfg (feature_funcs cfg) feature;
    args ← lookup_cfg (feature_args cfg) feature;
    groupby_flg ← lookup_cfg (feature_groupby_flg cfg) feature;
    scan ← for_each (resolve_arg cfg st feature) args scan_start;
    if negb (bool_decide (length (args_data scan) = length args)) then Ok st
    else if in_flg scan && negb groupby_flg then run_as_filter feature func scan st
    else run_as_attribute feature func groupby_flg scan st.

Definition group_start (group_df : DataFrame) : group_state :=
  {| data_in := group_df; agg_results := ∅; filters_calculated := []; log := [] |}.

(** [process_group] *)
Definition process_group (cfg : cfg_model) (group_df : DataFrame) : res group_state :=
  for_each (process_feature cfg) (exec_seq cfg) (group_start group_df).

(** The single loop, on its way through [exec_seq], comes to [feature] in
    the state [st]. *)
Definition reaches (cfg : cfg_model) (group_df : DataFrame) (feature : string)
    (st : group_state) : Prop :=
  ∃ pre post,
    exec_seq cfg = pre ++ feature :: post ∧
    for_each (process_feature cfg) pre (group_start group_df) = Ok st.

(** ... and executes it there: the feature is not skipped, and its
    function, its arguments [args] and its flag are configured. *)
Definition executes (cfg : cfg_model) (group_df : DataFrame) (feature : string)
    (st : group_state) (args : list string) : Prop :=
  reaches cfg group_df feature st ∧
  has_column feature (data_in st) = false ∧
  is_Some (feature_funcs cfg !! feature) ∧
  feature_args cfg !! feature = Some args ∧
  is_Some (feature_groupby_flg cfg !! feature).

(** One turn of [for arg in args] in enrichment mode: the columns of the
    data are the only source. *)
Definition take_column (feature : string) (df : DataFrame) (arg : string)
    (acc : list pyobj) : res (list pyobj) :=
  match get_column arg df with
  | Some col => Ok (acc ++ [Array col])
  | None => Raise (ArgumentNotFound feature arg true)
  end.

(** The body of the loop of [_process_no_grouping]. *)
Definition enrich_feature (cfg : cfg_model) (feature : string) (st : group_state)
    : res group_state :=
  if has_column feature (data_in st) then Ok (add_log (SkippingPresent feature) st)
  else
    func ← lookup_cfg (feature_funcs cfg) feature;
    args ← lookup_cfg (feature_args cfg) feature;
    groupby_flg ← lookup_cfg (feature_groupby_flg cfg) feature;
    if groupby_flg : bool then Ok (add_log (SkippingAttribute feature) st)
    else
      args_data ← for_each (take_column feature (data_in st)) args [];
      if negb (bool_decide (length args_data = length args)) then Ok st
      else
        r ← calculate_filter feature func args_data;
        df ← setitem feature r (data_in st);
        Ok {| data_in := df;
              agg_results := agg_results st;
              filters_calculated := filters_calculated st ++ [feature];
              log := log st ++ [RoutedFilter feature false] |}.

(** The loop of [_process_no_grouping] comes to [feature] in the state
    [st]. *)
Definition enrich_reaches (cfg : cfg_model) (data_in : DataFrame) (feature : string)
    (st : group_state) : Prop :=
  ∃ pre post,
    exec_seq cfg = pre ++ feature :: post ∧
    for_each (enrich_feature cfg) pre (group_start data_in) = Ok st.

(** The attributes table: one row per group, a row being the dict built
    for it, as the list is handed to [pd.DataFrame]; the element types
    pandas gives the columns are not modelled. [pd.DataFrame()] has no
    row. *)
Definition attrs_table : Type := list (gmap string pyobj).

(** What an execution hands back: the two tables, the filters it lists
    under 'exec_fltrs', and the log. *)
Record execution_output : Type := {
  filters_df : DataFrame;
  attrs_df : attrs_table;
  exec_fltrs : list string;
  out_log : list log_line;
}.

(** [_process_no_grouping] *)
Definition _process_no_grouping (cfg : cfg_model) (data_in : DataFrame)
    : res execution_output :=
  st ← for_each (enrich_feature cfg) (exec_seq cfg) (group_start data_in);
  Ok {| filters_df := GroupBy.data_in st;
        attrs_df := [];
        exec_fltrs := filters_calculated st;
        out_log := log st |}.

(** The key of a group, as the grouping hands it over: one value, or a
    tuple when there are several group-by columns. *)
Inductive group_value : Type :=
  | KeyScalar (v : value)
  | KeyTuple (vs : list value).

(** [group_value[i] if isinstance(group_value, tuple) else group_value] *)
Definition key_part (gv : group_value) (i : nat) : res value :=
  match gv with
  | KeyScalar v => Ok v
  | KeyTuple vs =>
      match vs !! i with
      | Some v => Ok v
      | None => Raise IndexError
      end
  end.

Definition key_object (gv : group_value) : pyobj :=
  match gv with
  | KeyScalar v => Scalar v
  | KeyTuple vs => Array vs
  end.

(** The names of the group-by columns. *)
Definition group_by_columns (g : group_by_arg) : list string :=
  match g with
  | GbNone => []
  | GbStr col => [col]
  | GbList cols => cols
  end.

(** The group-by column(s) added back to the rows of a group. *)
Definition attach_group_by (g : group_by_arg) (gv : group_value) (df : DataFrame)
    : res DataFrame :=
  match g with
  | GbList cols =>
      for_each
        (fun ic df' => v ← key_part gv ic.1; setitem ic.2 (Scalar v) df')
        (imap pair cols) df
  | GbStr col => setitem col (key_object gv) df
  | GbNone => Ok df
  end.

(** The frame a finished group contributes to [data_in_list]: nothing when
    its table is empty, else the table with the group-by columns added
    back and its all-NA columns dropped. *)
Definition group_contribution (g : group_by_arg) (gv : group_value)
    (result : group_state) : res (option DataFrame) :=
  let df := data_in result in
  if is_empty df then Ok None
  else
    df' ← attach_group_by g gv df;
    Ok (Some (dropna_all df')).

(** The dict that becomes the group's row of the attributes table. *)
Definition attrs_row (g : group_by_arg) (gv : group_value) (result : group_state)
    : res (gmap string pyobj) :=
  row_dict ←
    match g with
    | GbList cols =>
        match gv with
        | KeyTuple _ =>
            for_each
              (fun ic (d : gmap string pyobj) => v ← key_part gv ic.1; Ok (<[ic.2 := Scalar v]> d))
              (imap pair cols) ∅
        | KeyScalar v =>
            match cols with
            | col :: _ => Ok {[col := Scalar v]}
            | [] => Raise IndexError
            end
        end
    | GbStr col => Ok {[col := key_object gv]}
    | GbNone => Ok ∅
    end;
  Ok (agg_results result ∪ row_dict).

(** [group_by_col is None or group_by_col == [] or group_by_col == ''] *)
Definition no_grouping (g : group_by_arg) : bool :=
  match g with
  | GbNone => true
  | GbList [] => true
  | GbList (_ :: _) => false
  | GbStr col => String.eqb col ""
  end.

(** [_build_filters_dataframe]: all the columns, the index renumbered. *)
Definition _build_filters_dataframe (data_in_combined : DataFrame) : DataFrame :=
  if is_empty data_in_combined then empty_frame else data_in_combined.

(** The grouped case of [process_all_groups] when there is a group:
    [apply] returns the results of [process_group], one per group, in the
    order of the groups. *)
Definition _process_grouped (cfg : cfg_model)
    (groups : list (group_value * DataFrame)) : res execution_output :=
  let group_by_col := group_by cfg in
    grouped_results ←
      mapM (M := res) (fun g => result ← process_group cfg g.2; Ok (g.1, result)) groups;
    let all_filters : gset string :=
      list_to_set (flat_map (fun r => filters_calculated r.2) grouped_results) in
    data_in_list ←
      for_each
        (fun r acc =>
           c ← group_contribution group_by_col r.1 r.2;
           Ok (acc ++ match c with Some df_cleaned => [df_cleaned] | None => [] end))
        grouped_results [];
    let data_in_combined :=
      match data_in_list with
      | [] => empty_frame
      | _ :: _ => concat data_in_list
      end in
    let filters_df :=
      if is_empty data_in_combined then empty_frame
      else _build_filters_dataframe data_in_combined in
    attrs_list ←
      mapM (M := res) (fun r => attrs_row group_by_col r.1 r.2) grouped_results;
    Ok {| filters_df := filters_df;
          attrs_df := attrs_list;
          exec_fltrs := elements all_filters;
          out_log := flat_map (fun r => log r.2) grouped_results |}.

(** [process_all_groups], after the external data has been merged into
    [data_in]. [groups] is what [data_in.groupby(group_by_col)] iterates
    over: the key and the rows of every group, without the group-by
    columns. Without any group, [apply] returns an empty table whose
    columns are the columns of the data that are no group-by columns, and
    [items()] goes through these columns: the first of them is asked for
    'data_in', which raises KeyError; when there is no such column the two
    tables are empty. *)
Definition process_all_groups (cfg : cfg_model) (data_in : DataFrame)
    (groups : list (group_value * DataFrame)) : res execution_output :=
  let group_by_col := group_by cfg in
  if no_grouping group_by_col then _process_no_grouping cfg data_in
  else
    match groups with
    | [] =>
        if forallb (fun c => bool_decide (c ∈ group_by_columns group_by_col))
             (column_names data_in)
        then Ok {| filters_df := empty_frame; attrs_df := [];
                   exec_fltrs := []; out_log := [] |}
        else Raise (KeyError "data_in")
    | _ :: _ => _process_grouped cfg groups
    end.

End GroupBy.

(** ** DependencyResolver._extract_external_columns, with its dict *)

Module ExternalColumns.
Import Text.

(** [s[n:]] *)
Fixpoint string_drop (n : nat) (s : string) : string :=
  match n, s with
  | O, _ => s
  | S n', String _ s' => string_drop n' s'
  | S _, EmptyString => EmptyString
  end.

(** [s.replace(old, '', 1)]: the leftmost occurrence of [old] removed *)
Fixpoint remove_first (old s : string) : string :=
  if starts_with old s then string_drop (String.length old) s
  else
    match s with
    | EmptyString => EmptyString
    | String c s' => String c (remove_first old s')
    end.

(** [_extract_external_columns]: [external_data] is the list of the keys
    of the configured dict, in its order (empty for None and for the empty
    dict); the result is the dict, as the list of its items, and the flat
    list. *)
Definition _extract_external_columns (input_cols : list string)
    (external_data : list string) : list (string * list string) * list string :=
  foldl
    (fun (acc : list (string * list string) * list string) ext_name =>
       let prefix := ext_name +:+ "_" in
       let matching_cols :=
         remove_first prefix <$> filter (fun col => starts_with prefix col = true) input_cols in
       let full_col_names := filter (fun col => starts_with prefix col = true) input_cols in
       match matching_cols with
       | [] => acc
       | _ :: _ => (Frame.put ext_name matching_cols acc.1, acc.2 ++ full_col_names)
       end)
    ([], []) external_data.

(** The entry of the dict for one source: none when no input column has
    its prefix. *)
Definition entry (input_cols : list string) (ext_name : string)
    : list (string * list string) :=
  match remove_first (ext_name +:+ "_")
          <$> filter (fun col => starts_with (ext_name +:+ "_") col = true) input_cols with
  | [] => []
  | cols => [(ext_name, cols)]
  end.

End ExternalColumns.

(** ** normalize_to_list (src/utils/dict_utils.py) *)

Module DictUtils.
Import Resolver(group_by_arg, GbNone, GbStr, GbList).

#[global] Instance group_by_arg_eq_dec : EqDecision group_by_arg.
Proof. solve_decision. Defined.

(** [normalize_to_list(value, empty_indicators, to_none)] on the values a
    group-by or row-id entry takes: None, a string, a list of strings. The
    result is None or a list; an element of the list is None when the value
    None is wrapped. *)
Definition default_empty_indicators : list group_by_arg := [GbNone; GbStr ""; GbList []].

Definition normalize_to_list (value : group_by_arg)
    (empty_indicators : option (list group_by_arg)) (to_none : bool)
    : option (list (option string)) :=
  let empty_indicators := default default_empty_indicators empty_indicators in
  if bool_decide (value ∈ empty_indicators) then
    if to_none then None else Some []
  else
    match value with
    | GbList cols => Some (Some <$> cols)
    | GbStr col => Some [Some col]
    | GbNone => Some [None]
    end.

(** The value as the next reader of the configuration sees it. *)
Definition as_group_by (normalized : option (list (option string))) : group_by_arg :=
  match normalized with
  | None => GbNone
  | Some l => GbList (omap id l)
  end.

(** [has_all_keys], [get_missing_keys] and [filter_dict_by_keys] on a dict
    with string keys. *)
Definition has_all_keys {V : Type} (d : gmap string V) (required_keys : list string) : bool :=
  forallb (fun key => bool_decide (key ∈ dom d)) required_keys.

Definition get_missing_keys {V : Type} (d : gmap string V) (required_keys : list string)
    : list string :=
  filter (fun key => key ∉ dom d) required_keys.

Definition filter_dict_by_keys {V : Type} (d : gmap string V) (keys_to_keep : list string)
    (safe : bool) : res (gmap string V) :=
  if safe then
    Ok (foldl (fun acc k => match d !! k with Some v => <[k := v]> acc | None => acc end)
          ∅ keys_to_keep)
  else
    for_each
      (fun k acc =>
         match d !! k with
         | Some v => Ok (<[k := v]> acc)
         | None => Raise (KeyError k)
         end)
      keys_to_keep ∅.

End DictUtils.

(** ** FeatureAnalyzer (src/features/analyzer.py) *)

Module Analyzer.
Import Store Detector Calculator.

(** The three dicts [analyze_features] returns. *)
Record analysis : Type := {
  feature_funcs : gmap string callable;
  feature_args : gmap string (list string);
  feature_groupby_flg : gmap string bool;
}.

Definition no_analysis : analysis :=
  {| feature_funcs := ∅; feature_args := ∅; feature_groupby_flg := ∅ |}.

(** What the detector is given for a definition. *)
Definition body_of (feature_def : feature_def) : feature_body :=
  match feature_def with
  | DefCallable _ getsource => BodyCallable getsource
  | DefDict udf_code _ => BodyText udf_code
  end.

Section analyze.

(** [str.lower], which the detector calls. *)
Variable str_lower : string → string.

(** What a registered Python function does when called. *)
Variable behaviour : list string → option string → callable.

(** [exec(udf_code, ...)] followed by [local_scope.get(name)]: the function
    the code defines under the name, or the exception raised ([exec]'s own,
    or the ValueError of a code that does not define the name). *)
Variable exec_udf : string → string → res callable.

(** [_analyze_callable]: the function, its arguments and the aggregation
    flag. *)
Definition _analyze_callable (name : string) (co_varnames : list string)
    (getsource : option string) : callable * list string * bool :=
  let groupby_flg := is_aggregation str_lower (BodyCallable getsource) in
  let args := co_varnames in
  (behaviour co_varnames getsource, args, groupby_flg).

(** [_analyze_dict]: a dict without 'args' raises KeyError before the code
    is executed. *)
Definition _analyze_dict (name : string) (udf_code : string)
    (args : option (list string)) : res (callable * list string * bool) :=
  match args with
  | None => Raise (KeyError "args")
  | Some args =>
      let groupby_flg := is_aggregation str_lower (BodyText udf_code) in
      func ← exec_udf udf_code name;
      Ok (func, args, groupby_flg)
  end.

(** [if callable(feature_def): ... else: ...] *)
Definition analyze_definition (name : string) (feature_def : feature_def)
    : res (callable * list string * bool) :=
  match feature_def with
  | DefCallable co_varnames getsource => Ok (_analyze_callable name co_varnames getsource)
  | DefDict udf_code args => _analyze_dict name udf_code args
  end.

(** One turn of the loop of [analyze_features]. *)
Definition analyze_feature (st : FeatureStore) (data_in_columns : list string)
    (model_name : option string) (feature : string) (acc : analysis) : res analysis :=
  if bool_decide (feature ∈ data_in_columns) then Ok acc
  else
    match get_feature st feature model_name with
    | None => Ok acc
    | Some feature_def =>
        r ← analyze_definition feature feature_def;
        Ok {| feature_funcs := <[feature := r.1.1]> (feature_funcs acc);
              feature_args := <[feature := r.1.2]> (feature_args acc);
              feature_groupby_flg := <[feature := r.2]> (feature_groupby_flg acc) |}
    end.

Definition analyze_features (st : FeatureStore) (exec_seq data_in_columns : list string)
    (model_name : option string) : res analysis :=
  for_each (analyze_feature st data_in_columns model_name) exec_seq no_analysis.

End analyze.

(** [cfg_model] once [execute_model] has added the three dicts to it. *)
Definition with_analysis (exec_seq : list string) (a : analysis)
    (ext_cols_list : list string) (group_by : Resolver.group_by_arg) : GroupBy.cfg_model :=
  {| GroupBy.exec_seq := exec_seq;
     GroupBy.feature_funcs := feature_funcs a;
     GroupBy.feature_args := feature_args a;
     GroupBy.feature_groupby_flg := feature_groupby_flg a;
     GroupBy.ext_cols_list := ext_cols_list;
     GroupBy.group_by := group_by |}.

(** [validate_arguments] *)
Definition validate_arguments (feature : string) (args : list string)
    (data_in_columns agg_results_keys : list string) : bool :=
  let missing_args :=
    filter (fun arg => (arg ∉ data_in_columns) ∧ (arg ∉ agg_results_keys)) args in
  match missing_args with
  | [] => true
  | _ :: _ => false
  end.

End Analyzer.

(** ** FeatureCalculator.prepare_filter_args, prepare_attribute_args
       (src/execution/calculator.py) *)

Module Prepare.
Import Frame Calculator.

(** The message of the KeyError raised for an argument found nowhere. *)
Definition not_found (arg : string) : string :=
  "Argument '" +:+ arg +:+ "' not found in data_in or agg_results".

Definition prepare_filter_args (arg : string) (data_in : DataFrame)
    (agg_results : gmap string pyobj) : res pyobj :=
  if has_column arg data_in then
    col ← getitem arg data_in; Ok (Array col)
  else
    match agg_results !! arg with
    | Some v => Ok v
    | None => Raise (KeyError (not_found arg))
    end.

Definition prepare_attribute_args (arg : string) (data_in : DataFrame)
    (agg_results : gmap string pyobj) : res pyobj :=
  if has_column arg data_in then
    col ← getitem arg data_in; Ok (Array col)
  else
    match agg_results !! arg with
    | Some v => Ok v
    | None => Raise (KeyError (not_found arg))
    end.

End Prepare.

(** ** ExternalDataManager.resolve_argument_source
       (src/execution/external_data.py) *)

Module ExternalData.
Import Frame Calculator.

Inductive source : Type := FromAggResults | FromExternal | FromDataIn.

(** What the call gives: a value and its source, the ValueError of an
    argument found nowhere, the ValueError of an external column that is
    in no table, or the IndexError of [values[0]] on a table without
    rows. *)
Inductive resolution : Type :=
  | Resolved (value : pyobj) (src : source)
  | NotFound
  | ExternalNotFound
  | NoRows.

(** [resolve_argument_source(arg, data_in, agg_results, ext_cols_list,
    ext_data)]; [ext_data] is None or a table. *)
Definition resolve_argument_source (arg : string) (data_in : DataFrame)
    (agg_results : gmap string pyobj) (ext_cols_list : list string)
    (ext_data : option DataFrame) : resolution :=
  match agg_results !! arg with
  | Some v => Resolved v FromAggResults
  | None =>
      if bool_decide (arg ∈ ext_cols_list) then
        match ext_data ≫= get_column arg with
        | Some (v :: _) => Resolved (Scalar v) FromExternal
        | Some [] => NoRows
        | None =>
            match get_column arg data_in with
            | Some (v :: _) => Resolved (Scalar v) FromExternal
            | Some [] => NoRows
            | None => ExternalNotFound
            end
        end
      else
        match get_column arg data_in with
        | Some col => Resolved (Array col) FromDataIn
        | None => NotFound
        end
  end.

Definition is_data_in (src : source) : bool :=
  match src with FromDataIn => true | _ => false end.

End ExternalData.

(** ** ModelExecutor (src/execution/executor.py) *)

Module Executor.
Import Frame Calculator GroupBy DictUtils.
Import Resolver(group_by_arg, GbNone, GbStr, GbList).

(** [cfg_model['group_by'] = group_by] *)
Definition with_group_by (cfg : cfg_model) (g : group_by_arg) : cfg_model :=
  {| exec_seq := exec_seq cfg;
     feature_funcs := feature_funcs cfg;
     feature_args := feature_args cfg;
     feature_groupby_flg := feature_groupby_flg cfg;
     ext_cols_list := ext_cols_list cfg;
     group_by := g |}.

(** What [execute_model] makes of the group-by entry. *)
Definition executor_group_by (g : group_by_arg) : group_by_arg :=
  as_group_by (normalize_to_list g (Some [GbNone; GbStr ""; GbList []]) true).

Definition scalar_key (gv : group_value) : Prop :=
  match gv with KeyScalar _ => True | KeyTuple _ => False end.

(** A scalar key as the 1-tuple a grouping by a list of one column gives. *)
Definition as_tuple_key (gv : group_value) : group_value :=
  match gv with
  | KeyScalar v => KeyTuple [v]
  | KeyTuple vs => KeyTuple vs
  end.

(** [_update_exec_tracking]: the two lists it stores under 'exec_fltrs'
    and 'exec_attrs'. *)
Definition _update_exec_tracking (group_by_col row_id_col : group_by_arg)
    (filters_df attrs_df : DataFrame) : list string * list string :=
  let exclude_cols :=
    default [] (normalize_to_list group_by_col None false)
    ++ default [] (normalize_to_list row_id_col None false) in
  let exec_fltrs :=
    if negb (is_empty filters_df)
    then filter (fun col => Some col ∉ exclude_cols) (column_names filters_df)
    else [] in
  let exec_attrs :=
    if negb (is_empty attrs_df)
    then filter (fun col => Some col ∉ exclude_cols) (column_names attrs_df)
    else [] in
  (exec_fltrs, exec_attrs).

End Executor.

(** ** FeatureStore and the feature directories (src/features/store.py) *)

Module Files.
Import Store.

(** The directory <base_path>/<folder>/<feature>/: the text of
    <feature>.py and the 'args' entry of metadata.json (None when the
    file has none), each when the file exists. *)
Record feature_dir : Type := {
  py_file : option string;
  metadata_json : option (option (list string));
}.

Definition empty_dir : feature_dir := {| py_file := None; metadata_json := None |}.

(** What is under <base_path>: for every folder that exists (a model's,
    or 'common') its feature directories, in the order [iterdir] yields
    them. Folder and feature names are single path components; the files
    can be read, a text is read back as it was written (no newline
    translation, as on POSIX) and metadata.json holds a JSON object. *)
Definition find_dir (tree : gmap string (list (string * feature_dir)))
    (folder feature : string) : option feature_dir :=
  tree !! folder ≫= Frame.assoc feature.

(** [load_from_filesystem(model, feature)]: the model's folder when it
    holds <feature>.py, else the folder 'common'. *)
Definition load_from_filesystem (tree : gmap string (list (string * feature_dir)))
    (st : FeatureStore) (model feature : string) : res FeatureStore :=
  let in_model := find_dir tree model feature in
  let feat_path :=
    match in_model ≫= py_file with
    | Some _ => in_model
    | None => find_dir tree "common" feature
    end in
  match feat_path ≫= py_file with
  | None => Raise (FileNotFoundError feature)
  | Some udf_code =>
      match feat_path ≫= metadata_json with
      | None => Raise (FileNotFoundError "metadata.json")
      | Some metadata =>
          Ok (store_feature st feature (DefDict udf_code (Some (default [] metadata)))
                (Some model))
      end
  end.

(** A definition handed to [store_features] or [save_to_filesystem]: a
    function, with the names [co_varnames[:co_argcount]], the names of
    [inspect.signature(f).parameters] and the text [inspect.getsource]
    finds, or a dict with a code string under 'udf' and, possibly,
    'args'. *)
Inductive python_def : Type :=
  | PyFunction (co_varnames parameters : list string) (getsource : option string)
  | PyDict (udf : string) (args : option (list string)).

Definition as_feature_def (d : python_def) : feature_def :=
  match d with
  | PyFunction co_varnames _ getsource => DefCallable co_varnames getsource
  | PyDict udf args => DefDict udf args
  end.

(** [ensure_directory(base_path / folder / feature)]; a directory that is
    created is listed after the others (where [iterdir] yields it is up to
    the file system, and nothing below depends on it). *)
Definition ensure_directory (tree : gmap string (list (string * feature_dir)))
    (folder feature : string) : gmap string (list (string * feature_dir)) :=
  let dirs := default [] (tree !! folder) in
  match Frame.assoc feature dirs with
  | Some _ => tree
  | None => <[folder := dirs ++ [(feature, empty_dir)]]> tree
  end.

Inductive save_result : Type :=
  | Saved (tree : gmap string (list (string * feature_dir)))
  | SaveValueError           (* the storage type is not 'local' *)
  | SaveRuntimeError (tree : gmap string (list (string * feature_dir))).
                             (* no source; the directory has been created *)

(** [save_to_filesystem(feature_name, feature_def, model_name)] *)
Definition save_to_filesystem (storage_type : string)
    (tree : gmap string (list (string * feature_dir)))
    (feature_name : string) (feature_def : python_def) (model_name : option string)
    : save_result :=
  if negb (String.eqb storage_type "local") then SaveValueError
  else
    let target_folder :=
      match model_name with
      | Some m => if truthy model_name then m else "common"
      | None => "common"
      end in
    let tree1 := ensure_directory tree target_folder feature_name in
    let written source_code args :=
      let dirs := default [] (tree1 !! target_folder) in
      Saved
        (<[target_folder :=
             Frame.put feature_name
               {| py_file := Some source_code; metadata_json := Some (Some args) |}
               dirs]> tree1) in
    match feature_def with
    | PyFunction _ parameters getsource =>
        match getsource with
        | None => SaveRuntimeError tree1
        | Some source_code => written source_code parameters
        end
    | PyDict udf args => written udf (default [] args)
    end.

(** [get_feature_index(model)]: the cached list when there is one, else
    the feature directories of the model's folder, which are cached. *)
Definition get_feature_index (feature_index : gmap string (list string))
    (tree : gmap string (list (string * feature_dir))) (model : string)
    : list string * gmap string (list string) :=
  match feature_index !! model with
  | Some feature_names => (feature_names, feature_index)
  | None =>
      match tree !! model with
      | None => ([], <[model := []]> feature_index)
      | Some dirs => (dirs.*1, <[model := dirs.*1]> feature_index)
      end
  end.

(** The loop of [load_common_features]: a feature that cannot be loaded
    is passed over with a warning. *)
Definition load_each (tree : gmap string (list (string * feature_dir)))
    (acc : nat * FeatureStore) (common_features : list string) : nat * FeatureStore :=
  foldl
    (fun (acc : nat * FeatureStore) feature_name =>
       match load_from_filesystem tree acc.2 "common" feature_name with
       | Ok st' => (acc.1 + 1, st')
       | Raise _ => acc
       end)
    acc common_features.

(** [load_common_features()]: the number of features loaded, the
    registry and the cache afterwards. *)
Definition load_common_features (feature_index : gmap string (list string))
    (tree : gmap string (list (string * feature_dir))) (st : FeatureStore)
    : nat * FeatureStore * gmap string (list string) :=
  let '(common_features, feature_index') := get_feature_index feature_index tree "common" in
  match common_features with
  | [] => (0, st, feature_index')
  | _ :: _ => (load_each tree (0, st) common_features, feature_index')
  end.

(** [store_features(features, model_name, auto_save)], [features] being
    the items of the dict in its order: what becomes of the registry and
    of the directories. The registry has already all the features when a
    save raises. *)
Definition store_features (storage_type : string) (st : FeatureStore)
    (tree : gmap string (list (string * feature_dir)))
    (features : list (string * python_def)) (model_name : option string)
    (auto_save : bool) : FeatureStore * save_result :=
  let st' :=
    foldl (fun st nd => store_feature st nd.1 (as_feature_def nd.2) None) st features in
  if auto_save then
    (st',
     foldl
       (fun r nd =>
          match r with
          | Saved tree' => save_to_filesystem storage_type tree' nd.1 nd.2 model_name
          | _ => r
          end)
       (Saved tree) features)
  else (st', Saved tree).

(** [clear()] *)
Definition clear (st : FeatureStore) (feature_index : gmap string (list string))
    : FeatureStore * gmap string (list string) :=
  ({| features := ∅; current_model := current_model st |}, ∅).

(** A directory with both files: the code and the arguments a load
    reads from it. *)
Definition complete (d : option feature_dir) (udf_code : string) (args : list string) : Prop :=
  ∃ metadata, d ≫= py_file = Some udf_code ∧ d ≫= metadata_json = Some metadata ∧
              args = default [] metadata.

Definition loadable (fd : string * feature_dir) : bool :=
  bool_decide (is_Some (py_file fd.2)) && bool_decide (is_Some (metadata_json fd.2)).

(** The folder a feature is saved in. *)
Definition target_folder (model_name : option string) : string :=
  match model_name with
  | Some m => if truthy model_name then m else "common"
  | None => "common"
  end.

(** What is written for a definition: the code and the arguments. *)
Definition written (d : python_def) : option (string * list string) :=
  match d with
  | PyFunction _ parameters getsource => (fun src => (src, parameters)) <$> getsource
  | PyDict udf args => Some (udf, default [] args)
  end.

End Files.

(** ** What the proofs keep track of *)

Module Tracking.
Import Store Detector Resolver ResolverInv Frame Calculator GroupBy.

(** What one visit of the resolver does to the two lists, whatever the
    names: they only grow at the end; the feature visited ends in one of
    them; a name is appended to [exec_seq] only if it is not an available
    column; and the names appended are the feature visited and arguments
    that are not group-by columns. *)
Definition plan_step (env : resolver_env) (f : string) (s s' : rstate) : Prop :=
  input_cols s `prefix_of` input_cols s' ∧
  Resolver.exec_seq s `prefix_of` Resolver.exec_seq s' ∧
  (f ∈ input_cols s' ∨ f ∈ Resolver.exec_seq s') ∧
  (∀ x, x ∈ Resolver.exec_seq s' → x ∈ Resolver.exec_seq s ∨ x ∉ available_cols env) ∧
  (∀ x, x ∈ input_cols s' ++ Resolver.exec_seq s' →
        x ∈ input_cols s ++ Resolver.exec_seq s ∨ x = f ∨ x ∉ Resolver.group_by env).

(** The registry [st'] differs from [st] only by definitions fetched from
    disk. *)
Definition only_fetched (env : resolver_env) (st st' : FeatureStore) : Prop :=
  current_model st' = current_model st ∧
  ∀ k, features st' !! k = features st !! k ∨
       ∃ f udf args,
         f ∈ feat_idx env ∧ disk env !! f = Some (udf, args) ∧
         k = key_of (py_or (Some (model env)) (current_model st)) f ∧
         features st' !! k = Some (DefDict udf (Some args)).

(** Every name of [input_cols] is one a visit takes as an input column. *)
Definition inputs_ok (env : resolver_env) (st0 : FeatureStore) (s : rstate) : Prop :=
  ∀ x, x ∈ input_cols s → classify env st0 x = Input.

(** [f] is a feature whose route stays ATTRIBUTE: its flag is true, or all
    its arguments are read from the scalar map or listed as external. *)
Definition settled_attribute (cfg : cfg_model) (st : group_state) (f : string) : Prop :=
  ∃ args flg,
    feature_args cfg !! f = Some args ∧
    feature_groupby_flg cfg !! f = Some flg ∧
    (flg = true ∨
     forallb (fun a => from_scalar_map st a || bool_decide (a ∈ ext_cols_list cfg)) args
     = true).

(** No key of the scalar map is a column of the row table. *)
Definition apart (cfg : cfg_model) (st : group_state) : Prop :=
  ∀ f, f ∈ dom (agg_results st) →
       has_column f (data_in st) = false ∧ settled_attribute cfg st f.


(** What the loop of [analyze_features] has built after the features
    [seen]. *)
Definition analysed (str_lower : string → string)
    (behaviour : list string → option string → callable)
    (exec_udf : string → string → res callable)
    (st : FeatureStore) (data_in_columns : list string) (model_name : option string)
    (seen : list string) (a : Analyzer.analysis) : Prop :=
  (∀ f, f ∈ dom (Analyzer.feature_args a) ↔
        f ∈ seen ∧ (f ∉ data_in_columns) ∧ is_Some (get_feature st f model_name)) ∧
  dom (Analyzer.feature_funcs a) = dom (Analyzer.feature_args a) ∧
  dom (Analyzer.feature_groupby_flg a) = dom (Analyzer.feature_args a) ∧
  (∀ f d, f ∈ dom (Analyzer.feature_args a) → get_feature st f model_name = Some d →
          ∃ func,
            Analyzer.analyze_definition str_lower behaviour exec_udf f d
            = Ok (func, Resolver.arg_list d,
                  is_aggregation str_lower (Analyzer.body_of d)) ∧
            Analyzer.feature_funcs a !! f = Some func ∧
            Analyzer.feature_args a !! f = Some (Resolver.arg_list d) ∧
            Analyzer.feature_groupby_flg a !! f
            = Some (is_aggregation str_lower (Analyzer.body_of d))).

End Tracking.

(** ** Feature bodies used in the examples *)

Module Examples.
Import Frame Calculator.

(** [lambda a, b: a * b] on integers *)
Definition times : callable := fun args =>
  match args with
  | [Scalar (VInt a); Scalar (VInt b)] => Returns (Scalar (VInt (a * b)))
  | _ => Throws 0
  end.

(** [lambda xs: xs.sum()] on an integer column *)
Definition sum_ints : callable := fun args =>
  match args with
  | [Array vs] =>
      Returns (Scalar (VInt (foldr (fun v acc =>
                                      match v with
                                      | VInt n => (n + acc)%Z
                                      | _ => acc
                                      end) 0%Z vs)))
  | _ => Throws 1
  end.

(** A model with an aggregation, [price_sum], and a filter that reads it,
    [weighted] (a filter that uses an attribute), grouped by "id". *)
Definition cfg_weighted : GroupBy.cfg_model :=
  {| GroupBy.exec_seq := ["price_sum"; "weighted"]%string;
     GroupBy.feature_funcs :=
       {[ "price_sum"%string := sum_ints; "weighted"%string := times ]};
     GroupBy.feature_args :=
       {[ "price_sum"%string := ["price"%string];
          "weighted"%string := ["price"; "price_sum"]%string ]};
     GroupBy.feature_groupby_flg :=
       {[ "price_sum"%string := true; "weighted"%string := false ]};
     GroupBy.ext_cols_list := [];
     GroupBy.group_by := Resolver.GbStr "id" |}.

(** The rows of one group: two prices. *)
Definition prices : DataFrame :=
  {| nrows := 2; columns := [("price"%string, [VInt 10; VInt 20])] |}.

(** The state of that group once [price_sum] is computed. *)
Definition prices_summed : GroupBy.group_state :=
  {| GroupBy.data_in := prices;
     GroupBy.agg_results := {[ "price_sum"%string := Scalar (VInt 30) ]};
     GroupBy.filters_calculated := [];
     GroupBy.log := [GroupBy.RoutedAttribute "price_sum" true] |}.

(** The same rows, with a column "weighted" already there. *)
Definition prices_weighted : DataFrame :=
  {| nrows := 2;
     columns := [("price"%string, [VInt 10; VInt 20]);
                 ("weighted"%string, [VInt 1; VInt 2])] |}.

(** A model whose aggregation "weighted" is already a column of the data,
    without group-by. *)
Definition cfg_present : GroupBy.cfg_model :=
  {| GroupBy.exec_seq := ["weighted"%string];
     GroupBy.feature_funcs := {[ "weighted"%string := sum_ints ]};
     GroupBy.feature_args := {[ "weighted"%string := ["price"%string] ]};
     GroupBy.feature_groupby_flg := {[ "weighted"%string := true ]};
     GroupBy.ext_cols_list := [];
     GroupBy.group_by := Resolver.GbNone |}.

(** The enrichment of the round trip scenario: [total] is quantity times
    price, [qty_sum] an aggregation. *)
Definition cfg_total : GroupBy.cfg_model :=
  {| GroupBy.exec_seq := ["qty_sum"; "total"]%string;
     GroupBy.feature_funcs :=
       {[ "qty_sum"%string := sum_ints; "total"%string := times ]};
     GroupBy.feature_args :=
       {[ "qty_sum"%string := ["qty"%string];
          "total"%string := ["qty"; "price"]%string ]};
     GroupBy.feature_groupby_flg :=
       {[ "qty_sum"%string := true; "total"%string := false ]};
     GroupBy.ext_cols_list := [];
     GroupBy.group_by := Resolver.GbNone |}.

Definition orders : DataFrame :=
  {| nrows := 2;
     columns := [("id"%string, [VInt 1; VInt 2]);
                 ("qty"%string, [VInt 2; VInt 3]);
                 ("price"%string, [VInt 10; VInt 20])] |}.

(** [lambda x: None] *)
Definition no_value : callable := fun _ => Returns (Scalar VNone).



(** A model grouped by "id" whose filter [flag] has no value on any row. *)
Definition cfg_flag : GroupBy.cfg_model :=
  {| GroupBy.exec_seq := ["flag"%string];
     GroupBy.feature_funcs := {[ "flag"%string := no_value ]};
     GroupBy.feature_args := {[ "flag"%string := ["price"%string] ]};
     GroupBy.feature_groupby_flg := {[ "flag"%string := false ]};
     GroupBy.ext_cols_list := [];
     GroupBy.group_by := Resolver.GbStr "id" |}.

(** Two orders with a note on the second only, and their two groups. *)
Definition noted_orders : DataFrame :=
  {| nrows := 2;
     columns := [("id"%string, [VInt 1; VInt 2]);
                 ("price"%string, [VInt 10; VInt 20]);
                 ("note"%string, [VNaN; VStr "late"])] |}.


Definition first_order : DataFrame :=
  {| nrows := 1;
     columns := [("price"%string, [VInt 10]); ("note"%string, [VNaN])] |}.

Definition second_order : DataFrame :=
  {| nrows := 1;
     columns := [("price"%string, [VInt 20]); ("note"%string, [VStr "late"])] |}.

Definition noted_groups : list (GroupBy.group_value * DataFrame) :=
  [(GroupBy.KeyScalar (VInt 1), first_order);
   (GroupBy.KeyScalar (VInt 2), second_order)].

(** A model grouped by "id" whose feature [note] comes with the data. *)
Definition cfg_note : GroupBy.cfg_model :=
  {| GroupBy.exec_seq := ["note"%string];
     GroupBy.feature_funcs := {[ "note"%string := no_value ]};
     GroupBy.feature_args := {[ "note"%string := ["price"%string] ]};
     GroupBy.feature_groupby_flg := {[ "note"%string := false ]};
     GroupBy.ext_cols_list := [];
     GroupBy.group_by := Resolver.GbStr "id" |}.

(** A model whose only feature reads a column, "cost", that nothing
    provides. *)
Definition cfg_margin : GroupBy.cfg_model :=
  {| GroupBy.exec_seq := ["margin"%string];
     GroupBy.feature_funcs := {[ "margin"%string := times ]};
     GroupBy.feature_args := {[ "margin"%string := ["price"; "cost"]%string ]};
     GroupBy.feature_groupby_flg := {[ "margin"%string := false ]};
     GroupBy.ext_cols_list := [];
     GroupBy.group_by := Resolver.GbStr "id" |}.

(** The registry and the call of the resolver's functional test: a base
    feature over a column, and a feature derived from it. *)
Definition test_store : Store.FeatureStore :=
  {| Store.features :=
       {[ "base_feature"%string := Store.DefCallable ["col1"%string] None;
          "derived_feature"%string
            := Store.DefCallable ["base_feature"; "col2"]%string None ]};
     Store.current_model := None |}.

Definition test_env : Resolver.resolver_env :=
  {| Resolver.available_cols := ["col1"; "col2"]%string;
     Resolver.group_by := [];
     Resolver.feat_idx := [];
     Resolver.model := "test_model";
     Resolver.disk := ∅ |}.

(** The model "sales" with a feature "total" registered in memory for
    the model (under the key "sales:total", reading "price"), a common
    feature "rate", and on disk another version of "total" that reads
    "rate". *)
Definition scoped_store : Store.FeatureStore :=
  Store.store_feature
    {| Store.features := {[ "rate"%string := Store.DefCallable ["price"%string] None ]};
       Store.current_model := Some "sales"%string |}
    "total" (Store.DefDict "def total(price): return price" (Some ["price"%string]))
    (Some "sales"%string).

Definition scoped_env : Resolver.resolver_env :=
  {| Resolver.available_cols := ["price"%string];
     Resolver.group_by := [];
     Resolver.feat_idx := ["total"%string];
     Resolver.model := "sales";
     Resolver.disk :=
       {[ "total"%string
            := ("def total(rate): return rate"%string, ["rate"%string]) ]} |}.

(** A registry with a feature that lists itself as an argument. *)
Definition looping_store : Store.FeatureStore :=
  {| Store.features :=
       {[ "running_total"%string
            := Store.DefCallable ["running_total"; "col1"]%string None ]};
     Store.current_model := None |}.

(** The registry of the functional test, with that feature added: no
    feature of the test reads it. *)
Definition mixed_store : Store.FeatureStore :=
  {| Store.features :=
       <[ "running_total"%string
            := Store.DefCallable ["running_total"; "col1"]%string None ]>
         (Store.features test_store);
     Store.current_model := None |}.

(** A feature index that lists "ghost", whose files are missing, and a
    registry whose feature "f" reads "ghost" and then itself. *)
Definition ghost_env : Resolver.resolver_env :=
  {| Resolver.available_cols := ["col1"%string];
     Resolver.group_by := [];
     Resolver.feat_idx := ["ghost"%string];
     Resolver.model := "test_model";
     Resolver.disk := ∅ |}.

Definition ghost_store : Store.FeatureStore :=
  {| Store.features :=
       {[ "f"%string := Store.DefCallable ["ghost"; "f"]%string None ]};
     Store.current_model := None |}.

End Examples.

(** ** Feature directories and definitions used in the examples *)

Module FileExamples.
Import Files.

(** A feature store on disk: the model "sales" has the code of "total"
    but no metadata for it; 'common' has "total" and "rate" with both
    files, and an empty directory "draft". *)
Definition shop_tree : gmap string (list (string * feature_dir)) :=
  {[ "sales"%string :=
       [("total"%string,
         {| py_file := Some "def total(price): return price"%string;
            metadata_json := None |})];
     "common"%string :=
       [("total"%string,
         {| py_file := Some "def total(rate): return rate"%string;
            metadata_json := Some (Some ["rate"%string]) |});
        ("rate"%string,
         {| py_file := Some "def rate(price): return price"%string;
            metadata_json := Some (Some ["price"%string]) |});
        ("draft"%string, empty_dir)] ]}.

Definition empty_store : Store.FeatureStore :=
  {| Store.features := ∅; Store.current_model := None |}.

(** The dict handed to [store_features]: a code string with its
    arguments, and a function. *)
Definition shop_features : list (string * python_def) :=
  [("total"%string, PyDict "def total(price): return price" (Some ["price"%string]));
   ("rate"%string,
    PyFunction ["price"%string] ["price"%string] (Some "def rate(price): return price"%string))].

(** A function object behaves like [times], and every code string defines
    [sum_ints]. *)
Definition behaviour : list string → option string → Calculator.callable :=
  fun _ _ => Examples.times.

Definition exec_udf : string → string → res Calculator.callable :=
  fun _ _ => Ok Examples.sum_ints.

End FileExamples.

(** * Properties *)

(** ** The error monad *)

Lemma bind_ok_inv {A B : Type} (m : res A) (k : A → res B) (b : B) :
  (m ≫= k) = Ok b → ∃ a, m = Ok a ∧ k a = Ok b.
Proof. destruct m as [a|e]; simpl; [eauto | discriminate]. Qed.

Lemma bind_raise_inv {A B : Type} (m : res A) (k : A → res B) (e : exn) :
  (m ≫= k) = Raise e → m = Raise e ∨ ∃ a, m = Ok a ∧ k a = Raise e.
Proof. destruct m as [a|e']; simpl; [eauto | intros [= ->]; eauto]. Qed.

Lemma for_each_app {A S : Type} (body : A → S → res S) (xs ys : list A) (s : S) :
  for_each body (xs ++ ys) s = (for_each body xs s ≫= for_each body ys).
Proof.
  revert s. induction xs as [|x xs IH]; intros s; simpl; [done|].
  destruct (body x s) as [s'|e]; simpl; [apply IH | done].
Qed.

(** A property kept by every turn of a loop holds when the loop ends. *)
Lemma for_each_invariant {A S : Type} (P : S → Prop) (body : A → S → res S)
    (xs : list A) (s s' : S) :
  (∀ x t t', x ∈ xs → P t → body x t = Ok t' → P t') →
  P s → for_each body xs s = Ok s' → P s'.
Proof.
  revert s. induction xs as [|x xs IH]; intros s Hstep Hs Hrun; simpl in Hrun.
  - by injection Hrun as <-.
  - apply bind_ok_inv in Hrun as (t & Hx & Hrest).
    apply (IH t); [| |done].
    + intros y u u' Hy. apply Hstep. by right.
    + eapply Hstep; [by left | done | done].
Qed.

(** ** Text *)

Section text.
Import Text.

Lemma starts_with_spec (p s : string) :
  starts_with p s = true ↔ ∃ post, s = p +:+ post.
Proof.
  revert s. induction p as [|a p IH]; intros s; simpl.
  - split; [intros _; by exists s | done].
  - destruct s as [|b s].
    + split; [done | intros [post [=]]].
    + destruct (Ascii.eqb_spec a b) as [->|Hne].
      * rewrite IH. split; intros [post Hpost]; exists post.
        -- simpl. by rewrite Hpost.
        -- simpl in Hpost. by injection Hpost.
      * split; [done | intros [post Hpost]; simpl in Hpost; by injection Hpost].
Qed.

Lemma contains_spec (p s : string) :
  contains p s = true ↔ ∃ pre post, s = pre +:+ p +:+ post.
Proof.
  induction s as [|b s IH]; simpl.
  - rewrite orb_false_r, starts_with_spec. split.
    + intros [post Hpost]. by exists EmptyString, post.
    + intros ([|c pre] & post & Hs); simpl in Hs; [by exists post | done].
  - rewrite orb_true_iff, starts_with_spec, IH. split.
    + intros [[post Hpost] | (pre & post & Hs)].
      * by exists EmptyString, post.
      * exists (String b pre), post. simpl. by rewrite Hs.
    + intros ([|c pre] & post & Hs); simpl in Hs.
      * left. by exists post.
      * right. exists pre, post. by injection Hs.
Qed.

Lemma lower_app (s t : string) : lower (s +:+ t) = lower s +:+ lower t.
Proof. induction s as [|a s IH]; simpl; [done | by rewrite IH]. Qed.

Lemma lower_app_inv (s a b : string) :
  lower s = a +:+ b → ∃ s1 s2, s = s1 +:+ s2 ∧ lower s1 = a ∧ lower s2 = b.
Proof.
  revert s. induction a as [|c a IH]; intros s Hs; simpl in Hs.
  - by exists EmptyString, s.
  - destruct s as [|d s]; simpl in Hs; [done|].
    injection Hs as Hc Hrest.
    destruct (IH s Hrest) as (s1 & s2 & -> & H1 & H2).
    exists (String d s1), s2. simpl. by rewrite Hc, H1.
Qed.

(** The test of the detector is the case-insensitive substring test. *)
Lemma contains_lower_spec (p s : string) :
  contains (lower p) (lower s) = true ↔ occurs_ci p s.
Proof.
  rewrite contains_spec. unfold occurs_ci. split.
  - intros (pre' & post' & Hs).
    apply lower_app_inv in Hs as (pre & rest & -> & _ & Hrest).
    apply lower_app_inv in Hrest as (mid & post & -> & Hmid & _).
    by exists pre, mid, post.
  - intros (pre & mid & post & -> & Hmid).
    exists (lower pre), (lower post). by rewrite !lower_app, Hmid.
Qed.

End text.

(** ** FeatureTypeDetector *)

Section detector.
Import Text Detector.
Variable str_lower : string → string.

Lemma is_aggregation_with_true (keywords : list string) (b : feature_body) :
  is_aggregation_with str_lower keywords b = true ↔
  ∃ text keyword,
    feature_text b = Some text ∧ keyword ∈ keywords ∧
    occurs (str_lower keyword) (str_lower text).
Proof.
  unfold is_aggregation_with, occurs. destruct (feature_text b) as [text|].
  - rewrite existsb_exists. split.
    + intros (keyword & Hin & Hc). exists text, keyword.
      by rewrite list_elem_of_In, <- contains_spec.
    + intros (text' & keyword & [= <-] & Hin & Hc). exists keyword.
      by rewrite <- list_elem_of_In, contains_spec.
  - split; [done | intros (? & ? & [=] & _)].
Qed.

Lemma is_aggregation_with_perm (k1 k2 : list string) (b : feature_body) :
  k1 ≡ₚ k2 → is_aggregation_with str_lower k1 b = is_aggregation_with str_lower k2 b.
Proof.
  intros Hperm. apply eq_true_iff_eq. rewrite !is_aggregation_with_true.
  by setoid_rewrite Hperm.
Qed.

(** The keywords are ASCII text in lower case, and none is empty. *)
Lemma keywords_lower (keyword : string) :
  keyword ∈ AGGREGATION_KEYWORDS →
  is_ascii keyword = true ∧ lower keyword = keyword ∧ keyword ≠ ""%string.
Proof.
  assert (forallb (fun k => is_ascii k && String.eqb (lower k) k
                            && negb (String.eqb k ""))
            AGGREGATION_KEYWORDS = true) as Hall by (vm_compute; reflexivity).
  rewrite forallb_forall in Hall. intros Hin.
  apply list_elem_of_In, Hall in Hin.
  apply andb_true_iff in Hin as [Hin Hne]. apply andb_true_iff in Hin as [Ha Hl].
  apply String.eqb_eq in Hl. apply negb_true_iff, String.eqb_neq in Hne. done.
Qed.

Hypothesis Hlower : lowers_ascii str_lower.

Lemma is_aggregation_text (code : string) :
  is_aggregation str_lower (BodyText code) = true ↔
  ∃ keyword, keyword ∈ AGGREGATION_KEYWORDS ∧ occurs keyword (str_lower code).
Proof.
  unfold is_aggregation. rewrite is_aggregation_with_true. split.
  - intros (text & keyword & [= <-] & Hin & Hocc). exists keyword. split; [done|].
    destruct (keywords_lower _ Hin) as (Ha & Hl & _).
    by rewrite (Hlower _ Ha), Hl in Hocc.
  - intros (keyword & Hin & Hocc). exists code, keyword. split; [done|]. split; [done|].
    destruct (keywords_lower _ Hin) as (Ha & Hl & _). by rewrite (Hlower _ Ha), Hl.
Qed.

(** C7. [is_aggregation] is a total boolean function. The text scanned is
    the code string itself, or the source of a callable. With [str.lower]
    any function that lower-cases ASCII text as Python does: the answer for
    a text is true exactly when one of AGGREGATION_KEYWORDS is a substring
    of the lower-cased text, and false exactly when none is; for an ASCII
    text that is: exactly when a keyword occurs in the text up to letter
    case. A callable with a source gets the answer of its source, a
    callable whose source cannot be retrieved gets false, and the order of
    the keyword list does not matter. The keywords are 23 non-empty ASCII
    texts in lower case, so the empty text gets false. *)
Theorem is_aggregation_keyword_scan (code : string) :
  (is_aggregation str_lower (BodyText code) = true ↔
   ∃ keyword, keyword ∈ AGGREGATION_KEYWORDS ∧ occurs keyword (str_lower code)) ∧
  (is_aggregation str_lower (BodyText code) = false ↔
   ∀ keyword, keyword ∈ AGGREGATION_KEYWORDS → ¬ occurs keyword (str_lower code)) ∧
  (is_ascii code = true →
   (is_aggregation str_lower (BodyText code) = true ↔
    ∃ keyword, keyword ∈ AGGREGATION_KEYWORDS ∧ occurs_ci keyword code)) ∧
  is_aggregation str_lower (BodyCallable (Some code))
  = is_aggregation str_lower (BodyText code) ∧
  is_aggregation str_lower (BodyCallable None) = false ∧
  (∀ keywords b, keywords ≡ₚ AGGREGATION_KEYWORDS →
     is_aggregation_with str_lower keywords b = is_aggregation str_lower b) ∧
  length AGGREGATION_KEYWORDS = 23 ∧
  (∀ keyword, keyword ∈ AGGREGATION_KEYWORDS →
     is_ascii keyword = true ∧ lower keyword = keyword ∧ keyword ≠ ""%string) ∧
  is_aggregation str_lower (BodyText "") = false.
Proof.
  split; [apply is_aggregation_text|].
  split; [|split; [|split; [done|split; [done|split; [|split; [done|split]]]]]].
  - rewrite <- not_true_iff_false, is_aggregation_text. split.
    + intros Hno keyword Hk Hocc. apply Hno. by exists keyword.
    + intros Hno (keyword & Hk & Hocc). by eapply Hno.
  - intros Hcode. rewrite is_aggregation_text, (Hlower _ Hcode).
    split; intros (keyword & Hin & Hocc); exists keyword; (split; [done|]);
      destruct (keywords_lower _ Hin) as (_ & Hl & _).
    + apply contains_lower_spec, contains_spec. by rewrite Hl.
    + apply contains_lower_spec, contains_spec in Hocc. by rewrite Hl in Hocc.
  - intros keywords b Hperm. by apply is_aggregation_with_perm.
  - apply keywords_lower.
  - rewrite <- not_true_iff_false, is_aggregation_text.
    intros (keyword & Hin & pre & post & Hocc).
    destruct (keywords_lower _ Hin) as (_ & _ & Hne).
    rewrite (Hlower ""%string eq_refl) in Hocc. simpl in Hocc.
    destruct pre; [|done]. simpl in Hocc. by destruct keyword.
Qed.

End detector.

Section detector_examples.
Import Text Detector.

(** The scan at work on ASCII text, where [str.lower] is [lower]: a
    function whose source calls [.SUM(] in capitals is an aggregation, as
    is that source given as a code string, also when the keywords are
    listed backwards; a body with no keyword is not. *)
Lemma is_aggregation_keyword_scan_witness :
  is_aggregation lower (BodyCallable (Some "def total(x): return x.SUM()")) = true ∧
  is_aggregation lower (BodyText "def total(x): return x.SUM()") = true ∧
  is_aggregation_with lower (reverse AGGREGATION_KEYWORDS)
    (BodyText "def total(x): return x.SUM()") = true ∧
  is_aggregation lower (BodyText "def double(x): return x * 2") = false.
Proof.
  pose proof (is_aggregation_keyword_scan lower (fun s _ => eq_refl)
                "def total(x): return x.SUM()")
    as (_ & _ & Hci & Hsrc & _ & Hperm & _).
  assert (is_aggregation lower (BodyText "def total(x): return x.SUM()") = true)
    as Htrue.
  { apply Hci; [vm_compute; reflexivity|]. exists ".sum("%string.
    split; [do 3 apply list_elem_of_further; apply list_elem_of_here|].
    exists "def total(x): return x"%string, ".SUM("%string, ")"%string. done. }
  split; [by rewrite Hsrc|]. split; [done|]. split.
  - rewrite Hperm; [done | apply reverse_Permutation].
  - vm_compute. reflexivity.
Defined.

End detector_examples.

(** ** FeatureStore *)

Section store.
Import Store.

Lemma string_app_length (s t : string) :
  String.length (s +:+ t) = String.length s + String.length t.
Proof. induction s as [|a s IH]; simpl; [done | by rewrite IH]. Qed.

Lemma string_app_inj_r (a b s : string) : a +:+ s = b +:+ s → a = b.
Proof.
  revert b. induction a as [|c a IH]; intros [|d b] Heq; simpl in Heq.
  - done.
  - apply (f_equal String.length) in Heq.
    rewrite ?string_app_length in Heq. simpl in Heq.
    rewrite ?string_app_length in Heq. lia.
  - apply (f_equal String.length) in Heq.
    rewrite ?string_app_length in Heq. simpl in Heq.
    rewrite ?string_app_length in Heq. lia.
  - injection Heq as -> Heq. by rewrite (IH b Heq).
Qed.

Lemma truthy_Some (model : option string) :
  truthy model = true ↔ ∃ m, model = Some m ∧ m ≠ ""%string.
Proof.
  destruct model as [m|]; simpl.
  - destruct (String.eqb_spec m "") as [->|Hne]; simpl.
    + split; [done | by intros (? & [= <-] & ?)].
    + split; [by exists m | done].
  - split; [done | by intros (? & [=] & _)].
Qed.

Lemma key_of_truthy (m name : string) :
  m ≠ ""%string → key_of (Some m) name = m +:+ ":" +:+ name.
Proof.
  intros Hm. unfold key_of, truthy.
  by destruct (String.eqb_spec m "") as [->|_].
Qed.

Lemma key_of_falsy (model : option string) (name : string) :
  truthy model = false → key_of model name = name.
Proof. unfold key_of. destruct model; [intros ->|]; done. Qed.

(** C4, as the code has it. With [m] the model in force (the argument, or
    [current_model] when the argument is None or empty): the definition
    under the namespaced key "m:name" is returned when there is one;
    otherwise the definition under the bare key "name" is, if any; without
    a model in force only the bare key is read. What [store_feature] has
    just stored is what [get_feature] returns, and an entry under
    "common:name" plays no part for another model. *)
Theorem get_feature_namespace_then_bare (st : FeatureStore) (name : string)
    (model : option string) :
  (∀ m, py_or model (current_model st) = Some m → m ≠ ""%string →
     (∀ d, features st !! (m +:+ ":" +:+ name) = Some d →
           get_feature st name model = Some d) ∧
     (features st !! (m +:+ ":" +:+ name) = None →
      get_feature st name model = features st !! name) ∧
     (∀ d, m ≠ "common"%string →
           get_feature
             {| features := <["common" +:+ ":" +:+ name := d]> (features st);
                current_model := current_model st |} name model
           = get_feature st name model)) ∧
  (truthy (py_or model (current_model st)) = false →
   get_feature st name model = features st !! name) ∧
  (∀ d, get_feature (store_feature st name d model) name model = Some d).
Proof.
  split; [|split].
  - intros m Hm Hne.
    assert (truthy (Some m) = true) as Ht by (apply truthy_Some; eauto).
    unfold get_feature; simpl. rewrite Hm, key_of_truthy by done.
    split; [|split].
    + by intros d ->.
    + intros ->. by rewrite Ht.
    + intros d Hcommon. rewrite Ht.
      rewrite !lookup_insert_ne; [done | |].
      * intros Heq. apply (f_equal String.length) in Heq.
        rewrite !string_app_length in Heq. simpl in Heq. lia.
      * intros Heq. apply Hcommon. symmetry.
        apply (string_app_inj_r _ _ (":" +:+ name)). exact Heq.
  - intros Hf. unfold get_feature. rewrite key_of_falsy, Hf by done.
    by destruct (features st !! name).
  - intros d. unfold get_feature, store_feature; simpl.
    by rewrite lookup_insert_eq.
Qed.

Lemma get_feature_namespace_then_bare_witness :
  let shared := DefCallable ["in_quantity"%string] None in
  let own := DefCallable ["in_price"%string] None in
  let st := {| features := {[ "quantity_sum"%string := shared ]}; current_model := None |} in
  get_feature st "quantity_sum" (Some "product"%string) = Some shared ∧
  get_feature (store_feature st "quantity_sum" own (Some "product"%string))
    "quantity_sum" (Some "product"%string) = Some own.
Proof.
  intros shared own st.
  destruct (get_feature_namespace_then_bare st "quantity_sum" (Some "product"%string))
    as (Hscoped & _ & Hstored).
  split; [|apply Hstored].
  destruct (Hscoped "product"%string) as (_ & Hbare & _); [done | done |].
  rewrite Hbare; [|vm_compute; reflexivity].
  vm_compute. reflexivity.
Defined.

(** The claim of C4 read literally fails: a definition stored under
    "common:total" is not found from the model "sales". *)
Lemma get_feature_misses_common_key :
  let d := DefCallable ["x"%string] None in
  let st := {| features := {[ "common:total"%string := d ]}; current_model := None |} in
  features st !! "sales:total"%string = None ∧
  features st !! "common:total"%string = Some d ∧
  get_feature st "total" (Some "sales"%string) = None.
Proof. vm_compute. done. Qed.

End store.

(** ** FeatureCalculator *)

Section calculator.
Import Frame Calculator.

Lemma mapM_res_ok {A B : Type} (f : A → res B) (l : list A) (k : list B) :
  mapM f l = Ok k ↔ Forall2 (fun x y => f x = Ok y) l k.
Proof.
  revert k. induction l as [|x l IH]; intros k; simpl.
  - split; [intros [= <-]; constructor | by inversion 1].
  - split.
    + intros H. apply bind_ok_inv in H as (y & Hy & H).
      apply bind_ok_inv in H as (k' & Hk' & [= <-]).
      constructor; [done | by apply IH].
    + inversion 1 as [|? y ? k' Hy Hk']; subst.
      rewrite Hy. simpl. apply IH in Hk'. by rewrite Hk'.
Qed.

Lemma mapM_res_ext {A B : Type} (f g : A → res B) (l : list A) :
  (∀ x, x ∈ l → f x = g x) → mapM f l = mapM g l.
Proof.
  induction l as [|x l IH]; intros Hfg; simpl; [done|].
  rewrite (Hfg x) by left. rewrite IH; [done|].
  intros y Hy. apply Hfg. by right.
Qed.

Lemma mapM_res_total {A B : Type} (f : A → res B) (l : list A) :
  (∀ x, x ∈ l → is_ok (f x)) → is_ok (mapM f l).
Proof.
  induction l as [|x l IH]; intros Hf; simpl; [by eexists|].
  destruct (Hf x) as [y ->]; [left|]. simpl.
  destruct IH as [k ->]; [intros z Hz; apply Hf; by right|].
  by eexists.
Qed.











End calculator.

(** ** Tables *)

Section frame.
Import Frame.

Lemma assoc_is_Some {A : Type} (c : string) (l : list (string * A)) :
  is_Some (assoc c l) ↔ c ∈ l.*1.
Proof.
  induction l as [|[c' a] l IH]; simpl.
  - split; [by intros [? [=]] | by inversion 1].
  - rewrite elem_of_cons. case_bool_decide as Hc.
    + split; [by left | by eexists].
    + rewrite IH. split; [by right | by intros [?|?]].
Qed.

Lemma has_column_get (c : string) (df : DataFrame) :
  has_column c df = true ↔ is_Some (get_column c df).
Proof.
  unfold has_column, get_column. by rewrite bool_decide_eq_true, assoc_is_Some.
Qed.

Lemma has_column_false (c : string) (df : DataFrame) :
  has_column c df = false ↔ get_column c df = None.
Proof.
  rewrite <- not_true_iff_false, has_column_get, <- eq_None_not_Some. done.
Qed.

Lemma assoc_put_eq {A : Type} (c : string) (a : A) (l : list (string * A)) :
  assoc c (put c a l) = Some a.
Proof.
  induction l as [|[c' a'] l IH]; simpl.
  - by rewrite bool_decide_eq_true_2.
  - case_bool_decide as Hc; simpl.
    + by rewrite bool_decide_eq_true_2.
    + by rewrite bool_decide_eq_false_2.
Qed.

Lemma assoc_put_ne {A : Type} (c c0 : string) (a : A) (l : list (string * A)) :
  c ≠ c0 → assoc c0 (put c a l) = assoc c0 l.
Proof.
  intros Hne. induction l as [|[c' a'] l IH]; simpl.
  - by rewrite bool_decide_eq_false_2.
  - case_bool_decide as Hc; simpl.
    + subst c'. by rewrite !bool_decide_eq_false_2.
    + by rewrite IH.
Qed.

Lemma put_names_new {A : Type} (c : string) (a : A) (l : list (string * A)) :
  c ∉ l.*1 → (put c a l).*1 = l.*1 ++ [c].
Proof.
  induction l as [|[c' a'] l IH]; simpl; [done|].
  rewrite not_elem_of_cons. intros [Hne Hnin].
  rewrite bool_decide_eq_false_2 by done. rewrite !fmap_cons. f_equal. by apply IH.
Qed.

(** An assignment [df[c] = r] that succeeds: the column [c] then holds the
    value, one cell per row, and every other column is as before. *)
Lemma setitem_ok (c : string) (r : pyobj) (df df' : DataFrame) :
  setitem c r df = Ok df' →
  nrows df' = nrows df ∧
  (∃ vs, get_column c df' = Some vs ∧ length vs = nrows df ∧
         match r with
         | Scalar v => vs = replicate (nrows df) v
         | Array ws => vs = ws
         end) ∧
  (∀ c0, c0 ≠ c → get_column c0 df' = get_column c0 df) ∧
  (has_column c df = false → column_names df' = column_names df ++ [c]).
Proof.
  unfold setitem, get_column, has_column, column_names.
  destruct r as [v|ws].
  - intros [= <-]; simpl. split; [done|]. split; [|split].
    + eexists. rewrite assoc_put_eq. by rewrite length_replicate.
    + intros c0 Hne. by apply assoc_put_ne.
    + intros Hc. apply bool_decide_eq_false in Hc. by apply put_names_new.
  - case_bool_decide as Hlen; [|done]. intros [= <-]; simpl.
    split; [done|]. split; [|split].
    + eexists. by rewrite assoc_put_eq.
    + intros c0 Hne. by apply assoc_put_ne.
    + intros Hc. apply bool_decide_eq_false in Hc. by apply put_names_new.
Qed.

End frame.

(** ** Loops that may raise *)

Lemma for_each_raise_inv {A S : Type} (body : A → S → res S) (xs : list A)
    (s : S) (e : exn) :
  for_each body xs s = Raise e →
  ∃ pre x post t,
    xs = pre ++ x :: post ∧ for_each body pre s = Ok t ∧ body x t = Raise e.
Proof.
  revert s. induction xs as [|x xs IH]; intros s Hrun; simpl in Hrun; [done|].
  apply bind_raise_inv in Hrun as [Hx | (t & Hx & Hrest)].
  - by exists [], x, xs, s.
  - destruct (IH t Hrest) as (pre & y & post & u & -> & Hpre & Hy).
    exists (x :: pre), y, post, u. simpl. by rewrite Hx.
Qed.

Lemma for_each_raise_at {A S : Type} (body : A → S → res S) (pre post : list A)
    (x : A) (s t : S) (e : exn) :
  for_each body pre s = Ok t → body x t = Raise e →
  for_each body (pre ++ x :: post) s = Raise e.
Proof. intros Hpre Hx. rewrite for_each_app, Hpre. simpl. by rewrite Hx. Qed.

(** ** GroupByProcessor: the argument scan *)

Section scan.
Import Frame Calculator GroupBy.
Context (cfg : cfg_model) (st : group_state) (feature : string).

Lemma sources_exclusive (arg : string) :
  unresolved cfg st arg = true ↔
  from_scalar_map st arg = false ∧ from_external cfg st arg = false ∧
  from_row_table cfg st arg = false.
Proof.
  unfold unresolved, from_external, from_row_table.
  destruct (from_scalar_map st arg), (bool_decide (arg ∈ ext_cols_list cfg)),
    (has_column arg (data_in st)); simpl; intuition discriminate.
Qed.

Lemma resolve_arg_ok (arg : string) (acc scan : arg_scan) :
  resolve_arg cfg st feature arg acc = Ok scan →
  (∃ x, args_data scan = args_data acc ++ [x]) ∧
  in_flg scan = in_flg acc || from_row_table cfg st arg ∧
  out_flg scan = out_flg acc || (from_scalar_map st arg || from_external cfg st arg) ∧
  unresolved cfg st arg = false.
Proof.
  unfold resolve_arg, unresolved, from_row_table, from_external, from_scalar_map, getitem.
  destruct (agg_results st !! arg) as [v|] eqn:Hagg.
  - rewrite bool_decide_eq_true_2 by eauto. intros [= <-]; simpl.
    rewrite !orb_false_r, orb_true_r. eauto.
  - rewrite (bool_decide_eq_false_2 (is_Some None)) by apply is_Some_None. simpl.
    destruct (bool_decide (arg ∈ ext_cols_list cfg)); simpl.
    + destruct (get_column arg (data_in st)) as [col|]; simpl; [|done].
      destruct col as [|v col]; simpl; [done|]. intros [= <-]; simpl.
      rewrite !orb_false_r, orb_true_r. eauto.
    + destruct (get_column arg (data_in st)) as [col|] eqn:Hcol; [|done].
      assert (has_column arg (data_in st) = true) as ->
        by (apply has_column_get; eauto).
      intros [= <-]; simpl. rewrite orb_false_r, orb_true_r. eauto.
Qed.

Lemma resolve_arg_raise (arg : string) (acc : arg_scan) (e : exn) :
  resolve_arg cfg st feature arg acc = Raise e →
  (e = ArgumentNotFound feature arg false ∧ unresolved cfg st arg = true) ∨
  (external_unreadable cfg st arg = true ∧ (e = KeyError arg ∨ e = IndexError)).
Proof.
  unfold resolve_arg, unresolved, external_unreadable, from_external,
    from_scalar_map, getitem.
  destruct (agg_results st !! arg) as [v|] eqn:Hagg; [done|].
  rewrite (bool_decide_eq_false_2 (is_Some None)) by apply is_Some_None. simpl.
  destruct (bool_decide (arg ∈ ext_cols_list cfg)); simpl.
  - destruct (get_column arg (data_in st)) as [col|]; simpl.
    + destruct col; simpl; [intros [= <-]; auto | done].
    + intros [= <-]; auto.
  - destruct (get_column arg (data_in st)) as [col|] eqn:Hcol; [done|].
    apply has_column_false in Hcol. rewrite Hcol. intros [= <-]; auto.
Qed.

Lemma resolve_arg_unresolved (arg : string) (acc : arg_scan) :
  unresolved cfg st arg = true →
  resolve_arg cfg st feature arg acc = Raise (ArgumentNotFound feature arg false).
Proof.
  unfold resolve_arg, unresolved, from_scalar_map.
  rewrite !andb_true_iff, !negb_true_iff, !bool_decide_eq_false.
  intros [[Hagg Hext] Hcol]. apply has_column_false in Hcol.
  destruct (agg_results st !! arg) eqn:Hl; [destruct Hagg; eauto|].
  rewrite bool_decide_eq_false_2 by done. by rewrite Hcol.
Qed.

(** A scan that ends has read one value per argument, and its flags say
    where the arguments were found. *)
Lemma scan_ok (args : list string) (acc scan : arg_scan) :
  for_each (resolve_arg cfg st feature) args acc = Ok scan →
  length (args_data scan) = length (args_data acc) + length args ∧
  in_flg scan = in_flg acc || existsb (from_row_table cfg st) args ∧
  out_flg scan
  = out_flg acc
    || existsb (fun arg => from_scalar_map st arg || from_external cfg st arg) args ∧
  existsb (unresolved cfg st) args = false.
Proof.
  revert acc. induction args as [|arg args IH]; intros acc Hrun; simpl in Hrun.
  - injection Hrun as <-. simpl. rewrite !orb_false_r. auto with lia.
  - apply bind_ok_inv in Hrun as (acc' & Harg & Hrest).
    apply resolve_arg_ok in Harg as ([x Hx] & Hin & Hout & Hun).
    apply IH in Hrest as (Hlen & Hin' & Hout' & Hun').
    simpl. rewrite Hlen, Hin', Hout', Hin, Hout, Hx, Hun, Hun', length_app.
    simpl. rewrite !orb_assoc. auto with lia.
Qed.

(** The scan of a list that holds an unresolved argument raises. *)
Lemma scan_unresolved_raises (args : list string) (arg : string) (acc : arg_scan) :
  arg ∈ args → unresolved cfg st arg = true →
  ∃ e, for_each (resolve_arg cfg st feature) args acc = Raise e.
Proof.
  intros Hin Hun. destruct (for_each _ args acc) as [scan|e] eqn:Hrun; [|eauto].
  apply scan_ok in Hrun as (_ & _ & _ & Hnone).
  assert (existsb (unresolved cfg st) args = true) as Hsome.
  { apply existsb_exists. exists arg. by rewrite <- list_elem_of_In. }
  congruence.
Qed.

(** When the scan raises the unresolved-argument error, it names an
    argument of the list that is in none of the three sources. *)
Lemma scan_raise_unresolved (args : list string) (acc : arg_scan)
    (f a : string) (enr : bool) :
  for_each (resolve_arg cfg st feature) args acc = Raise (ArgumentNotFound f a enr) →
  f = feature ∧ enr = false ∧ a ∈ args ∧ unresolved cfg st a = true.
Proof.
  intros Hrun. apply for_each_raise_inv in Hrun as (pre & x & post & t & -> & _ & Hx).
  apply resolve_arg_raise in Hx as [[[= -> -> ->] Hun] | [_ [[=] | [=]]]].
  repeat split; [|done]. apply elem_of_app. right. left.
Qed.

End scan.

(** ** GroupByProcessor: one step of the single loop *)

Section step.
Import Frame Calculator GroupBy.


Lemma run_as_filter_ok (feature : string) (func : callable) (scan : arg_scan)
    (st st' : group_state) :
  run_as_filter feature func scan st = Ok st' →
  ∃ r, calculate_filter feature func (args_data scan) = Ok r ∧
       setitem feature r (data_in st) = Ok (data_in st') ∧
       agg_results st' = agg_results st ∧
       filters_calculated st' = filters_calculated st ++ [feature] ∧
       log st' = log st ++ [RoutedFilter feature (out_flg scan)].
Proof.
  unfold run_as_filter. intros H.
  apply bind_ok_inv in H as (r & Hr & H).
  apply bind_ok_inv in H as (df & Hdf & [= <-]). by exists r.
Qed.

Lemma run_as_attribute_ok (feature : string) (func : callable)
    (groupby_flg : bool) (scan : arg_scan) (st st' : group_state) :
  run_as_attribute feature func groupby_flg scan st = Ok st' →
  ∃ r, calculate_attribute feature func (args_data scan) = Ok r ∧
       agg_results st' = <[feature := r]> (agg_results st) ∧
       data_in st' = data_in st ∧
       filters_calculated st' = filters_calculated st ∧
       log st' = log st ++ [RoutedAttribute feature groupby_flg].
Proof.
  unfold run_as_attribute. intros H.
  apply bind_ok_inv in H as (r & Hr & [= <-]). by exists r.
Qed.



End step.

(** ** Where an exception comes from *)

Section origins.
Import Frame Calculator GroupBy.

Lemma mapM_res_raise_inv {A B : Type} (f : A → res B) (l : list A) (e : exn) :
  mapM f l = Raise e → ∃ x, x ∈ l ∧ f x = Raise e.
Proof.
  induction l as [|x l IH]; simpl; [done|]. intros H.
  apply bind_raise_inv in H as [Hx | (y & Hy & H)].
  - exists x. split; [left | done].
  - apply bind_raise_inv in H as [Hl | (k & _ & [=])].
    destruct (IH Hl) as (z & Hz & Hfz). exists z. split; [by right | done].
Qed.

Lemma mapM_res_raise_in {A B : Type} (f : A → res B) (l : list A) (x : A) (e : exn) :
  x ∈ l → f x = Raise e → ∃ e', mapM f l = Raise e'.
Proof.
  intros Hx Hfx. destruct (mapM f l) as [k|e'] eqn:Hm; [|eauto].
  apply mapM_res_ok in Hm.
  apply list_elem_of_lookup in Hx as [i Hi].
  destruct (Forall2_lookup_l _ _ _ _ _ Hm Hi) as (y & _ & Hy). congruence.
Qed.

Lemma invoke_raise (func : callable) (args : list pyobj) (e : exn) :
  invoke func args = Raise e → from_calculation e.
Proof. unfold invoke. destruct (func args); [done | by intros [= <-]]. Qed.

Lemma convert_raise (first r : pyobj) (e : exn) :
  convert first r = Raise e → from_calculation e.
Proof.
  unfold convert, astype, astype_cell.
  destruct first as [v0|]; [|by intros [= <-]].
  destruct (dtype_of v0), r as [[| |n|t|b]|vs]; simpl;
    repeat case_bool_decide; repeat case_match; try done; by intros [= <-].
Qed.

Lemma broadcast_shape_raise (args : list pyobj) (e : exn) :
  broadcast_shape args = Raise e → from_calculation e.
Proof.
  unfold broadcast_shape. intros H.
  apply for_each_raise_inv in H as (_ & a & _ & s & _ & _ & H).
  unfold broadcast2 in H. destruct s as [n|], (shape_of a) as [m|]; try done.
  repeat case_bool_decide; try done. by injection H as <-.
Qed.

Lemma calculate_filter_raise (feature_name : string) (func : callable)
    (args_data : list pyobj) (e : exn) :
  calculate_filter feature_name func args_data = Raise e → from_calculation e.
Proof.
  unfold calculate_filter. intros H.
  apply bind_raise_inv in H as [H | (r & _ & H)].
  2:{ destruct r, args_data; try done; by injection H as <-. }
  unfold np_vectorize in H. destruct args_data as [|a args].
  { by eapply invoke_raise. }
  revert H. destruct (existsb _ _); [by intros [= <-]|]. intros H.
  apply bind_raise_inv in H as [H | (first & _ & H)]; [by eapply invoke_raise|].
  apply bind_raise_inv in H as [H | (shape & _ & H)]; [by eapply broadcast_shape_raise|].
  destruct shape as [n|].
  - apply bind_raise_inv in H as [H | (outputs & _ & H)].
    { apply mapM_res_raise_inv in H as (i & _ & H). by eapply invoke_raise. }
    apply bind_raise_inv in H as [H | (_ & _ & [=])].
    apply mapM_res_raise_inv in H as (r & _ & H). by eapply convert_raise.
  - apply bind_raise_inv in H as [H | (output & _ & H)]; [by eapply invoke_raise|].
    apply bind_raise_inv in H as [H | (_ & _ & [=])]. by eapply convert_raise.
Qed.

Lemma setitem_raise (c : string) (r : pyobj) (df : DataFrame) (e : exn) :
  setitem c r df = Raise e → from_calculation e.
Proof.
  unfold setitem. destruct r; [done|]. case_bool_decide; [done|]. by intros [= <-].
Qed.

Lemma run_as_filter_raise (feature : string) (func : callable) (scan : arg_scan)
    (st : group_state) (e : exn) :
  run_as_filter feature func scan st = Raise e → from_calculation e.
Proof.
  unfold run_as_filter. intros H.
  apply bind_raise_inv in H as [H | (r & _ & H)]; [by eapply calculate_filter_raise|].
  apply bind_raise_inv in H as [H | (df & _ & [=])]. by eapply setitem_raise.
Qed.

Lemma run_as_attribute_raise (feature : string) (func : callable) (flg : bool)
    (scan : arg_scan) (st : group_state) (e : exn) :
  run_as_attribute feature func flg scan st = Raise e → from_calculation e.
Proof.
  unfold run_as_attribute, calculate_attribute. intros H.
  apply bind_raise_inv in H as [H | (r & _ & [=])]. by eapply invoke_raise.
Qed.

(** The unresolved-argument error of a step comes from its scan. *)
Lemma process_feature_raise_unresolved (cfg : cfg_model) (st : group_state)
    (feature f a : string) (enr : bool) :
  process_feature cfg feature st = Raise (ArgumentNotFound f a enr) →
  f = feature ∧ enr = false ∧
  has_column feature (data_in st) = false ∧
  is_Some (feature_funcs cfg !! feature) ∧
  is_Some (feature_groupby_flg cfg !! feature) ∧
  ∃ args, feature_args cfg !! feature = Some args ∧
          a ∈ args ∧ unresolved cfg st a = true.
Proof.
  unfold process_feature, lookup_cfg.
  destruct (has_column feature (data_in st)) eqn:Hcol; [done|].
  destruct (feature_funcs cfg !! feature) as [func|]; [|done].
  destruct (feature_args cfg !! feature) as [args|]; [|done].
  destruct (feature_groupby_flg cfg !! feature) as [flg|]; [|done]. simpl.
  destruct (for_each (resolve_arg cfg st feature) args scan_start) as [scan|e] eqn:Hscan;
    simpl.
  - destruct (negb _); [done|].
    destruct (in_flg scan && negb flg); intros H.
    + by apply run_as_filter_raise in H.
    + by apply run_as_attribute_raise in H.
  - intros [= ->]. apply scan_raise_unresolved in Hscan as (-> & -> & Hin & Hun).
    repeat split; eauto.
Qed.

End origins.

(** ** GroupByProcessor: with and without groups *)

Section grouped.
Import Frame Calculator GroupBy.

(** With a group, the grouped case is [_process_grouped]. *)
Lemma process_all_groups_some (cfg : cfg_model) (data_in : DataFrame)
    (groups : list (group_value * DataFrame)) :
  no_grouping (group_by cfg) = false → groups ≠ [] →
  process_all_groups cfg data_in groups = _process_grouped cfg groups.
Proof.
  intros Hg Hne. unfold process_all_groups. rewrite Hg. by destruct groups.
Qed.

(** Whatever [process_all_groups] returns in the grouped case is what
    [_process_grouped] returns: without groups, the two empty tables. *)
Lemma process_all_groups_grouped (cfg : cfg_model) (data_in : DataFrame)
    (groups : list (group_value * DataFrame)) (out : execution_output) :
  no_grouping (group_by cfg) = false →
  process_all_groups cfg data_in groups = Ok out →
  _process_grouped cfg groups = Ok out.
Proof.
  intros Hg. unfold process_all_groups. rewrite Hg.
  destruct groups as [|g groups]; [|done].
  destruct (forallb _ _); [|done]. intros [= <-].
  unfold _process_grouped. simpl. by rewrite elements_empty.
Qed.

End grouped.

(** ** GroupByProcessor: unresolved arguments *)

Section unresolved_arguments.
Import Frame Calculator GroupBy.

Lemma executes_step_raises (cfg : cfg_model) (group_df : DataFrame)
    (feature : string) (st : group_state) (args : list string) (e : exn) :
  executes cfg group_df feature st args →
  process_feature cfg feature st = Raise e →
  process_group cfg group_df = Raise e.
Proof.
  intros ((pre & post & Hseq & Hpre) & _) Hstep.
  unfold process_group. rewrite Hseq. by eapply for_each_raise_at.
Qed.

Lemma executes_unresolved_step (cfg : cfg_model) (group_df : DataFrame)
    (feature : string) (st : group_state) (args : list string) (a : string) :
  executes cfg group_df feature st args →
  a ∈ args → unresolved cfg st a = true →
  ∃ e, process_feature cfg feature st = Raise e ∧
       ((∃ a', a' ∈ args ∧ unresolved cfg st a' = true ∧
               e = ArgumentNotFound feature a' false) ∨
        (∃ a', a' ∈ args ∧ external_unreadable cfg st a' = true ∧
               (e = KeyError a' ∨ e = IndexError))).
Proof.
  intros (_ & Hcol & [func Hfunc] & Hargs & [flg Hflg]) Hin Hun.
  destruct (scan_unresolved_raises cfg st feature args a scan_start Hin Hun) as [e Hscan].
  exists e. split.
  - unfold process_feature, lookup_cfg. rewrite Hcol, Hfunc, Hargs, Hflg. simpl.
    by rewrite Hscan.
  - apply for_each_raise_inv in Hscan as (pre & x & post & t & -> & _ & Hx).
    assert (x ∈ pre ++ x :: post) as Hxin by (apply elem_of_app; right; left).
    apply resolve_arg_raise in Hx as [[-> Hux] | [Hext He]]; [left | right]; eauto.
Qed.

(** C5. (1) When [process_group] raises the unresolved-argument error for
    a feature and an argument, the loop had reached that feature, was
    executing it, and the argument named is one of its arguments found in
    none of the three sources (scalar map, external columns, row table) at
    that point. (2) Conversely, when an executed feature has an argument
    found in none of the three sources, [process_group] raises: it returns
    no state; the exception is the unresolved-argument error for that
    feature, unless reading an argument listed as external failed first
    (missing column or no row). (3) If no argument of the feature is such
    an unreadable external, the exception is the unresolved-argument
    error. (4) Hence, when every argument of every executed feature is
    found in one of the three sources, no unresolved-argument error is
    raised. (5) In grouped execution, a group whose [process_group] raises
    makes [process_all_groups] raise: no output is produced. *)
Theorem process_group_unresolved_argument (cfg : cfg_model) (group_df : DataFrame) :
  (∀ f a enr,
     process_group cfg group_df = Raise (ArgumentNotFound f a enr) →
     enr = false ∧
     ∃ st args, executes cfg group_df f st args ∧
                a ∈ args ∧ unresolved cfg st a = true) ∧
  (∀ f st args a,
     executes cfg group_df f st args → a ∈ args → unresolved cfg st a = true →
     ∃ e, process_group cfg group_df = Raise e ∧
          ((∃ a', a' ∈ args ∧ unresolved cfg st a' = true ∧
                  e = ArgumentNotFound f a' false) ∨
           (∃ a', a' ∈ args ∧ external_unreadable cfg st a' = true ∧
                  (e = KeyError a' ∨ e = IndexError)))) ∧
  (∀ f st args a,
     executes cfg group_df f st args → a ∈ args → unresolved cfg st a = true →
     existsb (external_unreadable cfg st) args = false →
     ∃ a', a' ∈ args ∧ unresolved cfg st a' = true ∧
           process_group cfg group_df = Raise (ArgumentNotFound f a' false)) ∧
  ((∀ f st args, executes cfg group_df f st args →
                 existsb (unresolved cfg st) args = false) →
   ∀ f a enr, process_group cfg group_df ≠ Raise (ArgumentNotFound f a enr)) ∧
  (∀ e data_in groups gv,
     no_grouping (group_by cfg) = false →
     (gv, group_df) ∈ groups →
     process_group cfg group_df = Raise e →
     ∃ e', process_all_groups cfg data_in groups = Raise e').
Proof.
  assert (∀ f a enr,
     process_group cfg group_df = Raise (ArgumentNotFound f a enr) →
     enr = false ∧
     ∃ st args, executes cfg group_df f st args ∧
                a ∈ args ∧ unresolved cfg st a = true) as Honly.
  { intros f a enr Hrun. unfold process_group in Hrun.
    apply for_each_raise_inv in Hrun as (pre & x & post & st & Hseq & Hpre & Hx).
    apply process_feature_raise_unresolved in Hx
      as (-> & -> & Hcol & Hfunc & Hflg & args & Hargs & Hin & Hun).
    split; [done|]. exists st, args. repeat split; eauto. by exists pre, post. }
  assert (∀ f st args a,
     executes cfg group_df f st args → a ∈ args → unresolved cfg st a = true →
     ∃ e, process_group cfg group_df = Raise e ∧
          ((∃ a', a' ∈ args ∧ unresolved cfg st a' = true ∧
                  e = ArgumentNotFound f a' false) ∨
           (∃ a', a' ∈ args ∧ external_unreadable cfg st a' = true ∧
                  (e = KeyError a' ∨ e = IndexError)))) as Hif.
  { intros f st args a Hex Hin Hun.
    destruct (executes_unresolved_step _ _ _ _ _ _ Hex Hin Hun) as (e & Hstep & He).
    exists e. split; [by eapply executes_step_raises | done]. }
  split; [done|]. split; [done|]. split; [|split].
  - intros f st args a Hex Hin Hun Hread.
    destruct (Hif f st args a Hex Hin Hun) as (e & Hrun & [He | He]).
    + destruct He as (a' & Ha' & Hun' & ->). eauto.
    + destruct He as (a' & Ha' & Hbad & _).
      assert (existsb (external_unreadable cfg st) args = true) as Hsome.
      { apply existsb_exists. exists a'. by rewrite <- list_elem_of_In. }
      congruence.
  - intros Hall f a enr Hrun.
    apply Honly in Hrun as (_ & st & args & Hex & Hin & Hun).
    specialize (Hall f st args Hex).
    assert (existsb (unresolved cfg st) args = true) as Hsome.
    { apply existsb_exists. exists a. by rewrite <- list_elem_of_In. }
    congruence.
  - intros e data_in groups gv Hgrouped Hin Hrun.
    rewrite process_all_groups_some by (done || by intros ->; inversion Hin).
    unfold _process_grouped.
    destruct (mapM_res_raise_in
                (fun g => result ← process_group cfg g.2; Ok (g.1, result))
                groups (gv, group_df) e Hin) as [e' ->].
    + simpl. by rewrite Hrun.
    + by exists e'.
Qed.

(** "margin" reads "price", a column, and "cost", found nowhere: the group
    is aborted with the unresolved-argument error for "cost". *)
Lemma process_group_unresolved_argument_witness :
  (∃ a, process_group Examples.cfg_margin Examples.prices
        = Raise (ArgumentNotFound "margin" a false)) ∧
  ∃ st args,
    executes Examples.cfg_margin Examples.prices "margin" st args ∧
    "cost"%string ∈ args ∧ unresolved Examples.cfg_margin st "cost" = true.
Proof.
  destruct (process_group_unresolved_argument Examples.cfg_margin Examples.prices)
    as (Honly & _ & Hif & _).
  assert (executes Examples.cfg_margin Examples.prices "margin"
            (group_start Examples.prices) ["price"; "cost"]%string) as Hex.
  { split; [by exists [], []|].
    split; [reflexivity|].
    split; [eexists; vm_compute; reflexivity|].
    split; [vm_compute; reflexivity|].
    eexists; vm_compute; reflexivity. }
  split.
  - destruct (Hif "margin"%string (group_start Examples.prices)
                ["price"; "cost"]%string "cost"%string)
      as (a' & _ & _ & Hraise).
    + exact Hex.
    + apply list_elem_of_further, list_elem_of_here.
    + reflexivity.
    + reflexivity.
    + by exists a'.
  - refine (proj2 (Honly "margin"%string "cost"%string false _)).
    vm_compute. reflexivity.
Defined.

End unresolved_arguments.


(** ** GroupByProcessor: enrichment mode *)

Section enrichment.
Import Frame Calculator GroupBy.

Lemma take_columns_ok (feature : string) (df : DataFrame) (args : list string)
    (acc out : list pyobj) :
  for_each (take_column feature df) args acc = Ok out →
  ∃ cols, out = acc ++ (Array <$> cols) ∧
          Forall2 (fun arg col => get_column arg df = Some col) args cols.
Proof.
  revert acc. induction args as [|arg args IH]; intros acc Hrun; simpl in Hrun.
  - injection Hrun as <-. exists []. by rewrite app_nil_r.
  - apply bind_ok_inv in Hrun as (acc' & Harg & Hrest). unfold take_column in Harg.
    destruct (get_column arg df) as [col|] eqn:Hcol; [|done]. injection Harg as <-.
    destruct (IH _ Hrest) as (cols & -> & Hcols).
    exists (col :: cols). rewrite <- app_assoc. split; [done | by constructor].
Qed.

(** What one turn of the enrichment loop does, when it does not raise. *)
Lemma enrich_feature_ok (cfg : cfg_model) (feature : string) (st st' : group_state) :
  enrich_feature cfg feature st = Ok st' →
  (has_column feature (data_in st) = true ∧
   st' = add_log (SkippingPresent feature) st) ∨
  (has_column feature (data_in st) = false ∧
   feature_groupby_flg cfg !! feature = Some true ∧
   st' = add_log (SkippingAttribute feature) st) ∨
  (has_column feature (data_in st) = false ∧
   feature_groupby_flg cfg !! feature = Some false ∧
   ∃ func args cols r,
     feature_funcs cfg !! feature = Some func ∧
     feature_args cfg !! feature = Some args ∧
     Forall2 (fun arg col => get_column arg (data_in st) = Some col) args cols ∧
     calculate_filter feature func (Array <$> cols) = Ok r ∧
     setitem feature r (data_in st) = Ok (data_in st') ∧
     agg_results st' = agg_results st ∧
     filters_calculated st' = filters_calculated st ++ [feature] ∧
     log st' = log st ++ [RoutedFilter feature false]).
Proof.
  unfold enrich_feature, lookup_cfg. intros Hstep.
  destruct (has_column feature (data_in st)) eqn:Hcol.
  { injection Hstep as <-. by left. }
  right.
  destruct (feature_funcs cfg !! feature) as [func|]; [|done].
  destruct (feature_args cfg !! feature) as [args|]; [|done].
  destruct (feature_groupby_flg cfg !! feature) as [[|]|]; [| |done]; simpl in Hstep.
  { injection Hstep as <-. by left. }
  right. apply bind_ok_inv in Hstep as (args_data & Hargs & Hstep).
  apply take_columns_ok in Hargs as (cols & -> & Hcols). simpl in Hstep.
  rewrite length_fmap, <- (Forall2_length _ _ _ Hcols) in Hstep.
  rewrite bool_decide_eq_true_2 in Hstep by done. simpl in Hstep.
  apply bind_ok_inv in Hstep as (r & Hr & Hstep).
  apply bind_ok_inv in Hstep as (df & Hdf & [= <-]).
  split; [done|]. split; [done|]. by exists func, args, cols, r.
Qed.

(** Along the enrichment loop: the columns found stay as they are, the
    number of rows and the (empty) scalar map do not change, a new column
    is a feature of the part of the list gone through whose flag is false,
    and the log and the list of filters only grow. *)
Lemma enrich_features_frame (cfg : cfg_model) (features : list string)
    (st st' : group_state) :
  for_each (enrich_feature cfg) features st = Ok st' →
  (∀ c, has_column c (data_in st) = true →
        get_column c (data_in st') = get_column c (data_in st)) ∧
  nrows (data_in st') = nrows (data_in st) ∧
  agg_results st' = agg_results st ∧
  (∀ c, has_column c (data_in st') = true →
        has_column c (data_in st) = true ∨
        (c ∈ features ∧ feature_groupby_flg cfg !! c = Some false)) ∧
  (∃ l, log st' = log st ++ l) ∧
  (∃ l, filters_calculated st' = filters_calculated st ++ l).
Proof.
  revert st. induction features as [|f features IH]; intros st Hrun; simpl in Hrun.
  { injection Hrun as <-. repeat split; auto; exists []; by rewrite app_nil_r. }
  apply bind_ok_inv in Hrun as (st1 & Hstep & Hrest).
  destruct (IH _ Hrest) as (Hkeep & Hrows & Hagg & Hnew & [l Hlog] & [k Hfil]).
  apply enrich_feature_ok in Hstep
    as [[Hcol ->] | [(Hcol & Hflg & ->) | (Hcol & Hflg & func & args & cols & r & _ & _
                                           & _ & _ & Hset & Hagg1 & Hfil1 & Hlog1)]].
  - simpl in *. repeat split; auto.
    + intros c Hc. destruct (Hnew c Hc) as [?|[? ?]]; [by left|]. right. split; [by right | done].
    + exists (SkippingPresent f :: l). by rewrite Hlog, <- app_assoc.
    + by exists k.
  - simpl in *. repeat split; auto.
    + intros c Hc. destruct (Hnew c Hc) as [?|[? ?]]; [by left|]. right. split; [by right | done].
    + exists (SkippingAttribute f :: l). by rewrite Hlog, <- app_assoc.
    + by exists k.
  - apply setitem_ok in Hset as (Hrows1 & (vs & Hvs & _) & Hother & _).
    repeat split.
    + intros c Hc. assert (c ≠ f) as Hne by (intros ->; congruence).
      rewrite Hkeep, Hother; [done | done |].
      apply has_column_get. rewrite Hother by done. by apply has_column_get.
    + congruence.
    + congruence.
    + intros c Hc. destruct (Hnew c Hc) as [Hc1|[? ?]].
      * destruct (decide (c = f)) as [->|Hne].
        -- right. split; [by left | done].
        -- left. apply has_column_get. rewrite <- Hother by done. by apply has_column_get.
      * right. split; [by right | done].
    + exists (RoutedFilter f false :: l). by rewrite Hlog, Hlog1, <- app_assoc.
    + exists (f :: k). by rewrite Hfil, Hfil1, <- app_assoc.
Qed.

Lemma first_occurrence (x : string) (l : list string) :
  x ∈ l → ∃ pre post, l = pre ++ x :: post ∧ x ∉ pre.
Proof.
  induction l as [|y l IH]; [by inversion 1|].
  destruct (decide (x = y)) as [->|Hne].
  - intros _. exists [], l. split; [done | by inversion 1].
  - intros Hin. apply elem_of_cons in Hin as [?|Hin]; [done|].
    destruct (IH Hin) as (pre & post & -> & Hpre).
    exists (y :: pre), post. split; [done|].
    by apply not_elem_of_cons.
Qed.

Lemma for_each_app_ok {A S : Type} (body : A → S → res S) (xs ys : list A) (s s' : S) :
  for_each body (xs ++ ys) s = Ok s' →
  ∃ t, for_each body xs s = Ok t ∧ for_each body ys t = Ok s'.
Proof. rewrite for_each_app. apply bind_ok_inv. Qed.

(** The first time the loop comes to a feature that is not a column of the
    data, it is not a column of the working table either. *)
Lemma enrich_first_visit (cfg : cfg_model) (df : DataFrame) (f : string)
    (final : group_state) :
  for_each (enrich_feature cfg) (exec_seq cfg) (group_start df) = Ok final →
  f ∈ exec_seq cfg → has_column f df = false →
  ∃ pre post st st1,
    exec_seq cfg = pre ++ f :: post ∧
    for_each (enrich_feature cfg) pre (group_start df) = Ok st ∧
    has_column f (data_in st) = false ∧
    nrows (data_in st) = nrows df ∧
    enrich_feature cfg f st = Ok st1 ∧
    for_each (enrich_feature cfg) post st1 = Ok final.
Proof.
  intros Hrun Hin Hcol.
  destruct (first_occurrence f _ Hin) as (pre & post & Hseq & Hpre).
  rewrite Hseq in Hrun. apply for_each_app_ok in Hrun as (st & Hrun1 & Hrun2).
  simpl in Hrun2. apply bind_ok_inv in Hrun2 as (st1 & Hstep & Hrest).
  exists pre, post, st, st1.
  destruct (enrich_features_frame _ _ _ _ Hrun1) as (_ & Hrows & _ & Hnew & _).
  repeat split; try done.
  destruct (has_column f (data_in st)) eqn:Hc; [|done].
  destruct (Hnew f Hc) as [Hc0 | [Hc0 _]]; simpl in *; congruence.
Qed.

(** C6, as the code has it. When [_process_no_grouping] returns: the
    attributes table is empty; the filters table has the rows and the
    columns of the data, unchanged; every feature of [exec_seq] that is not
    a column of the data and whose aggregation flag is true is skipped with
    a warning and is no column of the filters table; every feature of
    [exec_seq] that is not a column of the data and whose flag is false is
    computed by [calculate_filter] from columns of the working table, which
    has all the rows of the data, and the column it gives is in the filters
    table under the feature's name. Without group-by,
    [process_all_groups] is [_process_no_grouping]. *)
Theorem enrichment_mode (cfg : cfg_model) (df : DataFrame) (out : execution_output) :
  _process_no_grouping cfg df = Ok out →
  attrs_df out = [] ∧
  nrows (filters_df out) = nrows df ∧
  (∀ c, has_column c df = true →
        get_column c (filters_df out) = get_column c df) ∧
  (∀ f, f ∈ exec_seq cfg → has_column f df = false →
        feature_groupby_flg cfg !! f = Some true →
        has_column f (filters_df out) = false ∧
        SkippingAttribute f ∈ out_log out) ∧
  (∀ f, f ∈ exec_seq cfg → has_column f df = false →
        feature_groupby_flg cfg !! f = Some false →
        f ∈ exec_fltrs out ∧ RoutedFilter f false ∈ out_log out ∧
        ∃ st func args cols r df',
          enrich_reaches cfg df f st ∧
          nrows (data_in st) = nrows df ∧
          feature_funcs cfg !! f = Some func ∧
          feature_args cfg !! f = Some args ∧
          Forall2 (fun arg col => get_column arg (data_in st) = Some col) args cols ∧
          calculate_filter f func (Array <$> cols) = Ok r ∧
          setitem f r (data_in st) = Ok df' ∧
          get_column f (filters_df out) = get_column f df' ∧
          is_Some (get_column f df')) ∧
  (∀ groups, no_grouping (group_by cfg) = true →
             process_all_groups cfg df groups = _process_no_grouping cfg df).
Proof.
  unfold _process_no_grouping. intros Hrun.
  apply bind_ok_inv in Hrun as (final & Hrun & [= <-]). simpl.
  destruct (enrich_features_frame _ _ _ _ Hrun) as (Hkeep & Hrows & _ & _).
  split; [done|]. split; [done|]. split; [done|]. split; [|split].
  - intros f Hin Hcol Hflg.
    destruct (enrich_first_visit _ _ _ _ Hrun Hin Hcol)
      as (pre & post & st & st1 & Hseq & Hpre & Hc & _ & Hstep & Hrest).
    destruct (enrich_features_frame _ _ _ _ Hrest) as (_ & _ & _ & Hnew & [l Hlog] & _).
    apply enrich_feature_ok in Hstep
      as [[? _] | [(_ & _ & ->) | (_ & Hflg' & _)]]; [congruence | | congruence].
    simpl in *. split.
    + destruct (has_column f (data_in final)) eqn:Hfin; [|done].
      destruct (Hnew f Hfin) as [? | [_ ?]]; congruence.
    + rewrite Hlog. apply elem_of_app. left. apply elem_of_app. right. left.
  - intros f Hin Hcol Hflg.
    destruct (enrich_first_visit _ _ _ _ Hrun Hin Hcol)
      as (pre & post & st & st1 & Hseq & Hpre & Hc & Hrows1 & Hstep & Hrest).
    destruct (enrich_features_frame _ _ _ _ Hrest)
      as (Hkeep1 & _ & _ & _ & [l Hlog] & [k Hfil]).
    apply enrich_feature_ok in Hstep
      as [[? _] | [(_ & Hflg' & _) | (_ & _ & func & args & cols & r & Hfunc & Hargs
                                       & Hcols & Hr & Hset & _ & Hfil1 & Hlog1)]];
      [congruence | congruence |].
    pose proof (setitem_ok _ _ _ _ Hset) as (_ & (vs & Hvs & _) & _).
    split; [|split].
    + rewrite Hfil, Hfil1. apply elem_of_app. left. apply elem_of_app. right. left.
    + rewrite Hlog, Hlog1. apply elem_of_app. left. apply elem_of_app. right. left.
    + exists st, func, args, cols, r, (data_in st1).
      repeat split; try done; eauto.
      * by exists pre, post.
      * apply Hkeep1, has_column_get. eauto.
  - intros groups Hno. unfold process_all_groups. by rewrite Hno.
Qed.

(** The round trip scenario without group-by: the aggregation [qty_sum] is
    left out with a warning, [total] is computed for every row, and there
    is no attribute. *)
Lemma enrichment_mode_witness :
  ∃ out,
    _process_no_grouping Examples.cfg_total Examples.orders = Ok out ∧
    attrs_df out = [] ∧
    has_column "qty_sum" (filters_df out) = false ∧
    SkippingAttribute "qty_sum" ∈ out_log out ∧
    get_column "total" (filters_df out) = Some [VInt 20; VInt 60].
Proof.
  destruct (_process_no_grouping Examples.cfg_total Examples.orders)
    as [out|e] eqn:Hrun; [|vm_compute in Hrun; discriminate].
  destruct (enrichment_mode Examples.cfg_total Examples.orders out Hrun)
    as (Hattrs & _ & _ & Hagg & _).
  destruct (Hagg "qty_sum"%string) as (Hcol & Hwarn).
  - apply list_elem_of_here.
  - reflexivity.
  - vm_compute. reflexivity.
  - exists out. split; [reflexivity|]. split; [exact Hattrs|].
    split; [exact Hcol|]. split; [exact Hwarn|].
    vm_compute in Hrun. injection Hrun as <-. reflexivity.
Defined.

(** The claim of C6 read literally fails: an aggregation that is already a
    column of the data is in the output, and no warning is logged for
    it. *)
Lemma enrichment_keeps_present_aggregation :
  feature_groupby_flg Examples.cfg_present !! "weighted"%string = Some true ∧
  _process_no_grouping Examples.cfg_present Examples.prices_weighted
  = Ok {| filters_df := Examples.prices_weighted;
          attrs_df := [];
          exec_fltrs := [];
          out_log := [SkippingPresent "weighted"] |} ∧
  has_column "weighted" Examples.prices_weighted = true.
Proof. vm_compute. done. Qed.

End enrichment.

(** ** GroupByProcessor: what a group contributes to the filters table *)

Section contribution.
Import Frame Calculator GroupBy.
Import Resolver(group_by_arg, GbNone, GbStr, GbList).

Lemma elem_of_put_ne {A : Type} (c c0 : string) (a a0 : A) (l : list (string * A)) :
  c ≠ c0 → (c, a) ∈ put c0 a0 l ↔ (c, a) ∈ l.
Proof.
  intros Hne. induction l as [|[c' a'] l IH]; simpl.
  - rewrite list_elem_of_singleton. split; [by intros [= ? ?] | by inversion 1].
  - case_bool_decide as Hc; rewrite !elem_of_cons.
    + subst c'. split; (intros [[= ? ?] | ?]; [done | by right]).
    + by rewrite IH.
Qed.

Lemma setitem_other_columns (c0 : string) (r : pyobj) (df df' : DataFrame) :
  setitem c0 r df = Ok df' →
  nrows df' = nrows df ∧
  ∀ c vs, c ≠ c0 → (c, vs) ∈ columns df' ↔ (c, vs) ∈ columns df.
Proof.
  unfold setitem. destruct r as [v|ws].
  - intros [= <-]; simpl. split; [done|]. intros c vs Hne. by apply elem_of_put_ne.
  - case_bool_decide; [|done]. intros [= <-]; simpl. split; [done|].
    intros c vs Hne. by apply elem_of_put_ne.
Qed.

(** Adding the group-by columns back touches no other column. *)
Lemma attach_group_by_other_columns (g : group_by_arg) (gv : group_value)
    (df df' : DataFrame) :
  attach_group_by g gv df = Ok df' →
  nrows df' = nrows df ∧
  ∀ c vs, c ∉ group_by_columns g → (c, vs) ∈ columns df' ↔ (c, vs) ∈ columns df.
Proof.
  destruct g as [|col|cols]; simpl.
  - by intros [= <-].
  - intros Hset. apply setitem_other_columns in Hset as [Hrows Hcols].
    split; [done|]. intros c vs Hc. apply Hcols. intros ->. apply Hc. left.
  - intros Hrun.
    apply (for_each_invariant
             (fun d => nrows d = nrows df ∧
                       ∀ c vs, c ∉ cols → (c, vs) ∈ columns d ↔ (c, vs) ∈ columns df))
      in Hrun; [done | | done].
    intros [i col] d d' Hin [Hrows Hcols] Hstep. cbv beta in Hstep.
    apply bind_ok_inv in Hstep as (v & _ & Hset).
    change (setitem col (Scalar v) d = Ok d') in Hset.
    apply setitem_other_columns in Hset as [Hrows' Hcols'].
    split; [congruence|]. intros c vs Hc. rewrite Hcols', Hcols; [done | done |].
    intros ->. apply Hc.
    apply elem_of_lookup_imap in Hin as (j & y & [= _ ->] & Hj).
    by eapply list_elem_of_lookup_2.
Qed.

Lemma dropna_all_columns (df : DataFrame) (c : string) (vs : list value) :
  (c, vs) ∈ columns (dropna_all df) ↔
  (c, vs) ∈ columns df ∧ forallb isna vs = false.
Proof. unfold dropna_all; simpl. rewrite list_elem_of_filter. simpl. tauto. Qed.

Lemma first_seen_spec (seen names : list string) (c : string) :
  c ∈ first_seen seen names ↔ c ∈ names ∧ c ∉ seen.
Proof.
  revert seen. induction names as [|n names IH]; intros seen; simpl.
  - split; [by inversion 1 | by intros [? _]; inversion H].
  - case_bool_decide as Hn.
    + rewrite IH, elem_of_cons. split; [intros [? ?]; auto|].
      intros [[->|?] ?]; [done | auto].
    + rewrite !elem_of_cons, IH, not_elem_of_cons. split.
      * intros [-> | (? & ? & ?)]; auto.
      * intros [[->|?] ?]; [by left|].
        destruct (decide (c = n)) as [->|]; [by left | right; auto].
Qed.

Lemma fmap_fst_pair {A : Type} (F : string → A) (l : list string) :
  ((fun c => (c, F c)) <$> l).*1 = l.
Proof. induction l as [|x l IH]; [done|]. rewrite !fmap_cons. simpl. by rewrite IH. Qed.

Lemma concat_column_names (dfs : list DataFrame) (c : string) :
  c ∈ column_names (concat dfs) ↔ ∃ df, df ∈ dfs ∧ c ∈ column_names df.
Proof.
  unfold column_names at 1, concat; simpl.
  rewrite fmap_fst_pair, first_seen_spec, list_elem_of_In, in_flat_map.
  setoid_rewrite <- list_elem_of_In. split.
  - intros [(df & ? & ?) _]. eauto.
  - intros (df & ? & ?). split; [eauto | by inversion 1].
Qed.

Lemma assoc_Some_elem {A : Type} (c : string) (a : A) (l : list (string * A)) :
  assoc c l = Some a → (c, a) ∈ l.
Proof.
  induction l as [|[c' a'] l IH]; simpl; [done|].
  case_bool_decide as Hc.
  - intros [= ->]. subst c'. left.
  - intros H. right. by apply IH.
Qed.

(** The first column of a name survives the drop when it has a cell that
    is not NA. *)
Lemma dropna_all_get_column (df : DataFrame) (c : string) (vs : list value) :
  get_column c df = Some vs → forallb isna vs = false →
  get_column c (dropna_all df) = Some vs.
Proof.
  unfold get_column, dropna_all; simpl. intros Hget Hna.
  induction (columns df) as [|[c' a'] l IH]; simpl in *; [done|].
  case_bool_decide as Hc.
  - injection Hget as ->. rewrite filter_cons_True by done. simpl.
    by rewrite bool_decide_eq_true_2.
  - destruct (decide (forallb isna a' = false)) as [Hk|Hk].
    + rewrite filter_cons_True by done. simpl.
      rewrite bool_decide_eq_false_2 by done. by apply IH.
    + rewrite filter_cons_False by done. by apply IH.
Qed.

Lemma attach_group_by_get_column (g : group_by_arg) (gv : group_value)
    (df df' : DataFrame) (c : string) :
  attach_group_by g gv df = Ok df' → c ∉ group_by_columns g →
  get_column c df' = get_column c df.
Proof.
  destruct g as [|col|cols]; simpl.
  - by intros [= <-].
  - intros Hset Hc. apply setitem_ok in Hset as (_ & _ & Hother & _).
    apply Hother. intros ->. apply Hc. left.
  - intros Hrun Hc.
    apply (for_each_invariant (fun d => get_column c d = get_column c df))
      in Hrun; [done | | done].
    intros [i col] d d' Hin Hd Hstep. cbv beta in Hstep.
    apply bind_ok_inv in Hstep as (v & _ & Hset).
    change (setitem col (Scalar v) d = Ok d') in Hset.
    apply setitem_ok in Hset as (_ & _ & Hother & _).
    rewrite Hother; [done|]. intros ->. apply Hc.
    apply elem_of_lookup_imap in Hin as (j & y & [= _ ->] & Hj).
    by eapply list_elem_of_lookup_2.
Qed.

Lemma group_contribution_ok (g : group_by_arg) (gv : group_value)
    (result : group_state) (dfc : DataFrame) :
  group_contribution g gv result = Ok (Some dfc) →
  is_empty (data_in result) = false ∧
  ∃ df', attach_group_by g gv (data_in result) = Ok df' ∧ dfc = dropna_all df'.
Proof.
  unfold group_contribution. destruct (is_empty (data_in result)); [done|].
  intros H. apply bind_ok_inv in H as (df' & Hdf' & [= <-]). eauto.
Qed.

(** The frames that are concatenated are the contributions of the groups. *)
Lemma data_in_list_from_groups (g : group_by_arg)
    (grouped_results : list (group_value * group_state))
    (acc data_in_list : list DataFrame) :
  for_each
    (fun r acc =>
       c ← group_contribution g r.1 r.2;
       Ok (acc ++ match c with Some df_cleaned => [df_cleaned] | None => [] end))
    grouped_results acc = Ok data_in_list →
  ∀ df, df ∈ data_in_list ↔
        df ∈ acc ∨ ∃ r, r ∈ grouped_results ∧ group_contribution g r.1 r.2 = Ok (Some df).
Proof.
  revert acc. induction grouped_results as [|r rs IH]; intros acc Hrun df; simpl in Hrun.
  - injection Hrun as <-. split; [by left|]. intros [?|(? & Hin & _)]; [done | by inversion Hin].
  - apply bind_ok_inv in Hrun as (acc' & Hstep & Hrest).
    apply bind_ok_inv in Hstep as (c & Hc & [= <-]).
    rewrite (IH _ Hrest df), elem_of_app. split.
    + intros [[?|Hdf] | (r' & Hin & Hr')].
      * by left.
      * right. exists r. split; [left|]. destruct c as [d|]; [|by inversion Hdf].
        apply list_elem_of_singleton in Hdf as ->. done.
      * right. exists r'. split; [by right | done].
    + intros [? | (r' & Hin & Hr')]; [by left; left|].
      apply elem_of_cons in Hin as [-> | Hin].
      * left. right. rewrite Hr' in Hc. injection Hc as <-. left.
      * right. by exists r'.
Qed.

(** C10. (1) The frame a finished group contributes to the concatenation
    is its row table with the group-by columns added back and without the
    columns whose cells are all NA within the group: a column is in the
    contribution exactly when it is in that table and has a cell that is
    not NA; adding the group-by columns back changes no other column.
    (2) A column of the final filters table is a column of the
    contribution of some group. (3) So for some inputs a computed filter
    ("flag", all None) is in the working table of every group and absent
    from the filters table, and an input column ("note", NaN in the first
    group) is absent from the contribution of a group and only filled in
    with NaN by the concatenation. *)
Theorem all_na_columns_dropped :
  (∀ (g : group_by_arg) gv result dfc,
     group_contribution g gv result = Ok (Some dfc) →
     ∃ df', attach_group_by g gv (data_in result) = Ok df' ∧
            (∀ c vs, (c, vs) ∈ columns dfc ↔
                     (c, vs) ∈ columns df' ∧ forallb isna vs = false) ∧
            (∀ c vs, c ∉ group_by_columns g →
                     (c, vs) ∈ columns df' ↔ (c, vs) ∈ columns (data_in result))) ∧
  (∀ cfg data_in groups out c,
     no_grouping (group_by cfg) = false →
     process_all_groups cfg data_in groups = Ok out →
     c ∈ column_names (filters_df out) →
     ∃ gv group_df result dfc,
       (gv, group_df) ∈ groups ∧
       process_group cfg group_df = Ok result ∧
       group_contribution (group_by cfg) gv result = Ok (Some dfc) ∧
       c ∈ column_names dfc) ∧
  (∃ first second out,
     process_group Examples.cfg_flag Examples.first_order = Ok first ∧
     process_group Examples.cfg_flag Examples.second_order = Ok second ∧
     has_column "flag" (data_in first) = true ∧
     has_column "flag" (data_in second) = true ∧
     has_column "note" (data_in first) = true ∧
     group_contribution (GbStr "id") (KeyScalar (VInt 1)) first
     = Ok (Some {| nrows := 1;
                   columns := [("price"%string, [VInt 10]); ("id"%string, [VInt 1])] |}) ∧
     process_all_groups Examples.cfg_flag Examples.noted_orders Examples.noted_groups
     = Ok out ∧
     has_column "flag" (filters_df out) = false ∧
     get_column "note" (filters_df out) = Some [VNaN; VStr "late"]).
Proof.
  split; [|split].
  - intros g gv result dfc Hc.
    apply group_contribution_ok in Hc as (_ & df' & Hattach & ->).
    exists df'. split; [done|]. split.
    + intros c vs. apply dropna_all_columns.
    + by apply attach_group_by_other_columns in Hattach as [_ Hother].
  - intros cfg data_in groups out c Hgrouped Hrun Hc.
    apply process_all_groups_grouped in Hrun; [|done]. unfold _process_grouped in Hrun.
    apply bind_ok_inv in Hrun as (grouped & Hgroups & Hrun).
    apply bind_ok_inv in Hrun as (data_in_list & Hlist & Hrun).
    apply bind_ok_inv in Hrun as (attrs_list & _ & [= <-]). simpl in Hc.
    assert (c ∈ column_names (concat data_in_list)) as Hconcat.
    { unfold _build_filters_dataframe in Hc.
      destruct data_in_list as [|d ds]; simpl in Hc; [by inversion Hc|].
      destruct (is_empty (concat (d :: ds))); [by inversion Hc | done]. }
    apply concat_column_names in Hconcat as (dfc & Hdfc & Hcol).
    apply (data_in_list_from_groups _ _ _ _ Hlist) in Hdfc
      as [Hnil | ([gv result] & Hin & Hcontr)]; [by inversion Hnil|].
    apply mapM_res_ok in Hgroups.
    apply list_elem_of_lookup in Hin as [i Hi].
    destruct (Forall2_lookup_r _ _ _ _ _ Hgroups Hi) as ([gv' group_df] & Hg & Hpg).
    simpl in Hpg. apply bind_ok_inv in Hpg as (result' & Hresult & [= -> ->]).
    exists gv, group_df, result, dfc. repeat split; try done.
    by eapply list_elem_of_lookup_2.
  - destruct (process_group Examples.cfg_flag Examples.first_order)
      as [first|] eqn:H1; [|vm_compute in H1; discriminate].
    destruct (process_group Examples.cfg_flag Examples.second_order)
      as [second|] eqn:H2; [|vm_compute in H2; discriminate].
    destruct (process_all_groups Examples.cfg_flag Examples.noted_orders
                Examples.noted_groups) as [out|] eqn:H3; [|vm_compute in H3; discriminate].
    exists first, second, out.
    vm_compute in H1. injection H1 as <-.
    vm_compute in H2. injection H2 as <-.
    vm_compute in H3. injection H3 as <-.
    repeat split; vm_compute; reflexivity.
Qed.

(** The first order of the example: its note is NaN, so its contribution
    has the price and the group key but no note. *)
Lemma all_na_columns_dropped_witness :
  ∃ dfc,
    group_contribution (GbStr "id") (KeyScalar (VInt 1))
      (group_start Examples.first_order) = Ok (Some dfc) ∧
    (("note"%string, [VNaN]) ∉ columns dfc) ∧
    ("price"%string, [VInt 10]) ∈ columns dfc.
Proof.
  destruct all_na_columns_dropped as (Hdrop & _).
  destruct (group_contribution (GbStr "id") (KeyScalar (VInt 1))
              (group_start Examples.first_order)) as [[dfc|]|] eqn:Hc;
    [|(vm_compute in Hc; discriminate)..].
  destruct (Hdrop _ _ _ _ Hc) as (df' & Hattach & Hkept & Hother).
  exists dfc. split; [reflexivity|]. split.
  - intros Hin. apply Hkept in Hin as [_ Hna]. discriminate Hna.
  - apply Hkept. split; [|reflexivity].
    apply Hother; [|apply list_elem_of_here].
    intros Hid. apply list_elem_of_singleton in Hid. discriminate Hid.
Defined.

End contribution.

(** ** GroupByProcessor: features that are already columns *)

Section skip.
Import Frame Calculator GroupBy.

(** A step keeps every column it finds, and logs a computation only for
    its own feature, and only when that feature is not a column. *)
Lemma process_feature_frame (cfg : cfg_model) (feature : string)
    (st st' : group_state) (c : string) :
  process_feature cfg feature st = Ok st' →
  has_column c (data_in st) = true →
  get_column c (data_in st') = get_column c (data_in st) ∧
  ∃ l, log st' = log st ++ l ∧ existsb (computes c) l = false.
Proof.
  intros Hstep Hc. unfold process_feature in Hstep.
  destruct (has_column feature (data_in st)) eqn:Hcol.
  { injection Hstep as <-. split; [done|]. by exists [SkippingPresent feature]. }
  assert (feature ≠ c) as Hne by (intros ->; congruence).
  apply bind_ok_inv in Hstep as (func & _ & Hstep).
  apply bind_ok_inv in Hstep as (args & _ & Hstep).
  apply bind_ok_inv in Hstep as (flg & _ & Hstep).
  apply bind_ok_inv in Hstep as (scan & _ & Hstep).
  destruct (negb _).
  { injection Hstep as <-. split; [done|]. exists []. by rewrite app_nil_r. }
  destruct (in_flg scan && negb flg).
  - apply run_as_filter_ok in Hstep as (r & _ & Hset & _ & _ & Hlog).
    apply setitem_ok in Hset as (_ & _ & Hother & _). split.
    + apply Hother. congruence.
    + eexists. split; [done|]. simpl. by rewrite bool_decide_eq_false_2.
  - apply run_as_attribute_ok in Hstep as (r & _ & _ & -> & _ & Hlog).
    split; [done|]. eexists. split; [done|]. simpl.
    by rewrite bool_decide_eq_false_2.
Qed.

Lemma process_features_frame (cfg : cfg_model) (features : list string)
    (st st' : group_state) (c : string) :
  for_each (process_feature cfg) features st = Ok st' →
  has_column c (data_in st) = true →
  get_column c (data_in st') = get_column c (data_in st) ∧
  ∃ l, log st' = log st ++ l ∧ existsb (computes c) l = false.
Proof.
  revert st. induction features as [|f features IH]; intros st Hrun Hc; simpl in Hrun.
  - injection Hrun as <-. split; [done|]. exists []. by rewrite app_nil_r.
  - apply bind_ok_inv in Hrun as (st1 & Hstep & Hrest).
    destruct (process_feature_frame _ _ _ _ c Hstep Hc) as (Hcol1 & l1 & Hlog1 & Hl1).
    assert (has_column c (data_in st1) = true) as Hc1.
    { apply has_column_get. rewrite Hcol1. by apply has_column_get. }
    destruct (IH st1 Hrest Hc1) as (Hcol2 & l2 & Hlog2 & Hl2).
    split; [congruence|]. exists (l1 ++ l2).
    rewrite Hlog2, Hlog1, <- app_assoc. split; [done|].
    by rewrite existsb_app, Hl1, Hl2.
Qed.

(** C8. When the loop comes to a feature that is already a column of the
    group's row table (from the input or from an earlier step), the step
    does nothing but log that it skips it: neither the calculator nor the
    configuration of the feature is consulted. In the state
    [process_group] returns for the group, the column holds the cells it
    held at that point, and from that point on the log reports no
    computation of the feature. In the frame the group then contributes to
    the filters table the column holds these cells when one of them is not
    NA; when all of them are NA the column is not in that frame. *)
Theorem process_group_skips_present (cfg : cfg_model) (group_df : DataFrame)
    (feature : string) (st : group_state) :
  reaches cfg group_df feature st →
  has_column feature (data_in st) = true →
  process_feature cfg feature st = Ok (add_log (SkippingPresent feature) st) ∧
  ∀ final,
    process_group cfg group_df = Ok final →
    get_column feature (data_in final) = get_column feature (data_in st) ∧
    (∃ l, log final = log st ++ l ∧ existsb (computes feature) l = false) ∧
    ∀ gv dfc vs,
      group_contribution (group_by cfg) gv final = Ok (Some dfc) →
      feature ∉ group_by_columns (group_by cfg) →
      get_column feature (data_in st) = Some vs →
      (forallb isna vs = false → get_column feature dfc = Some vs) ∧
      (forallb isna vs = true → (feature, vs) ∉ columns dfc).
Proof.
  intros (pre & post & Hseq & Hpre) Hcol.
  assert (process_feature cfg feature st = Ok (add_log (SkippingPresent feature) st))
    as Hstep by (unfold process_feature; by rewrite Hcol).
  split; [done|]. intros final Hrun.
  unfold process_group in Hrun. rewrite Hseq, for_each_app, Hpre in Hrun.
  change (for_each (process_feature cfg) (feature :: post) st = Ok final) in Hrun.
  destruct (process_features_frame _ _ _ _ feature Hrun Hcol) as [Hkept Hlog].
  split; [done|]. split; [done|].
  intros gv dfc vs Hc Hgb Hvs.
  apply group_contribution_ok in Hc as (_ & df' & Hattach & ->). split.
  - intros Hna. apply dropna_all_get_column; [|done].
    rewrite (attach_group_by_get_column _ _ _ _ _ Hattach Hgb). congruence.
  - intros Hna Hin. apply dropna_all_columns in Hin as [_ Hin]. congruence.
Qed.

(** A group that arrives with a column "weighted": [price_sum] is computed,
    "weighted" is skipped and keeps its cells, also in the frame the group
    contributes. *)
Lemma process_group_skips_present_witness :
  ∃ final dfc,
    process_group Examples.cfg_weighted Examples.prices_weighted = Ok final ∧
    get_column "weighted" (data_in final) = Some [VInt 1; VInt 2] ∧
    group_contribution (Resolver.GbStr "id") (KeyScalar (VInt 7)) final
    = Ok (Some dfc) ∧
    get_column "weighted" dfc = Some [VInt 1; VInt 2].
Proof.
  destruct (process_group_skips_present Examples.cfg_weighted Examples.prices_weighted
              "weighted"
              {| data_in := Examples.prices_weighted;
                 agg_results := {[ "price_sum"%string := Scalar (VInt 30) ]};
                 filters_calculated := [];
                 log := [RoutedAttribute "price_sum" true] |}) as (_ & Hfinal).
  - exists ["price_sum"%string], []. split; [reflexivity|]. vm_compute. reflexivity.
  - reflexivity.
  - destruct (process_group Examples.cfg_weighted Examples.prices_weighted)
      as [final|e] eqn:Hrun; [|vm_compute in Hrun; discriminate].
    destruct (Hfinal final eq_refl) as (Hcells & _ & Hcontr).
    destruct (group_contribution (Resolver.GbStr "id") (KeyScalar (VInt 7)) final)
      as [[dfc|]|] eqn:Hc;
      [|(vm_compute in Hrun; injection Hrun as <-; vm_compute in Hc; discriminate)..].
    exists final, dfc. split; [reflexivity|]. split; [by rewrite Hcells|].
    split; [exact Hc|].
    apply (Hcontr (KeyScalar (VInt 7)) dfc [VInt 1; VInt 2] Hc).
    + intros Hid. apply list_elem_of_singleton in Hid. discriminate Hid.
    + reflexivity.
    + reflexivity.
Defined.

(** The first order arrives with a column "note" whose only cell is NaN.
    The feature "note" is skipped and [process_group] returns the column
    as it was, yet the frame the group contributes to the filters table
    has no column "note". *)
Lemma skipped_column_not_contributed :
  process_group Examples.cfg_note Examples.first_order
  = Ok (add_log (SkippingPresent "note") (group_start Examples.first_order)) ∧
  get_column "note" Examples.first_order = Some [VNaN] ∧
  group_contribution (Resolver.GbStr "id") (KeyScalar (VInt 1))
    (add_log (SkippingPresent "note") (group_start Examples.first_order))
  = Ok (Some {| nrows := 1;
                columns := [("price"%string, [VInt 10]); ("id"%string, [VInt 1])] |}).
Proof. repeat split; vm_compute; reflexivity. Qed.

End skip.

(** ** Keys of the store *)

Section keys.
Import Store Resolver ResolverInv.

Lemma colon_free_no_colon (f m g : string) :
  colon_free f = true → m +:+ ":" +:+ g ≠ f.
Proof.
  unfold colon_free. rewrite negb_true_iff. intros Hf <-.
  assert (Text.contains ":" (m +:+ ":" +:+ g) = true) as Hc
    by (apply contains_spec; by exists m, g).
  congruence.
Qed.

Lemma scoped_key_inj (m1 m2 f g : string) :
  colon_free f = true → colon_free g = true →
  m1 +:+ ":" +:+ f = m2 +:+ ":" +:+ g → f = g.
Proof.
  intros Hf Hg. revert m2. induction m1 as [|c m1 IH]; intros [|c' m2] Heq; simpl in Heq.
  - by injection Heq.
  - injection Heq as <- Heq. symmetry in Heq. by apply colon_free_no_colon in Heq.
  - injection Heq as -> Heq. by apply colon_free_no_colon in Heq.
  - injection Heq as _ Heq. by eapply IH.
Qed.

Lemma key_of_cases (model : option string) (name : string) :
  key_of model name = name ∨ ∃ m, key_of model name = m +:+ ":" +:+ name.
Proof.
  unfold key_of. destruct model as [m|]; [|by left].
  destruct (truthy (Some m)); [right; by exists m | by left].
Qed.

Lemma key_of_inj (model : option string) (f g : string) :
  key_of model f = key_of model g → f = g.
Proof.
  unfold key_of. destruct model as [m|]; [|done].
  destruct (truthy (Some m)); [|done].
  revert f g. induction m as [|c m IH]; intros f g Heq; simpl in Heq.
  - by injection Heq.
  - injection Heq as Heq. by apply IH.
Qed.

(** The key a fetched feature [g] is stored under is not a key a lookup of
    another name [f] reads. *)
Lemma key_of_ne_bare (model : option string) (f g : string) :
  colon_free f = true → f ≠ g → key_of model g ≠ f.
Proof.
  intros Hf Hne. destruct (key_of_cases model g) as [-> | [m ->]]; [done|].
  by apply colon_free_no_colon.
Qed.

Lemma key_of_ne_key_of (model model' : option string) (f g : string) :
  colon_free f = true → colon_free g = true → f ≠ g →
  key_of model g ≠ key_of model' f.
Proof.
  intros Hf Hg Hne.
  destruct (key_of_cases model g) as [-> | [m ->]],
           (key_of_cases model' f) as [-> | [m' ->]].
  - done.
  - intros Heq. symmetry in Heq. by apply colon_free_no_colon in Heq.
  - by apply colon_free_no_colon.
  - intros Heq. apply scoped_key_inj in Heq; done.
Qed.

Lemma get_feature_insert_other (F : gmap string feature_def) (cm : option string)
    (k f : string) (d : feature_def) :
  k ≠ key_of cm f → k ≠ f →
  get_feature {| features := <[k := d]> F; current_model := cm |} f None
  = get_feature {| features := F; current_model := cm |} f None.
Proof.
  intros Hk1 Hk2. unfold get_feature, py_or; simpl.
  by rewrite !lookup_insert_ne.
Qed.

Lemma has_feature_insert_other (F : gmap string feature_def) (cm : option string)
    (k f : string) (d : feature_def) :
  k ≠ f →
  has_feature {| features := <[k := d]> F; current_model := cm |} f
  = has_feature {| features := F; current_model := cm |} f.
Proof.
  intros Hk. unfold has_feature; simpl. apply bool_decide_ext.
  rewrite !elem_of_dom, lookup_insert_ne; done.
Qed.

(** A feature whose bare key is in the store is found by a lookup. *)
Lemma has_feature_get (st : FeatureStore) (f : string) :
  has_feature st f = true → is_Some (get_feature st f None).
Proof.
  unfold has_feature, get_feature, py_or; simpl.
  rewrite bool_decide_eq_true, elem_of_dom. intros [d Hd].
  destruct (features st !! key_of (current_model st) f) as [d'|] eqn:Hk; [eauto|].
  destruct (truthy (current_model st)) eqn:Ht; [by rewrite Hd|].
  rewrite key_of_falsy in Hk by done. congruence.
Qed.

End keys.

(** ** Fetching a feature does not disturb the other names *)

Section loads.
Import Store Resolver ResolverInv.
Context (env : resolver_env).

Lemma load_ok (st st' : FeatureStore) (g : string) :
  load_from_filesystem (disk env) st (model env) g = Ok st' →
  ∃ udf args,
    disk env !! g = Some (udf, args) ∧
    st' = {| features :=
               <[key_of (py_or (Some (model env)) (current_model st)) g
                 := DefDict udf (Some args)]> (features st);
             current_model := current_model st |}.
Proof.
  unfold load_from_filesystem, store_feature.
  destruct (disk env !! g) as [[udf args]|]; [|done]. intros [= <-].
  by exists udf, args.
Qed.

Lemma load_twice (st st' : FeatureStore) (g : string) :
  load_from_filesystem (disk env) st (model env) g = Ok st' →
  load_from_filesystem (disk env) st' (model env) g = Ok st'.
Proof.
  intros Hload. destruct (load_ok _ _ _ Hload) as (udf & args & Hdisk & ->).
  unfold load_from_filesystem, store_feature. rewrite Hdisk. simpl.
  by rewrite insert_insert_eq.
Qed.

(** The visit of [g] that fetches it finds what a lookup finds afterwards. *)
Lemma classify_fetched (st st' : FeatureStore) (g : string) :
  has_feature st g = false → g ∈ feat_idx env →
  load_from_filesystem (disk env) st (model env) g = Ok st' →
  classify env st g
  = if bool_decide (g ∈ available_cols env) then Input
    else match get_feature st' g None with
         | None => Broken AttributeError
         | Some d => Feature d
         end.
Proof.
  intros Hhas Hidx Hload. unfold classify, fetch.
  rewrite Hhas, (bool_decide_eq_true_2 (g ∈ feat_idx env)) by done.
  by rewrite Hload.
Qed.

Lemma classify_load_same (st st' : FeatureStore) (g : string) :
  has_feature st g = false → g ∈ feat_idx env →
  load_from_filesystem (disk env) st (model env) g = Ok st' →
  classify env st' g = classify env st g.
Proof.
  intros Hhas Hidx Hload. rewrite (classify_fetched st st') by done.
  unfold classify, fetch. destruct (has_feature st' g); [done|].
  rewrite (bool_decide_eq_true_2 (g ∈ feat_idx env)) by done.
  by rewrite (load_twice st st').
Qed.

Lemma classify_load_other (st st' : FeatureStore) (f g : string) :
  colon_free f = true → colon_free g = true → f ≠ g →
  load_from_filesystem (disk env) st (model env) g = Ok st' →
  classify env st' f = classify env st f.
Proof.
  intros Hf Hg Hne Hload. destruct (load_ok _ _ _ Hload) as (udf & args & Hdisk & ->).
  destruct st as [F cm]; simpl in *.
  set (kg := key_of (py_or (Some (model env)) cm) g).
  assert (kg ≠ f) as Hk1 by (by apply key_of_ne_bare).
  assert (kg ≠ key_of cm f) as Hk2 by (by apply key_of_ne_key_of).
  unfold classify, fetch. rewrite has_feature_insert_other by done.
  destruct (bool_decide (f ∈ available_cols env)); [done|].
  destruct (has_feature _ f); simpl.
  { by rewrite get_feature_insert_other. }
  destruct (bool_decide (f ∈ feat_idx env)); [|done].
  unfold load_from_filesystem, store_feature.
  destruct (disk env !! f) as [[udf' args']|]; [|done]. simpl.
  rewrite insert_insert_ne.
  2:{ intros Heq. apply key_of_inj in Heq. done. }
  rewrite get_feature_insert_other; [done | | ].
  - fold kg. done.
  - done.
Qed.

(** One fetch makes the store grow. *)
Lemma load_grows (st st' : FeatureStore) (g : string) :
  disk_named env → colon_free g = true →
  has_feature st g = false → g ∈ feat_idx env →
  load_from_filesystem (disk env) st (model env) g = Ok st' →
  grows env st st'.
Proof.
  intros Hdisk Hg Hhas Hidx Hload. split; [|split].
  - intros f Hf. destruct (decide (f = g)) as [->|Hne].
    + exact (classify_load_same st st' g Hhas Hidx Hload).
    + exact (classify_load_other st st' f g Hf Hg Hne Hload).
  - intros f d Hf [Hclass Hget]. destruct (decide (f = g)) as [->|Hne].
    + rewrite (classify_fetched st st') in Hclass by done.
      destruct (bool_decide _); [done|].
      by destruct (get_feature st' g None); simplify_eq.
    + destruct (load_ok _ _ _ Hload) as (udf & args & Hd & ->).
      destruct st as [F cm]; simpl in *. rewrite get_feature_insert_other; [done | |].
      * by apply key_of_ne_key_of.
      * by apply key_of_ne_bare.
  - intros Hargs. destruct (load_ok _ _ _ Hload) as (udf & args & Hd & ->). simpl.
    apply map_Forall_insert_2; [|done]. apply (Hdisk _ _ Hd).
Qed.

Lemma grows_refl (st : FeatureStore) : grows env st st.
Proof. split; [done|]. split; [|done]. by intros f d _ [_ ?]. Qed.

Lemma grows_trans (st1 st2 st3 : FeatureStore) :
  grows env st1 st2 → grows env st2 st3 → grows env st1 st3.
Proof.
  intros (Hc12 & Hs12 & Ha12) (Hc23 & Hs23 & Ha23). split; [|split].
  - intros f Hf. by rewrite Hc23, Hc12.
  - intros f d Hf [Hclass Hget]. apply Hs23; [done|]. split.
    + by rewrite Hc12.
    + by apply Hs12.
  - auto.
Qed.

(** Whatever a lookup returns in a store with well-named arguments has
    well-named arguments. *)
Lemma get_feature_named (st : FeatureStore) (f : string) (d : feature_def) :
  map_Forall (fun _ d => args_named d) (features st) →
  get_feature st f None = Some d → args_named d.
Proof.
  intros Hargs. unfold get_feature, py_or; simpl.
  destruct (features st !! key_of (current_model st) f) as [d'|] eqn:Hk.
  - intros [= <-]. by eapply Hargs.
  - destruct (truthy (current_model st)); [|done]. intros Hd. by eapply Hargs.
Qed.

End loads.

(** ** Positions in the execution sequence *)

Section positions.
Import Resolver.

Lemma index_of_app_l (x : string) (l k : list string) (i : nat) :
  index_of x l = Some i → index_of x (l ++ k) = Some i.
Proof.
  revert i. induction l as [|y l IH]; intros i; simpl; [done|].
  case_bool_decide; [done|].
  destruct (index_of x l) as [j|]; simpl; [|done].
  intros [= <-]. by rewrite (IH j).
Qed.

Lemma index_of_elem (x : string) (l : list string) :
  x ∈ l → ∃ i, index_of x l = Some i ∧ i < length l.
Proof.
  induction l as [|y l IH]; [by inversion 1|]. simpl.
  case_bool_decide as Hxy.
  - intros _. exists 0. split; [done | lia].
  - intros Hin. apply elem_of_cons in Hin as [?|Hin]; [done|].
    destruct (IH Hin) as (i & -> & Hi). exists (S i). split; [done | lia].
Qed.

Lemma index_of_new (x : string) (l : list string) :
  x ∉ l → index_of x (l ++ [x]) = Some (length l).
Proof.
  induction l as [|y l IH]; simpl.
  - intros _. by rewrite bool_decide_eq_true_2.
  - rewrite not_elem_of_cons. intros [Hne Hnin].
    rewrite bool_decide_eq_false_2 by done. by rewrite IH.
Qed.

Lemma precedes_app (a f : string) (l k : list string) :
  precedes a f l → precedes a f (l ++ k).
Proof.
  intros (i & j & Hi & Hj & Hlt). exists i, j.
  by rewrite !(index_of_app_l _ _ _ _ Hi), !(index_of_app_l _ _ _ _ Hj).
Qed.

Lemma precedes_new (a f : string) (l : list string) :
  a ∈ l → f ∉ l → precedes a f (l ++ [f]).
Proof.
  intros Ha Hf. destruct (index_of_elem _ _ Ha) as (i & Hi & Hlt).
  exists i, (length l). by rewrite (index_of_app_l _ _ _ _ Hi), index_of_new.
Qed.

End positions.

(** ** DependencyResolver: the invariant of the depth-first search *)

Section resolution.
Import Store Resolver ResolverInv.
Context (env : resolver_env) (st0 : FeatureStore).
Hypothesis Hdisk : disk_named env.

(** The three ways a visit returns: Case 1 or the end of Case 2 (an input
    column), or Case 3 after the arguments. *)
Lemma resolve_ok_inv (fuel : nat) (f : string) (s s' : rstate) :
  _resolve_feature env (S fuel) f s = Ok s' →
  (classify env (store s) f = Input ∧ s' = add_input f s) ∨
  ∃ st1 d s2,
    fetch env f (store s) = Ok (Some st1) ∧
    get_feature st1 f None = Some d ∧
    classify env (store s) f = Feature d ∧
    resolve_args env fuel (arg_list d)
      {| store := st1; input_cols := input_cols s; exec_seq := exec_seq s |} = Ok s2 ∧
    s' = add_exec f s2.
Proof.
  simpl. unfold classify.
  destruct (bool_decide (f ∈ available_cols env)).
  { intros [= <-]. by left. }
  destruct (fetch env f (store s)) as [[st1|]|e]; simpl; [| |done].
  2:{ intros [= <-]. by left. }
  destruct (get_feature st1 f None) as [d|] eqn:Hget; [|done]. intros H.
  apply bind_ok_inv in H as (s2 & Hargs & [= <-]).
  right. exists st1, d, s2. by rewrite Hget.
Qed.

Lemma fetch_grows (f : string) (st st1 : FeatureStore) :
  colon_free f = true → fetch env f st = Ok (Some st1) → grows env st st1.
Proof.
  intros Hf. unfold fetch. destruct (has_feature st f) eqn:Hhas.
  { intros [= <-]. apply grows_refl. }
  case_bool_decide as Hidx; [|done]. intros H.
  apply bind_ok_inv in H as (st' & Hload & [= <-]). by eapply load_grows.
Qed.

(** The invariant is kept when the store grows and when a new feature
    whose arguments are all placed is appended. *)
Lemma inv_grows (s : rstate) (st' : FeatureStore) :
  inv env st0 s → grows env (store s) st' →
  inv env st0 {| store := st'; input_cols := input_cols s; exec_seq := exec_seq s |}.
Proof.
  intros (Hg0 & Hargs & Hexec) Hg. split; [|split]; simpl.
  - by eapply grows_trans.
  - by apply Hg.
  - intros f Hf. destruct (Hexec f Hf) as (Hcf & d & Hclass & Hget & Hdeps).
    split; [done|]. exists d. split; [done|]. split; [|done].
    apply Hg; [done|]. split; [|done]. rewrite <- Hclass. by apply Hg0.
Qed.

Lemma inv_add_input (f : string) (s : rstate) :
  inv env st0 s → inv env st0 (add_input f s).
Proof. done. Qed.

Lemma inv_add_exec (f : string) (d : feature_def) (s : rstate) :
  inv env st0 s → colon_free f = true →
  classify env st0 f = Feature d →
  get_feature (store s) f None = Some d →
  (∀ a, a ∈ arg_list d → a ∉ group_by env →
        classify env st0 a = Input ∨ a ∈ exec_seq s) →
  inv env st0 (add_exec f s).
Proof.
  intros (Hg0 & Hargs & Hexec) Hcf Hclass Hget Hdeps.
  split; [done|]. split; [done|]. unfold add_exec, append_new; simpl.
  case_bool_decide as Hin; [done|].
  intros f' Hf'. apply elem_of_app in Hf' as [Hf' | Hf'].
  - destruct (Hexec f' Hf') as (Hcf' & d' & Hclass' & Hget' & Hdeps').
    split; [done|]. exists d'. split; [done|]. split; [done|].
    intros a Ha Hgb. destruct (Hdeps' a Ha Hgb) as [Hpre | Hinput]; [left | by right].
    by apply precedes_app.
  - apply list_elem_of_singleton in Hf' as ->.
    split; [done|]. exists d. split; [done|]. split; [done|].
    intros a Ha Hgb. destruct (Hdeps a Ha Hgb) as [Hinput | Hplaced]; [by right | left].
    by apply precedes_new.
Qed.

Lemma resolve_args_visited (fuel : nat) :
  (∀ f s s', colon_free f = true → inv env st0 s →
             _resolve_feature env fuel f s = Ok s' → visited env st0 f s s') →
  ∀ args s s',
    forallb colon_free args = true → inv env st0 s →
    resolve_args env fuel args s = Ok s' →
    inv env st0 s' ∧
    grows env (store s) (store s') ∧
    exec_seq s `prefix_of` exec_seq s' ∧
    ∀ a, a ∈ args → a ∉ group_by env →
         classify env st0 a = Input ∨ a ∈ exec_seq s'.
Proof.
  intros IHfuel args. induction args as [|arg args IH]; intros s s' Hnamed Hinv Hrun.
  - injection Hrun as <-. split; [done|]. split; [apply grows_refl|].
    split; [done|]. intros a Ha. by inversion Ha.
  - simpl in Hnamed. apply andb_true_iff in Hnamed as [Harg Hnamed].
    unfold resolve_args in Hrun. simpl in Hrun.
    apply bind_ok_inv in Hrun as (s1 & Hstep & Hrest).
    fold (resolve_args env fuel args s1) in Hrest.
    case_bool_decide as Hgb.
    + injection Hstep as <-. destruct (IH _ _ Hnamed Hinv Hrest) as (Hinv' & Hg & Hpre & Hdone).
      split; [done|]. split; [done|]. split; [done|]. intros a Ha Hagb.
      apply elem_of_cons in Ha as [-> | Ha]; [done | by apply Hdone].
    + destruct (IHfuel _ _ _ Harg Hinv Hstep) as (Hinv1 & Hg1 & Hpre1 & Hdone1).
      destruct (IH _ _ Hnamed Hinv1 Hrest) as (Hinv' & Hg & Hpre & Hdone).
      split; [done|]. split; [by eapply grows_trans|].
      split; [by etrans|]. intros a Ha Hagb.
      apply elem_of_cons in Ha as [-> | Ha]; [|by apply Hdone].
      destruct Hdone1 as [? | Hin]; [by left | right].
      destruct Hpre as [k ->]. apply elem_of_app. by left.
Qed.

(** Every visit that returns keeps the invariant and places the feature. *)
Lemma resolve_visited (fuel : nat) (f : string) (s s' : rstate) :
  colon_free f = true → inv env st0 s →
  _resolve_feature env fuel f s = Ok s' → visited env st0 f s s'.
Proof.
  revert f s s'. induction fuel as [|fuel IHfuel]; intros f s s' Hcf Hinv Hrun; [done|].
  pose proof Hinv as (Hg0 & Hargs & _).
  assert (classify env st0 f = classify env (store s) f) as Hclass0
    by (symmetry; by apply Hg0).
  apply resolve_ok_inv in Hrun as [[Hclass ->] | (st1 & d & s2 & Hfetch & Hget & Hclass & Hrun & ->)].
  { split; [done|]. split; [apply grows_refl|]. split; [done|]. left. congruence. }
  pose proof (fetch_grows _ _ _ Hcf Hfetch) as Hg1.
  pose proof (inv_grows _ _ Hinv Hg1) as Hinv1.
  assert (args_named d) as Hnamed.
  { eapply get_feature_named; [|done]. by apply Hg1. }
  destruct (resolve_args_visited fuel IHfuel _ _ _ Hnamed Hinv1 Hrun)
    as (Hinv2 & Hg2 & Hpre2 & Hdone). simpl in Hg2, Hpre2.
  assert (get_feature (store s2) f None = Some d) as Hget2.
  { apply Hg2; [done|]. split; [|done]. rewrite <- Hclass. by apply Hg1. }
  split; [|split; [|split]].
  - apply (inv_add_exec f d); try done. congruence.
  - simpl. by eapply grows_trans.
  - simpl. etrans; [done|]. unfold append_new. case_bool_decide; [done|].
    by apply prefix_app_r.
  - right. simpl. unfold append_new. case_bool_decide; [done|].
    apply elem_of_app. right. left.
Qed.

(** The same for the loop over the requested outputs. *)
Lemma resolve_outputs_inv (fuel : nat) (output_cols : list string) (s s' : rstate) :
  forallb colon_free output_cols = true → inv env st0 s →
  for_each (_resolve_feature env fuel) output_cols s = Ok s' →
  inv env st0 s' ∧
  ∀ f, f ∈ output_cols → classify env st0 f = Input ∨ f ∈ exec_seq s'.
Proof.
  revert s. induction output_cols as [|f fs IH]; intros s Hnamed Hinv Hrun.
  - injection Hrun as <-. split; [done|]. intros f Hf. by inversion Hf.
  - simpl in Hnamed, Hrun. apply andb_true_iff in Hnamed as [Hf Hnamed].
    apply bind_ok_inv in Hrun as (s1 & Hstep & Hrest).
    destruct (resolve_visited _ _ _ _ Hf Hinv Hstep) as (Hinv1 & _ & _ & Hdone1).
    destruct (IH _ Hnamed Hinv1 Hrest) as (Hinv' & Hdone). split; [done|].
    intros f' Hf'. apply elem_of_cons in Hf' as [-> | Hf']; [|by apply Hdone].
    destruct Hdone1 as [? | Hin]; [by left | right].
    assert (grows env (store s1) (store s') ∧ exec_seq s1 `prefix_of` exec_seq s')
      as [_ [k ->]]; [|apply elem_of_app; by left].
    clear -Hrest Hinv1 Hnamed Hdisk. revert s1 Hinv1 Hrest.
    induction fs as [|g gs IHg]; intros s1 Hinv1 Hrest.
    + injection Hrest as <-. split; [apply grows_refl | done].
    + simpl in Hnamed, Hrest. apply andb_true_iff in Hnamed as [Hg Hnamed].
      apply bind_ok_inv in Hrest as (s2 & Hstep & Hrest).
      destruct (resolve_visited _ _ _ _ Hg Hinv1 Hstep) as (Hinv2 & Hg2 & Hpre2 & _).
      destruct (IHg Hnamed _ Hinv2 Hrest) as [Hg3 Hpre3].
      split; [by eapply grows_trans | by etrans].
Qed.

(** The two ways a visit raises: the lookup of the feature fails, or the
    loop over its arguments raises. *)
Lemma resolve_raise_inv (fuel : nat) (f : string) (s : rstate) (e : exn) :
  _resolve_feature env (S fuel) f s = Raise e →
  classify env (store s) f = Broken e ∨
  ∃ st1 d,
    fetch env f (store s) = Ok (Some st1) ∧
    get_feature st1 f None = Some d ∧
    classify env (store s) f = Feature d ∧
    resolve_args env fuel (arg_list d)
      {| store := st1; input_cols := input_cols s; exec_seq := exec_seq s |} = Raise e.
Proof.
  simpl. unfold classify.
  destruct (bool_decide (f ∈ available_cols env)); [done|].
  destruct (fetch env f (store s)) as [[st1|]|e']; simpl;
    [| done | intros [= ->]; by left].
  destruct (get_feature st1 f None) as [d|] eqn:Hget; [|intros [= <-]; by left].
  intros H. apply bind_raise_inv in H as [H | (s2 & _ & H)]; [|done].
  right. exists st1, d. by rewrite Hget.
Qed.

Lemma resolve_args_raise (fuel : nat) :
  (∀ f s e, colon_free f = true → inv env st0 s →
            _resolve_feature env fuel f s = Raise e →
            e = RecursionError ∨
            ∃ h, rtc (depends env st0) f h ∧ classify env st0 h = Broken e) →
  ∀ args s e,
    forallb colon_free args = true → inv env st0 s →
    resolve_args env fuel args s = Raise e →
    e = RecursionError ∨
    ∃ a h, a ∈ args ∧ (a ∉ group_by env) ∧
           rtc (depends env st0) a h ∧ classify env st0 h = Broken e.
Proof.
  intros IHfuel args. induction args as [|arg args IH]; intros s e Hnamed Hinv Hrun;
    [done|].
  simpl in Hnamed. apply andb_true_iff in Hnamed as [Harg Hnamed].
  unfold resolve_args in Hrun. simpl in Hrun.
  apply bind_raise_inv in Hrun as [Hstep | (s1 & Hstep & Hrest)].
  - case_bool_decide as Hgb; [done|].
    destruct (IHfuel _ _ _ Harg Hinv Hstep) as [-> | (h & Hh & He)]; [by left|].
    right. exists arg, h. split; [left | done].
  - fold (resolve_args env fuel args s1) in Hrest.
    assert (inv env st0 s1) as Hinv1.
    { case_bool_decide as Hgb; [by injection Hstep as <-|].
      by destruct (resolve_visited _ _ _ _ Harg Hinv Hstep). }
    destruct (IH _ _ Hnamed Hinv1 Hrest) as [-> | (a & h & Ha & Hgb & Hh & He)];
      [by left|].
    right. exists a, h. split; [by right | done].
Qed.

(** A visit raises RecursionError, or what the failing lookup of a name
    reached from the feature raises. *)
Lemma resolve_raise (fuel : nat) (f : string) (s : rstate) (e : exn) :
  colon_free f = true → inv env st0 s →
  _resolve_feature env fuel f s = Raise e →
  e = RecursionError ∨
  ∃ h, rtc (depends env st0) f h ∧ classify env st0 h = Broken e.
Proof.
  revert f s e. induction fuel as [|fuel IHfuel]; intros f s e Hcf Hinv Hrun.
  { injection Hrun as <-. by left. }
  pose proof Hinv as (Hg0 & Hargs & _).
  assert (classify env (store s) f = classify env st0 f) as Hclass0 by (by apply Hg0).
  apply resolve_raise_inv in Hrun as [Hbroken | (st1 & d & Hfetch & Hget & Hclass & Hrun)].
  { right. exists f. split; [done | congruence]. }
  pose proof (fetch_grows _ _ _ Hcf Hfetch) as Hg1.
  pose proof (inv_grows _ _ Hinv Hg1) as Hinv1.
  assert (args_named d) as Hnamed.
  { eapply get_feature_named; [|done]. by apply Hg1. }
  destruct (resolve_args_raise fuel IHfuel _ _ _ Hnamed Hinv1 Hrun)
    as [-> | (a & h & Ha & Hgb & Hh & He)]; [by left|].
  right. exists h. split; [|done].
  eapply rtc_l; [|done]. exists d. split; [congruence | done].
Qed.

(** The same for the loop over the requested outputs. *)
Lemma resolve_outputs_raise (fuel : nat) (output_cols : list string) (s : rstate)
    (e : exn) :
  forallb colon_free output_cols = true → inv env st0 s →
  for_each (_resolve_feature env fuel) output_cols s = Raise e →
  e = RecursionError ∨
  ∃ o h, o ∈ output_cols ∧ rtc (depends env st0) o h ∧ classify env st0 h = Broken e.
Proof.
  revert s. induction output_cols as [|f fs IH]; intros s Hnamed Hinv Hrun; [done|].
  simpl in Hnamed, Hrun. apply andb_true_iff in Hnamed as [Hf Hnamed].
  apply bind_raise_inv in Hrun as [Hstep | (s1 & Hstep & Hrest)].
  - destruct (resolve_raise _ _ _ _ Hf Hinv Hstep) as [-> | (h & Hh & He)]; [by left|].
    right. exists f, h. split; [left | done].
  - destruct (resolve_visited _ _ _ _ Hf Hinv Hstep) as (Hinv1 & _).
    destruct (IH _ Hnamed Hinv1 Hrest) as [-> | (o & h & Ho & Hh & He)]; [by left|].
    right. exists o, h. split; [by right | done].
Qed.

End resolution.

(** ** DependencyResolver: the execution sequence *)

Section topological.
Import Store Resolver ResolverInv.

Lemma well_named_inv (env : resolver_env) (output_cols : list string)
    (st : FeatureStore) :
  well_named env output_cols st = true →
  forallb colon_free output_cols = true ∧
  disk_named env ∧
  inv env st {| store := st; input_cols := []; exec_seq := [] |}.
Proof.
  unfold well_named. rewrite !andb_true_iff, !bool_decide_eq_true.
  intros [[Hout Hstore] Hdisk]. split; [done|]. split; [done|].
  split; [apply grows_refl|]. split; [done|]. intros f Hf. by inversion Hf.
Qed.

Lemma resolve_dependencies_inv (env : resolver_env) (fuel : nat)
    (output_cols : list string) (st : FeatureStore) (s : rstate) :
  well_named env output_cols st = true →
  resolve_dependencies env fuel output_cols st = Ok s →
  inv env st s ∧
  ∀ f, f ∈ output_cols → classify env st f = Input ∨ f ∈ exec_seq s.
Proof.
  intros Hnamed Hrun. apply well_named_inv in Hnamed as (Hout & Hdisk & Hinv).
  by eapply resolve_outputs_inv.
Qed.

(** X24. The order of the execution sequence for names that are identifiers.
    In every plan [resolve_dependencies] returns, when the requested
    outputs and the arguments of the definitions contain no ':': for every
    feature [f] of [exec_seq] and every
    argument [a] of the definition registered for [f] that is itself in
    [exec_seq] and is not a group-by column, [a] comes strictly before [f]
    in [exec_seq]. *)
Theorem exec_seq_topological (env : resolver_env) (fuel : nat)
    (output_cols : list string) (st : FeatureStore) (s : rstate) :
  well_named env output_cols st = true →
  resolve_dependencies env fuel output_cols st = Ok s →
  ∀ f d a,
    f ∈ exec_seq s →
    get_feature (store s) f None = Some d →
    a ∈ arg_list d →
    a ∉ group_by env →
    a ∈ exec_seq s →
    ∃ i j, index_of a (exec_seq s) = Some i ∧
           index_of f (exec_seq s) = Some j ∧ i < j.
Proof.
  intros Hnamed Hrun f d a Hf Hget Ha Hgb Hin.
  destruct (resolve_dependencies_inv _ _ _ _ _ Hnamed Hrun) as [(_ & _ & Hexec) _].
  destruct (Hexec f Hf) as (_ & d' & _ & Hget' & Hdeps).
  assert (d' = d) as -> by congruence.
  destruct (Hdeps a Ha Hgb) as [Hpre | Hinput]; [done|].
  destruct (Hexec a Hin) as (_ & da & Hclass & _). congruence.
Qed.

(** The functional test of the resolver: "base_feature" is placed before
    "derived_feature", which reads it. *)
Lemma exec_seq_topological_witness :
  ∃ s,
    resolve_dependencies Examples.test_env 1000 ["derived_feature"%string]
      Examples.test_store = Ok s ∧
    exec_seq s = ["base_feature"; "derived_feature"]%string ∧
    input_cols s = ["col1"; "col2"]%string ∧
    ∃ i j, index_of "base_feature" (exec_seq s) = Some i ∧
           index_of "derived_feature" (exec_seq s) = Some j ∧ i < j.
Proof.
  destruct (resolve_dependencies Examples.test_env 1000 ["derived_feature"%string]
              Examples.test_store) as [s|e] eqn:Hrun;
    [|vm_compute in Hrun; discriminate].
  pose proof (exec_seq_topological Examples.test_env 1000 ["derived_feature"%string]
                Examples.test_store s eq_refl Hrun
                "derived_feature"%string
                (DefCallable ["base_feature"; "col2"]%string None)
                "base_feature"%string) as Hbefore.
  vm_compute in Hrun. injection Hrun as <-.
  exists {| store := Examples.test_store;
            input_cols := ["col1"; "col2"]%string;
            exec_seq := ["base_feature"; "derived_feature"]%string |}.
  split; [vm_compute; reflexivity|]. split; [reflexivity|]. split; [reflexivity|].
  apply Hbefore.
  - apply list_elem_of_further, list_elem_of_here.
  - vm_compute. reflexivity.
  - apply list_elem_of_here.
  - intros Hin. inversion Hin.
  - apply list_elem_of_here.
Defined.

(** C2. The order fails when a requested output is spelled like a key of
    the store. With the feature "total" registered for the model "sales"
    (key "sales:total") and the outputs "sales:total" and "total": the
    first visit finds the key itself as a feature that reads "price" and
    places it; the visit of "total" fetches the version on disk, which
    overwrites the key with a definition that reads "rate", and places
    "rate" and "total". In the plan returned the definition registered for
    "sales:total" has the argument "rate", a feature of [exec_seq] that is
    neither an input column nor a group-by column, and "rate" comes after
    "sales:total". *)
Lemma exec_seq_order_lost_on_key_collision :
  ∃ s,
    resolve_dependencies Examples.scoped_env 1000 ["sales:total"; "total"]%string
      Examples.scoped_store = Ok s ∧
    exec_seq s = ["sales:total"; "rate"; "total"]%string ∧
    input_cols s = ["price"%string] ∧
    get_feature (store s) "sales:total" None
    = Some (DefDict "def total(rate): return rate" (Some ["rate"%string])) ∧
    ("rate"%string ∉ group_by Examples.scoped_env) ∧
    index_of "sales:total" (exec_seq s) = Some 0 ∧
    index_of "rate" (exec_seq s) = Some 1.
Proof.
  destruct (resolve_dependencies Examples.scoped_env 1000
              ["sales:total"; "total"]%string Examples.scoped_store)
    as [s|e] eqn:Hrun; [|vm_compute in Hrun; discriminate].
  exists s. split; [reflexivity|].
  vm_compute in Hrun. injection Hrun as <-.
  repeat split; try (vm_compute; reflexivity).
  intros Hin. inversion Hin.
Qed.

End topological.

(** ** DependencyResolver: cycles and the recursion limit *)

Section cycles.
Import Store Resolver ResolverInv.
Context (env : resolver_env) (st : FeatureStore).

Lemma index_of_Some_elem (x : string) (l : list string) (i : nat) :
  index_of x l = Some i → x ∈ l.
Proof.
  revert i. induction l as [|y l IH]; intros i; simpl; [done|].
  case_bool_decide as Hxy; [intros _; subst; left|].
  destruct (index_of x l) as [j|]; [|done]. intros _. right. by eapply IH.
Qed.

Lemma precedes_trans (a b c : string) (l : list string) :
  precedes a b l → precedes b c l → precedes a c l.
Proof.
  intros (i & j & Hi & Hj & Hij) (j' & k & Hj' & Hk & Hjk).
  exists i, k. repeat split; [done | done |]. simplify_eq. lia.
Qed.

Lemma precedes_irrefl (a : string) (l : list string) : ¬ precedes a a l.
Proof. intros (i & j & Hi & Hj & Hij). simplify_eq. lia. Qed.

Lemma tc_depends_feature (x y : string) :
  tc (depends env st) x y → ∃ d, classify env st x = Feature d.
Proof. intros H. destruct H as [x y (d & Hd & _) | x y z (d & Hd & _) _]; eauto. Qed.

(** In the state of a returned plan, what a placed feature depends on,
    directly or not, is placed before it when it is a feature. *)
Lemma placed_before (s : rstate) (x y : string) :
  inv env st s → tc (depends env st) x y →
  x ∈ exec_seq s → (∃ d, classify env st y = Feature d) →
  y ∈ exec_seq s ∧ precedes y x (exec_seq s).
Proof.
  intros (_ & _ & Hexec) Htc. induction Htc as [x y Hdep | x z y Hdep Htc IH];
    intros Hx [dy Hy].
  - destruct Hdep as (d & Hd & Ha & Hgb).
    destruct (Hexec x Hx) as (_ & d' & Hd' & _ & Hdeps).
    assert (d' = d) as -> by congruence.
    destruct (Hdeps y Ha Hgb) as [Hpre | Hinput]; [|congruence].
    split; [|done]. destruct Hpre as (i & _ & Hi & _). by eapply index_of_Some_elem.
  - destruct Hdep as (d & Hd & Ha & Hgb).
    destruct (Hexec x Hx) as (_ & d' & Hd' & _ & Hdeps).
    assert (d' = d) as -> by congruence.
    destruct (tc_depends_feature _ _ Htc) as [dz Hz].
    destruct (Hdeps z Ha Hgb) as [Hpre | Hinput]; [|congruence].
    assert (z ∈ exec_seq s) as Hzin.
    { destruct Hpre as (i & _ & Hi & _). by eapply index_of_Some_elem. }
    destruct (IH Hzin) as [Hyin Hyz]; [eauto|].
    split; [done | by eapply precedes_trans].
Qed.

(** No plan is returned when a requested output reaches a cycle. *)
Lemma no_plan_on_cycle (fuel : nat) (output_cols : list string) (f g : string)
    (s : rstate) :
  well_named env output_cols st = true →
  f ∈ output_cols →
  rtc (depends env st) f g → tc (depends env st) g g →
  resolve_dependencies env fuel output_cols st ≠ Ok s.
Proof.
  intros Hnamed Hf Hfg Hgg Hrun.
  destruct (resolve_dependencies_inv _ _ _ _ _ Hnamed Hrun) as [Hinv Hplaced].
  pose proof (tc_depends_feature _ _ Hgg) as Hg.
  assert (g ∈ exec_seq s) as Hgin.
  { apply rtc_tc in Hfg as [-> | Hfg].
    - destruct (Hplaced g Hf) as [Hinput | Hin]; [|done].
      destruct Hg as [d Hd]. congruence.
    - destruct (tc_depends_feature _ _ Hfg) as [df Hdf].
      destruct (Hplaced f Hf) as [Hinput | Hin]; [congruence|].
      by destruct (placed_before s f g Hinv Hfg Hin Hg). }
  destruct (placed_before s g g Hinv Hgg Hgin Hg) as [_ Hpre].
  by apply precedes_irrefl in Hpre.
Qed.

(** What is reached from a name that is an input column or placed is an
    input column or placed. *)
Lemma reached_placed (s : rstate) (x y : string) :
  inv env st s → rtc (depends env st) x y →
  classify env st x = Input ∨ x ∈ exec_seq s →
  classify env st y = Input ∨ y ∈ exec_seq s.
Proof.
  intros (_ & _ & Hexec) Hrtc. induction Hrtc as [x | x z y Hdep Hrtc IH]; [done|].
  intros Hx. apply IH. destruct Hdep as (d & Hd & Ha & Hgb).
  destruct Hx as [Hx | Hx]; [congruence|].
  destruct (Hexec x Hx) as (_ & d' & Hd' & _ & Hdeps).
  assert (d' = d) as -> by congruence.
  destruct (Hdeps z Ha Hgb) as [Hpre | Hinput]; [right | by left].
  destruct Hpre as (i & _ & Hi & _). by eapply index_of_Some_elem.
Qed.

(** When a plan is returned, every lookup of a reached name has
    succeeded. *)
Lemma plan_lookups (fuel : nat) (output_cols : list string) (s : rstate)
    (h : string) (e : exn) :
  well_named env output_cols st = true →
  resolve_dependencies env fuel output_cols st = Ok s →
  reached env st output_cols h →
  classify env st h ≠ Broken e.
Proof.
  intros Hnamed Hrun (o & Ho & Hrtc) He.
  destruct (resolve_dependencies_inv _ _ _ _ _ Hnamed Hrun) as [Hinv Hplaced].
  destruct (reached_placed s o h Hinv Hrtc (Hplaced o Ho)) as [Hin | Hin];
    [congruence|].
  destruct Hinv as (_ & _ & Hexec).
  destruct (Hexec h Hin) as (_ & d & Hd & _). congruence.
Qed.

(** What [closed_nodes] and [ranked_on] establish. *)
Lemma closed_nodes_reached (nodes output_cols : list string) (h : string) :
  closed_nodes env st nodes output_cols = true →
  reached env st output_cols h → h ∈ nodes.
Proof.
  unfold closed_nodes. rewrite andb_true_iff, !forallb_forall.
  intros [Hout Hclosed] (o & Ho & Hrtc).
  assert (o ∈ nodes) as Hin.
  { apply list_elem_of_In, Hout in Ho. by apply bool_decide_eq_true in Ho. }
  clear Ho Hout. induction Hrtc as [x | x y z Hdep Hrtc IH]; [done|].
  apply IH. destruct Hdep as (d & Hd & Ha & Hgb).
  apply list_elem_of_In, Hclosed in Hin. rewrite Hd, forallb_forall in Hin.
  apply list_elem_of_In, Hin in Ha.
  apply orb_true_iff in Ha as [Ha | Ha]; apply bool_decide_eq_true in Ha; done.
Qed.

Lemma ranked_on_reached (rank : string → nat) (nodes output_cols : list string) :
  closed_nodes env st nodes output_cols = true →
  ranked_on env st rank nodes = true →
  ranked_reached env st output_cols rank.
Proof.
  intros Hclosed Hranked h Hh.
  pose proof (closed_nodes_reached _ _ _ Hclosed Hh) as Hin.
  unfold ranked_on in Hranked. rewrite forallb_forall in Hranked.
  apply list_elem_of_In, Hranked in Hin.
  destruct (classify env st h) as [|d|e]; [done | | done].
  intros a Ha Hgb. rewrite forallb_forall in Hin.
  apply list_elem_of_In, Hin in Ha.
  apply orb_true_iff in Ha as [Ha | Ha]; apply bool_decide_eq_true in Ha; done.
Qed.

End cycles.

Section acyclic.
Import Store Resolver ResolverInv.
Context (env : resolver_env) (st0 : FeatureStore) (output_cols : list string)
  (rank : string → nat).
Hypothesis Hdisk : disk_named env.
Hypothesis Hranked : ranked_reached env st0 output_cols rank.

Lemma reached_step (f a : string) :
  reached env st0 output_cols f → depends env st0 f a →
  reached env st0 output_cols a.
Proof. intros (o & Ho & Hrtc) Hdep. exists o. split; [done | by eapply rtc_r]. Qed.

Lemma resolve_input (fuel : nat) (f : string) (s : rstate) :
  classify env (store s) f = Input →
  _resolve_feature env (S fuel) f s = Ok (add_input f s).
Proof.
  simpl. unfold classify.
  destruct (bool_decide (f ∈ available_cols env)); [done|].
  destruct (fetch env f (store s)) as [[st1|]|e]; simpl; [|done..].
  by destruct (get_feature st1 f None).
Qed.

Lemma resolve_feature (fuel : nat) (f : string) (s : rstate) (d : feature_def) :
  classify env (store s) f = Feature d →
  ∃ st1,
    fetch env f (store s) = Ok (Some st1) ∧
    get_feature st1 f None = Some d ∧
    _resolve_feature env (S fuel) f s
    = (s2 ← resolve_args env fuel (arg_list d)
              {| store := st1; input_cols := input_cols s; exec_seq := exec_seq s |};
       Ok (add_exec f s2)).
Proof.
  simpl. unfold classify.
  destruct (bool_decide (f ∈ available_cols env)); [done|].
  destruct (fetch env f (store s)) as [[st1|]|e]; simpl; [|done..].
  destruct (get_feature st1 f None) as [d'|] eqn:Hget; [|done].
  intros [= <-]. by exists st1.
Qed.

Lemma resolve_args_total (fuel : nat) :
  (∀ f s, colon_free f = true → inv env st0 s →
          reached env st0 output_cols f → rank f < fuel →
          ∃ s', _resolve_feature env fuel f s = Ok s') →
  ∀ args s,
    forallb colon_free args = true → inv env st0 s →
    (∀ a, a ∈ args → a ∉ group_by env →
          reached env st0 output_cols a ∧ rank a < fuel) →
    ∃ s', resolve_args env fuel args s = Ok s'.
Proof.
  intros IHfuel args. induction args as [|arg args IH]; intros s Hnamed Hinv Hrank.
  { by exists s. }
  simpl in Hnamed. apply andb_true_iff in Hnamed as [Harg Hnamed].
  unfold resolve_args; simpl. fold (resolve_args env fuel args).
  assert (∀ a, a ∈ args → a ∉ group_by env →
               reached env st0 output_cols a ∧ rank a < fuel) as Hrank'.
  { intros a Ha. apply Hrank. by right. }
  case_bool_decide as Hgb; simpl; [by apply IH|].
  destruct (Hrank arg) as [Hreach Hlt]; [left | done |].
  destruct (IHfuel arg s Harg Hinv Hreach Hlt) as [s1 Hs1].
  rewrite Hs1. simpl.
  destruct (resolve_visited env st0 Hdisk _ _ _ _ Harg Hinv Hs1) as (Hinv1 & _).
  by apply IH.
Qed.

(** Where the reached part of the graph is ranked, a visit of a reached
    name returns as soon as the recursion limit exceeds its rank. *)
Lemma resolve_total (fuel : nat) (f : string) (s : rstate) :
  colon_free f = true → inv env st0 s →
  reached env st0 output_cols f → rank f < fuel →
  ∃ s', _resolve_feature env fuel f s = Ok s'.
Proof.
  revert f s. induction fuel as [|fuel IHfuel]; intros f s Hcf Hinv Hreach Hrank; [lia|].
  pose proof Hinv as (Hg0 & Hargs & _).
  pose proof (Hranked f Hreach) as Hspec.
  pose proof (proj1 Hg0 f Hcf) as Hsame.
  destruct (classify env (store s) f) as [|d|e] eqn:Hclass;
    rewrite <- Hsame in Hspec; [| |done].
  { rewrite resolve_input by done. eauto. }
  destruct (resolve_feature fuel f s d Hclass) as (st1 & Hfetch & Hget & ->).
  pose proof (fetch_grows env Hdisk _ _ _ Hcf Hfetch) as Hg1.
  pose proof (inv_grows env st0 _ _ Hinv Hg1) as Hinv1.
  assert (args_named d) as Hnamed.
  { eapply get_feature_named; [|done]. by apply Hg1. }
  destruct (resolve_args_total fuel IHfuel (arg_list d) _ Hnamed Hinv1) as [s2 ->].
  - intros a Ha Hgb. specialize (Hspec a Ha Hgb). split; [|lia].
    apply (reached_step f); [done|]. exists d. by rewrite <- Hsame.
  - simpl. eauto.
Qed.

Lemma resolve_outputs_total (fuel : nat) (fs : list string) (s : rstate) :
  fs ⊆ output_cols →
  forallb colon_free fs = true → inv env st0 s →
  forallb (fun f => bool_decide (rank f < fuel)) fs = true →
  ∃ s', for_each (_resolve_feature env fuel) fs s = Ok s'.
Proof.
  revert s. induction fs as [|f fs IH]; intros s Hsub Hnamed Hinv Hrank.
  { by exists s. }
  simpl in *. apply andb_true_iff in Hnamed as [Hf Hnamed].
  apply andb_true_iff in Hrank as [Hrf Hrank]. apply bool_decide_eq_true in Hrf.
  assert (reached env st0 output_cols f) as Hreach.
  { exists f. split; [apply Hsub; left | done]. }
  destruct (resolve_total fuel f s Hf Hinv Hreach Hrf) as [s1 Hs1]. rewrite Hs1. simpl.
  destruct (resolve_visited env st0 Hdisk _ _ _ _ Hf Hinv Hs1) as (Hinv1 & _).
  apply IH; try done. intros x Hx. apply Hsub. by right.
Qed.

End acyclic.

Section distinct.
Import Store Resolver ResolverInv.
Context (env : resolver_env).

Lemma append_new_NoDup (x : string) (l : list string) :
  NoDup l → NoDup (append_new x l).
Proof.
  intros Hl. unfold append_new. case_bool_decide as Hx; [done|].
  apply NoDup_app. split; [done|]. split; [|apply NoDup_singleton].
  intros y Hy Hy'. apply list_elem_of_singleton in Hy' as ->. done.
Qed.

(** The two accumulators never hold a name twice. *)
Lemma resolve_NoDup (fuel : nat) (f : string) (s s' : rstate) :
  NoDup (exec_seq s) ∧ NoDup (input_cols s) →
  _resolve_feature env fuel f s = Ok s' →
  NoDup (exec_seq s') ∧ NoDup (input_cols s').
Proof.
  revert f s s'. induction fuel as [|fuel IHfuel]; intros f s s' [He Hi] Hrun; [done|].
  apply resolve_ok_inv in Hrun as [[_ ->] | (st1 & d & s2 & _ & _ & _ & Hargs & ->)].
  { simpl. split; [done | by apply append_new_NoDup]. }
  unfold resolve_args in Hargs.
  apply (for_each_invariant (fun t => NoDup (exec_seq t) ∧ NoDup (input_cols t)))
    in Hargs as [He2 Hi2]; [| |by split].
  - simpl. split; [by apply append_new_NoDup | done].
  - intros a t t' _ Ht Hstep. cbv beta in Hstep.
    case_bool_decide; [by injection Hstep as <- | by eapply IHfuel].
Qed.

Lemma resolve_dependencies_NoDup (fuel : nat) (output_cols : list string)
    (st : FeatureStore) (s : rstate) :
  resolve_dependencies env fuel output_cols st = Ok s →
  NoDup (exec_seq s) ∧ NoDup (input_cols s).
Proof.
  unfold resolve_dependencies. intros Hrun.
  apply (for_each_invariant (fun t => NoDup (exec_seq t) ∧ NoDup (input_cols t)))
    in Hrun; [done | |].
  - intros f t t' _ Ht Hstep. by eapply resolve_NoDup.
  - simpl. split; apply NoDup_nil_2.
Qed.

End distinct.

Section termination.
Import Store Resolver ResolverInv.

(** C3, as the code has it. [resolve_dependencies] is a total function of
    its inputs and of the recursion limit: it returns a plan or raises.
    With names that are identifiers, and for the names reached from the
    requested outputs (an output, or an argument outside the group-by
    columns of a reached feature):
    (1) whatever is raised is RecursionError or what the failing lookup of
    a reached name raises (FileNotFoundError for a feature of the index
    whose files are missing, AttributeError for a feature the lookup does
    not return);
    (2) when a reached feature depends on itself, directly or through
    other features, no plan is returned, whatever the recursion limit: the
    call raises, and it raises RecursionError when no lookup of a reached
    name fails;
    (3) when the lookups of the reached names succeed and some rank
    decreases from every reached feature to its arguments (no reached
    cycle), a plan is returned as soon as the recursion limit exceeds the
    ranks of the requested outputs: its [exec_seq] has no duplicate and
    holds every requested output that is a feature;
    (4) when a plan is returned, no lookup of a reached name fails and no
    reached feature depends on itself. *)
Theorem resolve_dependencies_cycles (env : resolver_env)
    (output_cols : list string) (st : FeatureStore) :
  well_named env output_cols st = true →
  (∀ fuel e,
     resolve_dependencies env fuel output_cols st = Raise e →
     e = RecursionError ∨
     ∃ h, reached env st output_cols h ∧ classify env st h = Broken e) ∧
  (∀ g fuel,
     reached env st output_cols g → tc (depends env st) g g →
     ∃ e, resolve_dependencies env fuel output_cols st = Raise e ∧
          ((∀ h e', reached env st output_cols h → classify env st h ≠ Broken e') →
           e = RecursionError)) ∧
  (∀ rank fuel,
     ranked_reached env st output_cols rank →
     forallb (fun f => bool_decide (rank f < fuel)) output_cols = true →
     ∃ s, resolve_dependencies env fuel output_cols st = Ok s ∧
          NoDup (exec_seq s) ∧
          ∀ f, f ∈ output_cols → classify env st f = Input ∨ f ∈ exec_seq s) ∧
  (∀ fuel s h,
     resolve_dependencies env fuel output_cols st = Ok s →
     reached env st output_cols h →
     (∀ e, classify env st h ≠ Broken e) ∧ ¬ tc (depends env st) h h).
Proof.
  intros Hnamed.
  pose proof (well_named_inv _ _ _ Hnamed) as (Hout & Hdisk & Hinv).
  assert (∀ fuel e,
            resolve_dependencies env fuel output_cols st = Raise e →
            e = RecursionError ∨
            ∃ h, reached env st output_cols h ∧ classify env st h = Broken e) as Hraise.
  { intros fuel e Hrun.
    destruct (resolve_outputs_raise env st Hdisk _ _ _ _ Hout Hinv Hrun)
      as [-> | (o & h & Ho & Hh & He)]; [by left|].
    right. exists h. split; [by exists o | done]. }
  split; [done|]. split; [|split].
  - intros g fuel (o & Ho & Hog) Hgg.
    destruct (resolve_dependencies env fuel output_cols st) as [s|e] eqn:Hrun.
    { by destruct (no_plan_on_cycle env st fuel output_cols o g s). }
    exists e. split; [done|]. intros Hsound.
    destruct (Hraise fuel e Hrun) as [-> | (h & Hh & He)]; [done|].
    by destruct (Hsound h e Hh).
  - intros rank fuel Hranked Hfuel.
    destruct (resolve_outputs_total env st output_cols rank Hdisk Hranked fuel
                output_cols _ (reflexivity _) Hout Hinv Hfuel) as [s Hrun].
    exists s. split; [done|]. split.
    + by destruct (resolve_dependencies_NoDup env _ _ _ _ Hrun).
    + by destruct (resolve_dependencies_inv _ _ _ _ _ Hnamed Hrun).
  - intros fuel s h Hrun Hh. split.
    + intros e. by eapply plan_lookups.
    + intros Hcycle. destruct Hh as (o & Ho & Hoh).
      by destruct (no_plan_on_cycle env st fuel output_cols o h s).
Qed.

(** The functional test returns a plan already with a recursion limit of
    three (the derived feature, the base feature, a column), also when the
    registry holds a feature that reads itself and that the outputs do not
    reach; that feature, requested, gets RecursionError; and the feature
    that reads a listed feature without files before itself gets the
    FileNotFoundError of that lookup. *)
Lemma resolve_dependencies_cycles_witness :
  (∃ s, resolve_dependencies Examples.test_env 3 ["derived_feature"%string]
          Examples.mixed_store = Ok s) ∧
  resolve_dependencies Examples.test_env 50 ["running_total"%string]
    Examples.looping_store = Raise RecursionError ∧
  ∃ e, resolve_dependencies Examples.ghost_env 50 ["f"%string]
         Examples.ghost_store = Raise e ∧
       (e = RecursionError ∨
        ∃ h, reached Examples.ghost_env Examples.ghost_store ["f"%string] h ∧
             classify Examples.ghost_env Examples.ghost_store h = Broken e).
Proof.
  split; [|split].
  - destruct (resolve_dependencies_cycles Examples.test_env
                ["derived_feature"%string] Examples.mixed_store eq_refl)
      as (_ & _ & Hplan & _).
    destruct (Hplan (fun f => if String.eqb f "derived_feature" then 2
                              else if String.eqb f "base_feature" then 1 else 0) 3)
      as (s & Hs & _).
    + apply (ranked_on_reached _ _ _
               ["derived_feature"; "base_feature"; "col1"; "col2"]%string).
      * vm_compute. reflexivity.
      * vm_compute. reflexivity.
    + vm_compute. reflexivity.
    + by exists s.
  - destruct (resolve_dependencies_cycles Examples.test_env
                ["running_total"%string] Examples.looping_store eq_refl)
      as (_ & Hcycle & _).
    destruct (Hcycle "running_total"%string 50) as (e & -> & He).
    + exists "running_total"%string. split; [apply list_elem_of_here | apply rtc_refl].
    + apply tc_once.
      exists (DefCallable ["running_total"; "col1"]%string None).
      split; [vm_compute; reflexivity|].
      split; [apply list_elem_of_here|]. intros Hin. inversion Hin.
    + f_equal. apply He. intros h e' Hh.
      apply (closed_nodes_reached _ _ ["running_total"; "col1"]%string) in Hh;
        [|vm_compute; reflexivity].
      apply elem_of_cons in Hh as [-> | Hh]; [vm_compute; discriminate|].
      apply list_elem_of_singleton in Hh as ->. vm_compute. discriminate.
  - destruct (resolve_dependencies_cycles Examples.ghost_env
                ["f"%string] Examples.ghost_store eq_refl)
      as (Hraise & Hcycle & _).
    destruct (Hcycle "f"%string 50) as (e & He & _).
    + exists "f"%string. split; [apply list_elem_of_here | apply rtc_refl].
    + apply tc_once.
      exists (DefCallable ["ghost"; "f"]%string None).
      split; [vm_compute; reflexivity|].
      split; [apply list_elem_of_further, list_elem_of_here|].
      intros Hin. inversion Hin.
    + exists e. split; [done|]. by apply (Hraise 50).
Defined.

(** The claim of C3 read literally fails: with the recursion limit of the
    interpreter, the feature that lists itself as an argument makes the
    resolution raise RecursionError instead of returning a plan. *)
Lemma resolve_dependencies_recursion_error :
  resolve_dependencies Examples.test_env 1000 ["running_total"%string]
    Examples.looping_store = Raise RecursionError.
Proof. vm_compute. reflexivity. Qed.

(** With a listed feature whose files are missing read before the cycle,
    the same call raises the FileNotFoundError of that lookup. *)
Lemma resolve_dependencies_missing_files :
  resolve_dependencies Examples.ghost_env 1000 ["f"%string] Examples.ghost_store
  = Raise (FileNotFoundError "ghost").
Proof. vm_compute. reflexivity. Qed.

End termination.

(** ** DependencyResolver: the recursion limit *)

Section limit.
Import Store Resolver ResolverInv.
Context (env : resolver_env).

(** A loop whose body is replaced by one that agrees with it wherever it
    does not raise RecursionError. *)
Lemma for_each_stable {A S : Type} (body body' : A → S → res S) (xs : list A)
    (s : S) (r : res S) :
  (∀ a t r, body a t = r → r ≠ Raise RecursionError → body' a t = r) →
  for_each body xs s = r → r ≠ Raise RecursionError → for_each body' xs s = r.
Proof.
  intros Hbody. revert s. induction xs as [|x xs IH]; intros s Hrun Hr; simpl in *; [done|].
  destruct (body x s) as [s1|e] eqn:Hstep; simpl in Hrun.
  - rewrite (Hbody x s (Ok s1) Hstep) by done. simpl. by apply IH.
  - subst r. by rewrite (Hbody x s (Raise e) Hstep).
Qed.

Lemma resolve_stable (fuel fuel' : nat) (f : string) (s : rstate) (r : res rstate) :
  fuel ≤ fuel' →
  _resolve_feature env fuel f s = r → r ≠ Raise RecursionError →
  _resolve_feature env fuel' f s = r.
Proof.
  revert fuel' f s r. induction fuel as [|fuel IH]; intros fuel' f s r Hle Hrun Hr.
  { simpl in Hrun. by subst r. }
  destruct fuel' as [|fuel']; [lia|]. simpl in *.
  destruct (bool_decide (f ∈ available_cols env)); [done|].
  destruct (fetch env f (store s)) as [[st1|]|e]; simpl in *; [|done|done].
  destruct (get_feature st1 f None) as [d|]; [|done].
  assert (∀ a t r', (if bool_decide (a ∈ group_by env) then Ok t
                     else _resolve_feature env fuel a t) = r' →
                    r' ≠ Raise RecursionError →
                    (if bool_decide (a ∈ group_by env) then Ok t
                     else _resolve_feature env fuel' a t) = r') as Hbody.
  { intros a t r' Ha Hr'. destruct (bool_decide (a ∈ group_by env)); [done|].
    apply IH; [lia | done..]. }
  match type of Hrun with
  | context [for_each ?b ?l ?t] => destruct (for_each b l t) as [s2|e] eqn:Hargs
  end; simpl in Hrun.
  - rewrite (for_each_stable _ _ _ _ _ Hbody Hargs); done.
  - subst r. rewrite (for_each_stable _ _ _ _ _ Hbody Hargs); done.
Qed.

(** X1. The recursion limit only decides between a plan and
    RecursionError. A plan returned with some room for nested calls is the
    plan returned with more room, and so is every exception but
    RecursionError. *)
Theorem resolve_dependencies_recursion_limit (fuel fuel' : nat)
    (output_cols : list string) (st : FeatureStore) :
  fuel ≤ fuel' →
  (∀ s, resolve_dependencies env fuel output_cols st = Ok s →
        resolve_dependencies env fuel' output_cols st = Ok s) ∧
  (∀ e, resolve_dependencies env fuel output_cols st = Raise e →
        e ≠ RecursionError →
        resolve_dependencies env fuel' output_cols st = Raise e).
Proof.
  intros Hle. unfold resolve_dependencies. split.
  - intros s Hrun. eapply for_each_stable; [|exact Hrun|done].
    intros a t r. by apply resolve_stable.
  - intros e Hrun He. eapply for_each_stable; [|exact Hrun|congruence].
    intros a t r. by apply resolve_stable.
Qed.

End limit.

(** ** DependencyResolver: the shape of a plan *)

Section plan.
Import Store Resolver ResolverInv Tracking.
Context (env : resolver_env).

Lemma append_new_prefix (x : string) (l : list string) : l `prefix_of` append_new x l.
Proof. unfold append_new. case_bool_decide; [done | by apply prefix_app_r]. Qed.

Lemma append_new_elem (x : string) (l : list string) : x ∈ append_new x l.
Proof.
  unfold append_new. case_bool_decide; [done|]. apply elem_of_app. right. left.
Qed.

Lemma append_new_inv (x y : string) (l : list string) :
  y ∈ append_new x l → y ∈ l ∨ y = x.
Proof.
  unfold append_new. case_bool_decide; [by left|].
  rewrite elem_of_app, list_elem_of_singleton. tauto.
Qed.

Lemma resolve_plan_step (fuel : nat) (f : string) (s s' : rstate) :
  _resolve_feature env fuel f s = Ok s' → plan_step env f s s'.
Proof.
  revert f s s'. induction fuel as [|fuel IH]; intros f s s' Hrun; [done|].
  simpl in Hrun.
  case_bool_decide as Hav.
  { injection Hrun as <-. unfold plan_step; simpl.
    split; [apply append_new_prefix|]. split; [done|].
    split; [left; apply append_new_elem|]. split; [by left|].
    intros x Hx. apply elem_of_app in Hx as [Hx | Hx].
    - apply append_new_inv in Hx as [Hx | ->]; [left; apply elem_of_app|]; auto.
    - left. apply elem_of_app. auto. }
  destruct (fetch env f (store s)) as [[st1|]|e]; simpl in Hrun; [| |done].
  2:{ injection Hrun as <-. unfold plan_step; simpl.
    split; [apply append_new_prefix|]. split; [done|].
    split; [left; apply append_new_elem|]. split; [by left|].
    intros x Hx. apply elem_of_app in Hx as [Hx | Hx].
    - apply append_new_inv in Hx as [Hx | ->]; [left; apply elem_of_app|]; auto.
    - left. apply elem_of_app. auto. }
  destruct (get_feature st1 f None) as [d|]; [|done].
  apply bind_ok_inv in Hrun as (s2 & Hargs & [= <-]).
  apply (for_each_invariant
           (fun t =>
              input_cols s `prefix_of` input_cols t ∧
              exec_seq s `prefix_of` exec_seq t ∧
              (∀ x, x ∈ exec_seq t → x ∈ exec_seq s ∨ x ∉ available_cols env) ∧
              (∀ x, x ∈ input_cols t ++ exec_seq t →
                    x ∈ input_cols s ++ exec_seq s ∨ x ∉ group_by env)))
    in Hargs as (Hi & He & Hav2 & Hgb2).
  - unfold plan_step; simpl. split; [done|].
    split; [etrans; [done | apply append_new_prefix]|].
    split; [right; apply append_new_elem|]. split.
    + intros x Hx. apply append_new_inv in Hx as [Hx | ->]; [auto | by right].
    + intros x Hx. apply elem_of_app in Hx as [Hx | Hx].
      * destruct (Hgb2 x) as [?|?]; [apply elem_of_app|..]; auto.
      * apply append_new_inv in Hx as [Hx | ->]; [|auto].
        destruct (Hgb2 x) as [?|?]; [apply elem_of_app|..]; auto.
  - intros a t t' _ (Hi & He & Hav2 & Hgb2) Hstep. cbv beta in Hstep.
    case_bool_decide as Hgb; [by injection Hstep as <-|].
    apply IH in Hstep as (Hi' & He' & _ & Hav' & Hgb').
    split; [by etrans|]. split; [by etrans|]. split.
    + intros x Hx. destruct (Hav' x Hx); auto.
    + intros x Hx. destruct (Hgb' x Hx) as [? | [-> | ?]]; auto.
  - simpl. split; [done|]. split; [done|]. split; [by left | by left].
Qed.

Lemma resolve_outputs_plan (fuel : nat) (output_cols : list string) (s s' : rstate) :
  for_each (_resolve_feature env fuel) output_cols s = Ok s' →
  input_cols s `prefix_of` input_cols s' ∧
  exec_seq s `prefix_of` exec_seq s' ∧
  (∀ f, f ∈ output_cols → f ∈ input_cols s' ∨ f ∈ exec_seq s') ∧
  (∀ x, x ∈ exec_seq s' → x ∈ exec_seq s ∨ x ∉ available_cols env) ∧
  (∀ x, x ∈ input_cols s' ++ exec_seq s' →
        x ∈ input_cols s ++ exec_seq s ∨ x ∈ output_cols ∨ x ∉ group_by env).
Proof.
  revert s. induction output_cols as [|f fs IH]; intros s Hrun; simpl in Hrun.
  - injection Hrun as <-. split; [done|]. split; [done|].
    split; [intros f Hf; by inversion Hf|]. split; by left.
  - apply bind_ok_inv in Hrun as (s1 & Hstep & Hrest).
    apply resolve_plan_step in Hstep as (Hi1 & He1 & Hf1 & Hav1 & Hgb1).
    destruct (IH _ Hrest) as (Hi & He & Hout & Hav & Hgb).
    split; [by etrans|]. split; [by etrans|]. split; [|split].
    + intros g Hg. apply elem_of_cons in Hg as [-> | Hg]; [|by apply Hout].
      destruct Hi as [k ->], He as [k' ->]. rewrite !elem_of_app. tauto.
    + intros x Hx. destruct (Hav x Hx) as [Hx1 | ?]; [|by right]. by apply Hav1.
    + intros x Hx. destruct (Hgb x Hx) as [Hx1 | [? | ?]].
      * destruct (Hgb1 x Hx1) as [? | [-> | ?]]; [by left | right; left; left | by right; right].
      * right. left. by right.
      * by right; right.
Qed.

(** X2. Whatever the names and the store, a plan [resolve_dependencies]
    returns lists no name twice in [input_cols] or in [exec_seq]; every
    requested output is in one of the two lists; no available column of the
    input data is in [exec_seq], and an available column that is requested
    is in [input_cols]; and a group-by column that is not itself requested
    is in neither list. *)
Theorem resolve_dependencies_plan_shape (fuel : nat) (output_cols : list string)
    (st : FeatureStore) (s : rstate) :
  resolve_dependencies env fuel output_cols st = Ok s →
  NoDup (input_cols s) ∧ NoDup (exec_seq s) ∧
  (∀ f, f ∈ output_cols → f ∈ input_cols s ∨ f ∈ exec_seq s) ∧
  (∀ f, f ∈ exec_seq s → f ∉ available_cols env) ∧
  (∀ f, f ∈ output_cols → f ∈ available_cols env → f ∈ input_cols s) ∧
  (∀ g, g ∈ group_by env → g ∉ output_cols →
        (g ∉ input_cols s) ∧ (g ∉ exec_seq s)).
Proof.
  intros Hrun.
  destruct (resolve_dependencies_NoDup env _ _ _ _ Hrun) as [He Hi].
  unfold resolve_dependencies in Hrun.
  apply resolve_outputs_plan in Hrun as (_ & _ & Hout & Hav & Hgb). simpl in *.
  split; [done|]. split; [done|]. split; [done|].
  assert (∀ f, f ∈ exec_seq s → f ∉ available_cols env) as Hnot.
  { intros f Hf. destruct (Hav f Hf) as [Hnil | ?]; [by inversion Hnil | done]. }
  split; [done|]. split.
  - intros f Hf Havail. destruct (Hout f Hf) as [? | Hexec]; [done|].
    by apply Hnot in Hexec.
  - intros g Hg Hnout.
    assert (g ∉ input_cols s ++ exec_seq s) as Hnin.
    { intros Hin. destruct (Hgb g Hin) as [Hnil | [? | ?]]; [by inversion Hnil | done..]. }
    rewrite elem_of_app in Hnin. tauto.
Qed.

(** X3. Requesting more outputs only extends a plan: the two lists for the
    outputs [outs1] are the beginnings of the two lists for
    [outs1 ++ outs2]. *)
Theorem resolve_dependencies_more_outputs (fuel : nat) (outs1 outs2 : list string)
    (st : FeatureStore) (s : rstate) :
  resolve_dependencies env fuel (outs1 ++ outs2) st = Ok s →
  ∃ s1, resolve_dependencies env fuel outs1 st = Ok s1 ∧
        input_cols s1 `prefix_of` input_cols s ∧
        exec_seq s1 `prefix_of` exec_seq s ∧
        for_each (_resolve_feature env fuel) outs2 s1 = Ok s.
Proof.
  unfold resolve_dependencies. rewrite for_each_app. intros Hrun.
  apply bind_ok_inv in Hrun as (s1 & H1 & H2). exists s1. split; [done|].
  by destruct (resolve_outputs_plan _ _ _ _ H2) as (? & ? & _).
Qed.

End plan.

(** ** DependencyResolver: the registry and the two lists *)

Section registry_effect.
Import Store Resolver ResolverInv Tracking.
Context (env : resolver_env).

(** The key a fetch of [f] writes when the store is [st]. *)
Lemma fetch_writes (f : string) (st st1 : FeatureStore) :
  fetch env f st = Ok (Some st1) →
  current_model st1 = current_model st ∧
  (st1 = st ∨
   ∃ udf args,
     has_feature st f = false ∧ f ∈ feat_idx env ∧
     disk env !! f = Some (udf, args) ∧
     features st1
     = <[key_of (py_or (Some (model env)) (current_model st)) f
           := DefDict udf (Some args)]> (features st)).
Proof.
  unfold fetch. destruct (has_feature st f) eqn:Hhas.
  { intros [= <-]. split; [done | by left]. }
  case_bool_decide as Hidx; [|done]. intros H.
  apply bind_ok_inv in H as (st' & Hload & [= <-]).
  unfold load_from_filesystem in Hload.
  destruct (disk env !! f) as [[udf args]|] eqn:Hd; [|done].
  injection Hload as <-. split; [done|]. right. by exists udf, args.
Qed.

Lemma only_fetched_refl (st : FeatureStore) : only_fetched env st st.
Proof. split; [done|]. intros k. by left. Qed.

Lemma only_fetched_trans (st1 st2 st3 : FeatureStore) :
  only_fetched env st1 st2 → only_fetched env st2 st3 → only_fetched env st1 st3.
Proof.
  intros [Hm1 H1] [Hm2 H2]. split; [congruence|]. intros k.
  destruct (H2 k) as [Heq | (f & udf & args & Hf & Hd & Hk & Hv)].
  - destruct (H1 k) as [Heq1 | (f & udf & args & Hf & Hd & Hk & Hv)].
    + left. congruence.
    + right. exists f, udf, args. rewrite Heq. done.
  - right. exists f, udf, args. rewrite <- Hm1. done.
Qed.

Lemma fetch_only_fetched (f : string) (st st1 : FeatureStore) :
  fetch env f st = Ok (Some st1) → only_fetched env st st1.
Proof.
  intros Hf. apply fetch_writes in Hf as [Hm [-> | (udf & args & _ & Hidx & Hd & Hfeat)]].
  { apply only_fetched_refl. }
  split; [done|]. intros k. rewrite Hfeat.
  destruct (decide (k = key_of (py_or (Some (model env)) (current_model st)) f)) as [->|Hne].
  - right. exists f, udf, args. by rewrite lookup_insert_eq.
  - left. by rewrite lookup_insert_ne.
Qed.

Lemma resolve_only_fetched (fuel : nat) (f : string) (s s' : rstate) :
  _resolve_feature env fuel f s = Ok s' → only_fetched env (store s) (store s').
Proof.
  revert f s s'. induction fuel as [|fuel IH]; intros f s s' Hrun; [done|].
  simpl in Hrun. case_bool_decide.
  { injection Hrun as <-. apply only_fetched_refl. }
  destruct (fetch env f (store s)) as [[st1|]|e] eqn:Hfetch; simpl in Hrun; [| |done].
  2:{ injection Hrun as <-. apply only_fetched_refl. }
  destruct (get_feature st1 f None) as [d|]; [|done].
  apply bind_ok_inv in Hrun as (s2 & Hargs & [= <-]). simpl.
  apply fetch_only_fetched in Hfetch.
  apply (for_each_invariant (fun t => only_fetched env (store s) (store t))) in Hargs; [done| |done].
  intros a t t' _ Ht Hstep. cbv beta in Hstep.
  case_bool_decide; [by injection Hstep as <-|].
  eapply only_fetched_trans; [done | by eapply IH].
Qed.

(** X4. Resolving dependencies changes the registry only by fetching: the
    model in force is kept, no key is removed, and a key whose definition
    differs afterwards is the key "model:f" of a feature [f] of the
    feature index, now holding the dict read from disk. *)
Theorem resolve_dependencies_registry (fuel : nat) (output_cols : list string)
    (st : FeatureStore) (s : rstate) :
  resolve_dependencies env fuel output_cols st = Ok s →
  current_model (store s) = current_model st ∧
  dom (features st) ⊆ dom (features (store s)) ∧
  ∀ k, features (store s) !! k = features st !! k ∨
       ∃ f udf args,
         f ∈ feat_idx env ∧ disk env !! f = Some (udf, args) ∧
         k = key_of (py_or (Some (model env)) (current_model st)) f ∧
         features (store s) !! k = Some (DefDict udf (Some args)).
Proof.
  unfold resolve_dependencies. intros Hrun.
  apply (for_each_invariant (fun t => only_fetched env st (store t))) in Hrun.
  - destruct Hrun as [Hm Hk]. split; [done|]. split; [|done].
    intros k. rewrite !elem_of_dom. intros [d Hd].
    destruct (Hk k) as [-> | (f & udf & args & _ & _ & _ & ->)]; eauto.
  - intros f t t' _ Ht Hstep. eapply only_fetched_trans; [done|].
    by eapply resolve_only_fetched.
  - apply only_fetched_refl.
Qed.

End registry_effect.

Section separation.
Import Store Resolver ResolverInv Tracking.
Context (env : resolver_env) (st0 : FeatureStore).
Hypothesis Hdisk : disk_named env.

Lemma resolve_args_inputs (fuel : nat) :
  (∀ f s s', colon_free f = true → inv env st0 s → inputs_ok env st0 s →
             _resolve_feature env fuel f s = Ok s' → inputs_ok env st0 s') →
  ∀ args s s',
    forallb colon_free args = true → inv env st0 s → inputs_ok env st0 s →
    resolve_args env fuel args s = Ok s' → inputs_ok env st0 s'.
Proof.
  intros IH args. induction args as [|a args IHargs]; intros t t' Hnamed Hinv Hin Hrun.
  - by injection Hrun as <-.
  - simpl in Hnamed. apply andb_true_iff in Hnamed as [Ha Hnamed].
    unfold resolve_args in Hrun. simpl in Hrun.
    apply bind_ok_inv in Hrun as (t1 & Hstep & Hrest).
    fold (resolve_args env fuel args t1) in Hrest.
    case_bool_decide as Hgb.
    + injection Hstep as <-. by eapply IHargs.
    + pose proof (resolve_visited env st0 Hdisk _ _ _ _ Ha Hinv Hstep) as (Hinv2 & _).
      exact (IHargs t1 t' Hnamed Hinv2 (IH _ _ _ Ha Hinv Hin Hstep) Hrest).
Qed.

Lemma resolve_inputs (fuel : nat) (f : string) (s s' : rstate) :
  colon_free f = true → inv env st0 s → inputs_ok env st0 s →
  _resolve_feature env fuel f s = Ok s' → inputs_ok env st0 s'.
Proof.
  revert f s s'. induction fuel as [|fuel IH]; intros f s s' Hcf Hinv Hin Hrun; [done|].
  pose proof Hinv as (Hg0 & Hargs & _).
  assert (classify env st0 f = classify env (store s) f) as Hclass0
    by (symmetry; by apply Hg0).
  apply (resolve_ok_inv env) in Hrun
    as [[Hclass ->] | (st1 & d & s2 & Hfetch & Hget & Hclass & Hrun & ->)].
  { intros x Hx. simpl in Hx. unfold append_new in Hx.
    case_bool_decide; [by apply Hin|].
    apply elem_of_app in Hx as [Hx | Hx]; [by apply Hin|].
    apply list_elem_of_singleton in Hx as ->. congruence. }
  pose proof (fetch_grows env Hdisk _ _ _ Hcf Hfetch) as Hg1.
  pose proof (inv_grows env st0 _ _ Hinv Hg1) as Hinv1.
  assert (args_named d) as Hnamed.
  { eapply get_feature_named; [|done]. by apply Hg1. }
  change (inputs_ok env st0 s2).
  eapply (resolve_args_inputs fuel IH); [exact Hnamed | exact Hinv1 | | exact Hrun].
  done.
Qed.

Lemma resolve_outputs_inputs (fuel : nat) (output_cols : list string) (s s' : rstate) :
  forallb colon_free output_cols = true → inv env st0 s → inputs_ok env st0 s →
  for_each (_resolve_feature env fuel) output_cols s = Ok s' → inputs_ok env st0 s'.
Proof.
  revert s. induction output_cols as [|f fs IH]; intros s Hnamed Hinv Hin Hrun.
  - by injection Hrun as <-.
  - simpl in Hnamed, Hrun. apply andb_true_iff in Hnamed as [Hf Hnamed].
    apply bind_ok_inv in Hrun as (s1 & Hstep & Hrest).
    pose proof (resolve_visited env st0 Hdisk _ _ _ _ Hf Hinv Hstep) as (Hinv1 & _).
    exact (IH s1 Hnamed Hinv1 (resolve_inputs _ _ _ _ Hf Hinv Hin Hstep) Hrest).
Qed.

End separation.

Section separation_thm.
Import Store Resolver ResolverInv Tracking.

(** X5. With names that are identifiers, a returned plan separates the
    names: those in [input_cols] are the ones a visit takes as input
    columns (available, or without definition), those in [exec_seq] the
    ones it finds a definition for, which a lookup in the final registry
    returns; so no name is in both lists. *)
Theorem resolve_dependencies_separates (env : resolver_env) (fuel : nat)
    (output_cols : list string) (st : FeatureStore) (s : rstate) :
  well_named env output_cols st = true →
  resolve_dependencies env fuel output_cols st = Ok s →
  (∀ x, x ∈ input_cols s → classify env st x = Input) ∧
  (∀ f, f ∈ exec_seq s →
        ∃ d, classify env st f = Feature d ∧ get_feature (store s) f None = Some d) ∧
  (∀ x, x ∈ input_cols s → x ∉ exec_seq s).
Proof.
  intros Hnamed Hrun.
  pose proof (well_named_inv _ _ _ Hnamed) as (Hout & Hdisk & Hinv).
  destruct (resolve_dependencies_inv _ _ _ _ _ Hnamed Hrun) as [(_ & _ & Hexec) _].
  assert (∀ x, x ∈ input_cols s → classify env st x = Input) as Hin.
  { eapply (resolve_outputs_inputs env st Hdisk); [done | done | | exact Hrun].
    intros x Hx. by inversion Hx. }
  split; [done|]. split.
  - intros f Hf. destruct (Hexec f Hf) as (_ & d & ? & ? & _). eauto.
  - intros x Hx Hx'. destruct (Hexec x Hx') as (_ & d & Hc & _).
    rewrite (Hin x Hx) in Hc. discriminate.
Qed.

End separation_thm.

Section plan_examples.
Import Store Resolver ResolverInv.

(** The functional test of the resolver needs three nested calls; its plan
    is the same with room for a thousand. *)
Lemma resolve_dependencies_recursion_limit_witness :
  ∃ s, resolve_dependencies Examples.test_env 3 ["derived_feature"%string]
         Examples.test_store = Ok s ∧
       resolve_dependencies Examples.test_env 1000 ["derived_feature"%string]
         Examples.test_store = Ok s.
Proof.
  destruct (resolve_dependencies Examples.test_env 3 ["derived_feature"%string]
              Examples.test_store) as [s|e] eqn:Hrun; [|vm_compute in Hrun; discriminate].
  exists s. split; [reflexivity|].
  destruct (resolve_dependencies_recursion_limit Examples.test_env 3 1000
              ["derived_feature"%string] Examples.test_store) as [Hplan _]; [lia|].
  exact (Hplan s Hrun).
Defined.

(** The plan for "derived_feature" and the column "col1". *)
Lemma resolve_dependencies_plan_shape_witness :
  ∃ s, resolve_dependencies Examples.test_env 1000 ["derived_feature"; "col1"]%string
         Examples.test_store = Ok s ∧
       NoDup (input_cols s) ∧ NoDup (exec_seq s) ∧
       "col1"%string ∈ input_cols s ∧
       ∀ f, f ∈ exec_seq s → f ∉ available_cols Examples.test_env.
Proof.
  destruct (resolve_dependencies Examples.test_env 1000 ["derived_feature"; "col1"]%string
              Examples.test_store) as [s|e] eqn:Hrun; [|vm_compute in Hrun; discriminate].
  destruct (resolve_dependencies_plan_shape Examples.test_env 1000
              ["derived_feature"; "col1"]%string Examples.test_store s Hrun)
    as (Hin & Hex & _ & Hav & Hreq & _).
  exists s. split; [reflexivity|]. split; [exact Hin|]. split; [exact Hex|].
  split; [|exact Hav]. apply Hreq.
  - apply list_elem_of_further, list_elem_of_here.
  - apply list_elem_of_here.
Defined.

(** The plan for "base_feature" is the beginning of the plan for
    "base_feature" and "derived_feature". *)
Lemma resolve_dependencies_more_outputs_witness :
  ∃ s s1,
    resolve_dependencies Examples.test_env 1000
      (["base_feature"%string] ++ ["derived_feature"%string]) Examples.test_store = Ok s ∧
    resolve_dependencies Examples.test_env 1000 ["base_feature"%string]
      Examples.test_store = Ok s1 ∧
    exec_seq s1 `prefix_of` exec_seq s.
Proof.
  destruct (resolve_dependencies Examples.test_env 1000
              (["base_feature"%string] ++ ["derived_feature"%string]) Examples.test_store)
    as [s|e] eqn:Hrun; [|vm_compute in Hrun; discriminate].
  destruct (resolve_dependencies_more_outputs Examples.test_env 1000
              ["base_feature"%string] ["derived_feature"%string] Examples.test_store s Hrun)
    as (s1 & Hs1 & _ & Hpre & _).
  exists s, s1. split; [reflexivity|]. split; [exact Hs1 | exact Hpre].
Defined.

(** Resolving "total" for the model "sales" fetches the version on disk:
    the model in force stays "sales". *)
Lemma resolve_dependencies_registry_witness :
  ∃ s, resolve_dependencies Examples.scoped_env 1000 ["total"%string]
         Examples.scoped_store = Ok s ∧
       current_model (store s) = Some "sales"%string ∧
       dom (features Examples.scoped_store) ⊆ dom (features (store s)).
Proof.
  destruct (resolve_dependencies Examples.scoped_env 1000 ["total"%string]
              Examples.scoped_store) as [s|e] eqn:Hrun; [|vm_compute in Hrun; discriminate].
  destruct (resolve_dependencies_registry Examples.scoped_env 1000 ["total"%string]
              Examples.scoped_store s Hrun) as (Hm & Hdom & _).
  exists s. split; [reflexivity|]. split; [exact Hm | exact Hdom].
Defined.

(** In the functional test the columns are inputs and the two features
    are executed. *)
Lemma resolve_dependencies_separates_witness :
  ∃ s, resolve_dependencies Examples.test_env 1000 ["derived_feature"%string]
         Examples.test_store = Ok s ∧
       (∀ x, x ∈ input_cols s → classify Examples.test_env Examples.test_store x = Input) ∧
       (∀ x, x ∈ input_cols s → x ∉ exec_seq s).
Proof.
  destruct (resolve_dependencies Examples.test_env 1000 ["derived_feature"%string]
              Examples.test_store) as [s|e] eqn:Hrun; [|vm_compute in Hrun; discriminate].
  destruct (resolve_dependencies_separates Examples.test_env 1000
              ["derived_feature"%string] Examples.test_store s eq_refl Hrun)
    as (Hin & _ & Hsep).
  exists s. split; [reflexivity|]. split; [exact Hin | exact Hsep].
Defined.

End plan_examples.

(** ** FeatureStore: bare and scoped keys *)

Section registry.
Import Store Resolver ResolverInv.

Lemma scoped_ne_bare (m name : string) : m +:+ ":" +:+ name ≠ name.
Proof.
  intros Heq. apply (f_equal String.length) in Heq.
  rewrite !string_app_length in Heq. simpl in Heq. lia.
Qed.

Lemma key_of_truthy_ne_bare (model : option string) (name : string) :
  truthy model = true → key_of model name ≠ name.
Proof.
  intros Ht. apply truthy_Some in Ht as (m & -> & Hm).
  rewrite key_of_truthy by done. apply scoped_ne_bare.
Qed.

(** X6. [has_feature] looks at the bare key only. When it answers yes,
    [get_feature] finds a definition whatever model is asked for. The
    converse fails: a definition stored for a model is returned by
    [get_feature] for that model, while [has_feature] answers for every
    name as it did before. *)
Theorem has_feature_bare_key (st : FeatureStore) (name : string) :
  (∀ model, has_feature st name = true → is_Some (get_feature st name model)) ∧
  (∀ d model name',
     truthy (py_or model (current_model st)) = true →
     colon_free name' = true ∨ name' = name →
     has_feature (store_feature st name d model) name' = has_feature st name' ∧
     get_feature (store_feature st name d model) name model = Some d).
Proof.
  split.
  - intros model. unfold has_feature, get_feature.
    rewrite bool_decide_eq_true, elem_of_dom. intros [d Hd].
    destruct (features st !! key_of (py_or model (current_model st)) name)
      as [d'|] eqn:Hk; [eauto|].
    destruct (truthy (py_or model (current_model st))) eqn:Ht; [by rewrite Hd|].
    rewrite key_of_falsy in Hk by done. congruence.
  - intros d model name' Ht Hname'. split.
    + unfold has_feature, store_feature; simpl. apply bool_decide_ext.
      rewrite !elem_of_dom, lookup_insert_ne; [done|].
      destruct Hname' as [Hcf | ->]; [|by apply key_of_truthy_ne_bare].
      apply truthy_Some in Ht as (m & -> & Hm). rewrite key_of_truthy by done.
      by apply colon_free_no_colon.
    + unfold get_feature, store_feature; simpl. by rewrite lookup_insert_eq.
Qed.

Lemma has_feature_bare_key_witness :
  let d := DefCallable ["price"%string] None in
  let st := {| features := ∅; current_model := None |} in
  has_feature (store_feature st "total" d (Some "sales"%string)) "total" = false ∧
  get_feature (store_feature st "total" d (Some "sales"%string)) "total"
    (Some "sales"%string) = Some d.
Proof.
  intros d st.
  destruct (has_feature_bare_key st "total") as [_ H].
  destruct (H d (Some "sales"%string) "total"%string) as [Hhas Hget].
  - reflexivity.
  - by right.
  - split; [|exact Hget]. rewrite Hhas. reflexivity.
Defined.

(** X7. Storing a definition leaves the other names alone, and the other
    models: after [store_feature(name, d, model)], a lookup of another
    identifier returns what it returned before, for every model; and so
    does a lookup of [name] itself for a model [m'] other than the model
    [m] the definition was stored for. *)
Theorem store_feature_frame (st : FeatureStore) (name : string) (d : feature_def)
    (model : option string) :
  (∀ name' model',
     colon_free name = true → colon_free name' = true → name' ≠ name →
     get_feature (store_feature st name d model) name' model'
     = get_feature st name' model') ∧
  (∀ m m' model',
     py_or model (current_model st) = Some m → m ≠ ""%string →
     py_or model' (current_model st) = Some m' → m' ≠ ""%string → m' ≠ m →
     get_feature (store_feature st name d model) name model'
     = get_feature st name model').
Proof.
  split.
  - intros name' model' Hcf Hcf' Hne.
    unfold get_feature, store_feature; simpl.
    rewrite !lookup_insert_ne; [done | |].
    + apply key_of_ne_bare; [done | congruence].
    + apply key_of_ne_key_of; [done | done | congruence].
  - intros m m' model' Hm Hm0 Hm' Hm'0 Hne.
    unfold get_feature, store_feature; simpl. rewrite Hm, Hm'.
    rewrite !key_of_truthy by done.
    rewrite !lookup_insert_ne; [done | apply scoped_ne_bare |].
    intros Heq. apply Hne. symmetry.
    by apply (string_app_inj_r _ _ (":" +:+ name)).
Qed.

Lemma store_feature_frame_witness :
  let own := DefCallable ["in_price"%string] None in
  let st := Examples.scoped_store in
  get_feature (store_feature st "margin" own (Some "sales"%string)) "rate" None
  = get_feature st "rate" None ∧
  get_feature (store_feature st "total" own (Some "stock"%string)) "total" None
  = get_feature st "total" None.
Proof.
  intros own st. split.
  - destruct (store_feature_frame st "margin" own (Some "sales"%string)) as [H _].
    apply H; [reflexivity | reflexivity | discriminate].
  - destruct (store_feature_frame st "total" own (Some "stock"%string)) as [_ H].
    apply (H "stock"%string "sales"%string); [reflexivity | discriminate | reflexivity | discriminate..].
Defined.

End registry.

(** ** GroupByProcessor: what a group returns *)

Section group_shape.
Import Frame Calculator GroupBy.

(** The three ways a step of the single loop returns. *)
Lemma process_feature_ok (cfg : cfg_model) (feature : string) (st st' : group_state) :
  process_feature cfg feature st = Ok st' →
  (has_column feature (data_in st) = true ∧
   st' = add_log (SkippingPresent feature) st) ∨
  (has_column feature (data_in st) = false ∧
   ∃ func args flg scan,
     feature_funcs cfg !! feature = Some func ∧
     feature_args cfg !! feature = Some args ∧
     feature_groupby_flg cfg !! feature = Some flg ∧
     for_each (resolve_arg cfg st feature) args scan_start = Ok scan ∧
     ((in_flg scan && negb flg = true ∧ run_as_filter feature func scan st = Ok st') ∨
      (in_flg scan && negb flg = false ∧
       run_as_attribute feature func flg scan st = Ok st'))).
Proof.
  intros Hstep. destruct (has_column feature (data_in st)) eqn:Hcol.
  { unfold process_feature in Hstep. rewrite Hcol in Hstep. injection Hstep as <-. by left. }
  right. split; [done|].
  unfold process_feature, lookup_cfg in Hstep. rewrite Hcol in Hstep.
  destruct (feature_funcs cfg !! feature) as [func|] eqn:Hfunc; [|done].
  destruct (feature_args cfg !! feature) as [args|] eqn:Hargs; [|done].
  destruct (feature_groupby_flg cfg !! feature) as [flg|] eqn:Hflg; [|done].
  simpl in Hstep. apply bind_ok_inv in Hstep as (scan & Hscan & Hstep).
  exists func, args, flg, scan. repeat (split; [done|]).
  pose proof (scan_ok _ _ _ _ _ _ Hscan) as (Hlen & _). simpl in Hlen.
  rewrite bool_decide_eq_true_2 in Hstep by done. simpl in Hstep.
  destruct (in_flg scan && negb flg); [by left | by right].
Qed.

Lemma process_features_shape (cfg : cfg_model) (features : list string)
    (st st' : group_state) :
  for_each (process_feature cfg) features st = Ok st' →
  nrows (data_in st') = nrows (data_in st) ∧
  ∃ new,
    filters_calculated st' = filters_calculated st ++ new ∧
    column_names (data_in st') = column_names (data_in st) ++ new ∧
    NoDup new ∧
    (∀ f, f ∈ new → f ∈ features ∧ (f ∉ column_names (data_in st)) ∧
                    feature_groupby_flg cfg !! f = Some false ∧
                    ∃ vs, get_column f (data_in st') = Some vs ∧
                          length vs = nrows (data_in st)) ∧
    (∀ f, f ∈ dom (agg_results st') → f ∈ dom (agg_results st) ∨ f ∈ features).
Proof.
  revert st. induction features as [|f fs IH]; intros st Hrun; simpl in Hrun.
  { injection Hrun as <-. split; [done|]. exists []. rewrite !app_nil_r.
    split; [done|]. split; [done|]. split; [apply NoDup_nil_2|].
    split; [intros f Hf; by inversion Hf | by left]. }
  apply bind_ok_inv in Hrun as (st1 & Hstep & Hrest).
  destruct (IH _ Hrest) as (Hrows & new & Hfil & Hcols & Hnd & Hnew & Hagg).
  apply process_feature_ok in Hstep
    as [[Hcol ->] | (Hcol & func & args & flg & scan & Hfunc & Hargs & Hflg & Hscan & Hroute)].
  { simpl in *. split; [done|]. exists new. repeat (split; [done|]). split.
    - intros g Hg. destruct (Hnew g Hg) as (? & ? & ? & ?). repeat split; try done. by right.
    - intros g Hg. destruct (Hagg g Hg); [by left | right; by right]. }
  destruct Hroute as [[Hr Hrun] | [Hr Hrun]].
  - apply run_as_filter_ok in Hrun as (r & _ & Hset & Hagg1 & Hfil1 & _).
    apply setitem_ok in Hset as (Hrows1 & (vs & Hvs & Hlen & _) & Hother & Hnames).
    specialize (Hnames Hcol). unfold has_column in Hcol.
    apply bool_decide_eq_false in Hcol.
    split; [congruence|]. exists (f :: new).
    rewrite Hfil, Hfil1, Hcols, Hnames, <- !app_assoc. simpl.
    split; [done|]. split; [done|].
    assert (f ∉ new) as Hfnew.
    { intros Hin. destruct (Hnew f Hin) as (_ & Hnin & _). apply Hnin.
      rewrite Hnames. apply elem_of_app. right. left. }
    split; [by constructor|]. split.
    + intros g Hg. apply elem_of_cons in Hg as [-> | Hg].
      * split; [left|]. split; [done|]. split.
        { apply andb_true_iff in Hr as [_ Hr]. apply negb_true_iff in Hr. by subst flg. }
        exists vs. split; [|done].
        assert (has_column f (data_in st1) = true) as Hc1 by (apply has_column_get; eauto).
        destruct (process_features_frame _ _ _ _ f Hrest Hc1) as [-> _]. done.
      * destruct (Hnew g Hg) as (? & Hnin & ? & vs' & ? & ?).
        split; [by right|]. split.
        { intros Hin. apply Hnin. rewrite Hnames. apply elem_of_app. by left. }
        split; [done|]. exists vs'. split; [done | congruence].
    + intros g Hg. destruct (Hagg g Hg) as [Hg1 | ?]; [|right; by right].
      left. by rewrite <- Hagg1.
  - apply run_as_attribute_ok in Hrun as (r & _ & Hagg1 & Hdata & Hfil1 & _).
    rewrite Hdata in *. split; [done|]. exists new. rewrite Hfil, Hfil1.
    repeat (split; [done|]). split.
    + intros g Hg. destruct (Hnew g Hg) as (? & ? & ? & ?). repeat split; try done. by right.
    + intros g Hg. destruct (Hagg g Hg) as [Hg1 | ?]; [|right; by right].
      rewrite Hagg1, dom_insert in Hg1. apply elem_of_union in Hg1 as [Hg1 | Hg1].
      * apply elem_of_singleton in Hg1 as ->. right. left.
      * by left.
Qed.

(** X8. What [process_group] hands back for a group: the row table has the
    rows of the group; its columns are the columns of the group, in their
    order and with their cells, followed by the filters computed, in the
    order of [filters_calculated]; no filter is listed twice, each is a
    feature of [exec_seq] that was no column of the group, has the
    aggregation flag false and holds one cell per row; and every key of the
    scalar map is a feature of [exec_seq]. *)
Theorem process_group_shape (cfg : cfg_model) (group_df : DataFrame)
    (final : group_state) :
  process_group cfg group_df = Ok final →
  nrows (data_in final) = nrows group_df ∧
  column_names (data_in final) = column_names group_df ++ filters_calculated final ∧
  NoDup (filters_calculated final) ∧
  (∀ c, has_column c group_df = true →
        get_column c (data_in final) = get_column c group_df) ∧
  (∀ f, f ∈ filters_calculated final →
        f ∈ exec_seq cfg ∧ has_column f group_df = false ∧
        feature_groupby_flg cfg !! f = Some false ∧
        ∃ vs, get_column f (data_in final) = Some vs ∧ length vs = nrows group_df) ∧
  (∀ f, f ∈ dom (agg_results final) → f ∈ exec_seq cfg).
Proof.
  unfold process_group. intros Hrun.
  pose proof (process_features_shape _ _ _ _ Hrun)
    as (Hrows & new & Hfil & Hcols & Hnd & Hnew & Hagg). simpl in *. subst new.
  split; [done|]. split; [done|]. split; [done|]. split; [|split].
  - intros c Hc. by destruct (process_features_frame _ _ _ _ c Hrun Hc).
  - intros f Hf. destruct (Hnew f Hf) as (? & Hnin & ? & ?).
    repeat split; try done. unfold has_column. by apply bool_decide_eq_false.
  - intros f Hf. destruct (Hagg f Hf) as [Hemp | ?]; [|done].
    rewrite dom_empty in Hemp. by apply elem_of_empty in Hemp.
Qed.

End group_shape.

(** ** GroupByProcessor: filters and attributes are apart *)

Section exclusive.
Import Frame Calculator GroupBy Tracking.
Context (cfg : cfg_model).

Lemma settled_no_row_argument (st : group_state) (args : list string) :
  forallb (fun a => from_scalar_map st a || bool_decide (a ∈ ext_cols_list cfg)) args
  = true →
  existsb (from_row_table cfg st) args = false.
Proof.
  rewrite forallb_forall. intros Hall. apply not_true_iff_false.
  rewrite existsb_exists. intros (a & Hin & Ha). specialize (Hall a Hin).
  unfold from_row_table in Ha.
  destruct (from_scalar_map st a), (bool_decide (a ∈ ext_cols_list cfg)); done.
Qed.

Lemma scan_no_row_argument (st : group_state) (feature : string) (args : list string)
    (scan : arg_scan) :
  for_each (resolve_arg cfg st feature) args scan_start = Ok scan →
  in_flg scan = false →
  forallb (fun a => from_scalar_map st a || bool_decide (a ∈ ext_cols_list cfg)) args
  = true.
Proof.
  intros Hscan Hin. apply scan_ok in Hscan as (_ & Hin' & _ & Hun). simpl in Hin'.
  rewrite Hin in Hin'. symmetry in Hin'.
  apply forallb_forall. intros a Ha.
  assert (from_row_table cfg st a = false) as Hrow.
  { apply not_true_iff_false. intros Ht.
    assert (existsb (from_row_table cfg st) args = true); [|congruence].
    apply existsb_exists. eauto. }
  assert (unresolved cfg st a = false) as Hun'.
  { apply not_true_iff_false. intros Ht.
    assert (existsb (unresolved cfg st) args = true); [|congruence].
    apply existsb_exists. eauto. }
  unfold from_row_table, unresolved in *.
  destruct (from_scalar_map st a), (bool_decide (a ∈ ext_cols_list cfg)),
    (has_column a (data_in st)); done.
Qed.

Lemma settled_grows (st st' : group_state) (f : string) :
  dom (agg_results st) ⊆ dom (agg_results st') →
  settled_attribute cfg st f → settled_attribute cfg st' f.
Proof.
  intros Hsub (args & flg & Ha & Hf & Hst). exists args, flg.
  split; [done|]. split; [done|]. destruct Hst as [? | Hst]; [by left | right].
  rewrite forallb_forall in *. intros a Hin. specialize (Hst a Hin).
  apply orb_true_iff in Hst as [Hs | He]; [|by rewrite He, orb_true_r].
  unfold from_scalar_map in *. apply bool_decide_eq_true in Hs.
  rewrite bool_decide_eq_true_2; [done|]. apply elem_of_dom, Hsub, elem_of_dom, Hs.
Qed.

Lemma process_feature_apart (feature : string) (st st' : group_state) :
  apart cfg st → process_feature cfg feature st = Ok st' → apart cfg st'.
Proof.
  intros Hap Hstep.
  apply process_feature_ok in Hstep
    as [[Hcol ->] | (Hcol & func & args & flg & scan & Hfunc & Hargs & Hflg & Hscan & Hroute)];
    [done|].
  destruct Hroute as [[Hr Hrun] | [Hr Hrun]].
  - apply andb_true_iff in Hr as [Hr1 Hr2]. apply negb_true_iff in Hr2.
    apply run_as_filter_ok in Hrun as (r & _ & Hset & Hagg1 & _).
    apply setitem_ok in Hset as (_ & _ & Hother & _).
    assert (feature ∉ dom (agg_results st)) as Hnew.
    { intros Hdom. destruct (Hap _ Hdom) as (_ & args' & flg' & Ha & Hf & Hst).
      assert (args' = args) as -> by congruence. assert (flg' = flg) as -> by congruence.
      destruct Hst as [-> | Hst]; [done|].
      apply settled_no_row_argument in Hst.
      apply scan_ok in Hscan as (_ & Hin & _). simpl in Hin. congruence. }
    intros f Hf. rewrite Hagg1 in Hf. destruct (Hap f Hf) as (Hc & Hst).
    assert (f ≠ feature) as Hne by (intros ->; done).
    split.
    + apply has_column_false. rewrite Hother by done. by apply has_column_false.
    + apply (settled_grows st); [by rewrite Hagg1 | done].
  - apply run_as_attribute_ok in Hrun as (r & _ & Hagg1 & Hdata & _).
    assert (dom (agg_results st) ⊆ dom (agg_results st')) as Hsub.
    { rewrite Hagg1, dom_insert. apply union_subseteq_r. }
    intros f Hf. rewrite Hagg1, dom_insert in Hf. rewrite Hdata.
    apply elem_of_union in Hf as [Hf | Hf].
    + apply elem_of_singleton in Hf as ->. split; [done|].
      exists args, flg. split; [done|]. split; [done|].
      destruct flg; [by left | right]. rewrite andb_true_r in Hr.
      assert (settled_attribute cfg st' feature) as (args' & flg' & Ha' & Hf' & Hall).
      { apply (settled_grows st st' feature Hsub).
        exists args, false. split; [done|]. split; [done|]. right.
        by eapply scan_no_row_argument. }
      destruct Hall as [-> | Hall]; [congruence|].
      by assert (args' = args) as <- by congruence.
    + destruct (Hap f Hf) as [Hc Hst]. split; [done|]. by apply (settled_grows st).
Qed.

(** X9. Within a group no feature is both a filter and an attribute: a key
    of the scalar map [process_group] returns is no column of the row
    table it returns, so it is none of the filters computed. *)
Theorem process_group_filter_or_attribute (group_df : DataFrame) (final : group_state) :
  process_group cfg group_df = Ok final →
  ∀ f, f ∈ dom (agg_results final) →
       has_column f (data_in final) = false ∧ f ∉ filters_calculated final.
Proof.
  intros Hrun f Hf.
  assert (apart cfg final) as Hap.
  { unfold process_group in Hrun.
    apply (for_each_invariant (apart cfg)) in Hrun; [done | |].
    - intros g t t' _. apply process_feature_apart.
    - intros g Hg. simpl in Hg. rewrite dom_empty in Hg. by apply elem_of_empty in Hg. }
  destruct (Hap f Hf) as [Hcol _]. split; [done|]. intros Hin.
  pose proof Hrun as Hshape. unfold process_group in Hshape.
  apply process_features_shape in Hshape as (_ & new & Hfil & Hnames & _).
  simpl in Hfil, Hnames. subst new.
  unfold has_column in Hcol. apply bool_decide_eq_false in Hcol. apply Hcol.
  rewrite Hnames. apply elem_of_app. by right.
Qed.

End exclusive.

(** ** GroupByProcessor: the attributes table *)

Section all_groups.
Import Frame Calculator GroupBy Tracking.
Import Resolver(group_by_arg, GbNone, GbStr, GbList).





End all_groups.

Section group_examples.
Import Frame Calculator GroupBy Tracking.
Import Resolver(group_by_arg, GbNone, GbStr, GbList).

(** A group of two prices: the filter "weighted" is the one column added,
    with two cells. *)
Lemma process_group_shape_witness :
  ∃ final,
    process_group Examples.cfg_weighted Examples.prices = Ok final ∧
    nrows (data_in final) = 2 ∧
    column_names (data_in final) = ["price"; "weighted"]%string ∧
    filters_calculated final = ["weighted"%string].
Proof.
  destruct (process_group Examples.cfg_weighted Examples.prices)
    as [final|e] eqn:Hrun; [|vm_compute in Hrun; discriminate].
  destruct (process_group_shape Examples.cfg_weighted Examples.prices final Hrun)
    as (Hrows & Hnames & _).
  assert (filters_calculated final = ["weighted"%string]) as Hfil.
  { vm_compute in Hrun. injection Hrun as <-. reflexivity. }
  exists final. split; [reflexivity|]. split; [exact Hrows|].
  split; [|exact Hfil]. rewrite Hnames, Hfil. reflexivity.
Defined.

(** In the same group the attribute "price_sum" is no column of the row
    table. *)
Lemma process_group_filter_or_attribute_witness :
  ∃ final,
    process_group Examples.cfg_weighted Examples.prices = Ok final ∧
    has_column "price_sum" (data_in final) = false ∧
    ("price_sum"%string ∉ filters_calculated final).
Proof.
  destruct (process_group Examples.cfg_weighted Examples.prices)
    as [final|e] eqn:Hrun; [|vm_compute in Hrun; discriminate].
  exists final. split; [reflexivity|].
  apply (process_group_filter_or_attribute Examples.cfg_weighted Examples.prices final Hrun).
  vm_compute in Hrun. injection Hrun as <-.
  apply elem_of_dom. eexists. vm_compute. reflexivity.
Defined.


End group_examples.

(** ** DependencyResolver: external columns *)

Section external_columns.
Import Text Frame ExternalColumns.

Lemma starts_with_drop (p s : string) :
  starts_with p s = true → p +:+ string_drop (String.length p) s = s.
Proof.
  revert s. induction p as [|a p IH]; intros [|b s] Hs; simpl in *; try done.
  destruct (Ascii.eqb_spec a b) as [->|]; [|done].
  change (String b (p +:+ string_drop (String.length p) s) = String b s).
  f_equal. by apply IH.
Qed.

Lemma remove_first_prefix (p s : string) :
  starts_with p s = true → remove_first p s = string_drop (String.length p) s.
Proof. intros Hs. destruct s; simpl; by rewrite Hs. Qed.

Lemma put_new {A : Type} (c : string) (a : A) (l : list (string * A)) :
  c ∉ l.*1 → put c a l = l ++ [(c, a)].
Proof.
  induction l as [|[c' a'] l IH]; simpl; [done|].
  rewrite not_elem_of_cons. intros [Hne Hnin].
  rewrite bool_decide_eq_false_2 by done. by rewrite IH.
Qed.

Lemma extract_fold (input_cols external_data : list string)
    (d : list (string * list string)) (l : list string) :
  NoDup external_data → (∀ e, e ∈ external_data → e ∉ d.*1) →
  foldl
    (fun (acc : list (string * list string) * list string) ext_name =>
       let prefix := ext_name +:+ "_" in
       let matching_cols :=
         remove_first prefix <$> filter (fun col => starts_with prefix col = true) input_cols in
       let full_col_names := filter (fun col => starts_with prefix col = true) input_cols in
       match matching_cols with
       | [] => acc
       | _ :: _ => (Frame.put ext_name matching_cols acc.1, acc.2 ++ full_col_names)
       end)
    (d, l) external_data
  = (d ++ flat_map (entry input_cols) external_data,
     l ++ Resolver._extract_external_columns input_cols external_data).
Proof.
  revert d l. induction external_data as [|e es IH]; intros d l Hnd Hfresh; simpl.
  { by rewrite !app_nil_r. }
  apply NoDup_cons in Hnd as [He Hnd].
  unfold entry at 1.
  destruct (filter (fun col => starts_with (e +:+ "_") col = true) input_cols)
    as [|c cs] eqn:Hf; simpl.
  - rewrite IH; [done | done |]. intros e' He'. apply Hfresh. by right.
  - rewrite IH; [|done|].
    + rewrite put_new by (apply Hfresh; left). by rewrite <- !app_assoc.
    + intros e' He'. rewrite put_new by (apply Hfresh; left).
      rewrite fmap_app, elem_of_app. simpl. rewrite list_elem_of_singleton.
      intros [Hin | ->]; [|done]. revert Hin. apply Hfresh. by right.
Qed.

(** X11. [_extract_external_columns]. The flat list holds, source by
    source, the input columns that start with "<source>_"; the dict has an
    entry for exactly the sources with such a column, holding these
    columns without the prefix; putting the prefix back gives the columns
    of the flat list. Without configured sources both are empty. *)
Theorem extract_external_columns_spec (input_cols external_data : list string) :
  NoDup external_data →
  let '(ext_cols_dict, ext_cols_list) := _extract_external_columns input_cols external_data in
  ext_cols_list = Resolver._extract_external_columns input_cols external_data ∧
  (∀ c, c ∈ ext_cols_list ↔
        c ∈ input_cols ∧
        ∃ e, e ∈ external_data ∧ starts_with (e +:+ "_") c = true) ∧
  (∀ e cols, (e, cols) ∈ ext_cols_dict ↔
             e ∈ external_data ∧ cols ≠ [] ∧
             cols = remove_first (e +:+ "_")
                      <$> filter (fun col => starts_with (e +:+ "_") col = true) input_cols) ∧
  (∀ e cols, (e, cols) ∈ ext_cols_dict →
             (fun c => (e +:+ "_") +:+ c) <$> cols
             = filter (fun col => starts_with (e +:+ "_") col = true) input_cols) ∧
  ext_cols_list
  = flat_map (fun ec => (fun c => (ec.1 +:+ "_") +:+ c) <$> ec.2) ext_cols_dict.
Proof.
  intros Hnd. unfold _extract_external_columns.
  rewrite extract_fold; [|done | intros e _ He; by inversion He]. simpl.
  assert (∀ e cols, (e, cols) ∈ flat_map (entry input_cols) external_data ↔
             e ∈ external_data ∧ cols ≠ [] ∧
             cols = remove_first (e +:+ "_")
                      <$> filter (fun col => starts_with (e +:+ "_") col = true) input_cols)
    as Hdict.
  { intros e cols. rewrite list_elem_of_In, in_flat_map. setoid_rewrite <- list_elem_of_In.
    unfold entry. split.
    - intros (e' & He' & Hin).
      destruct (remove_first _ <$> _) as [|c cs] eqn:Hm; [by inversion Hin|].
      apply list_elem_of_singleton in Hin as [= -> ->]. by rewrite Hm.
    - intros (He & Hne & ->). exists e. split; [done|].
      destruct (remove_first _ <$> _) as [|c cs]; [done | left]. }
  assert (∀ e, (fun c => (e +:+ "_") +:+ c)
                 <$> (remove_first (e +:+ "_")
                        <$> filter (fun col => starts_with (e +:+ "_") col = true) input_cols)
               = filter (fun col => starts_with (e +:+ "_") col = true) input_cols) as Hback.
  { intros e. rewrite <- list_fmap_compose. rewrite <- (list_fmap_id (filter _ _)) at 2.
    apply list_fmap_ext. intros i c Hc. apply list_elem_of_lookup_2, list_elem_of_filter in Hc as [Hc _].
    simpl. by rewrite remove_first_prefix, starts_with_drop. }
  split; [done|]. split; [|split; [done|split]].
  - intros c. unfold Resolver._extract_external_columns.
    rewrite list_elem_of_In, in_flat_map. setoid_rewrite <- list_elem_of_In. split.
    + intros (e & He & Hc). apply list_elem_of_filter in Hc as [Hc Hin]. eauto.
    + intros (Hin & e & He & Hc). exists e. split; [done|]. by apply list_elem_of_filter.
  - intros e cols Hin. apply Hdict in Hin as (_ & _ & ->). apply Hback.
  - unfold Resolver._extract_external_columns. clear Hdict Hnd.
    induction external_data as [|e es IH]; [done|]. simpl.
    rewrite flat_map_app, <- IH. f_equal. unfold entry.
    rewrite <- (Hback e) at 1.
    destruct (remove_first _ <$> _) as [|c cs]; simpl; [done | by rewrite app_nil_r].
Qed.

End external_columns.

Section external_examples.
Import Text Frame ExternalColumns.

(** Two columns of the source "daily_attrs", none of "weather". *)
Lemma extract_external_columns_spec_witness :
  let r := _extract_external_columns
             ["daily_attrs_count"; "price"; "daily_attrs_sum"]%string
             ["daily_attrs"; "weather"]%string in
  r = ([("daily_attrs"%string, ["count"; "sum"]%string)],
       ["daily_attrs_count"; "daily_attrs_sum"]%string) ∧
  r.2 = flat_map (fun ec => (fun c => (ec.1 +:+ "_") +:+ c) <$> ec.2) r.1.
Proof.
  intros r. split; [vm_compute; reflexivity|].
  assert (NoDup ["daily_attrs"; "weather"]%string) as Hnd.
  { apply (bool_decide_unpack _). vm_compute. exact I. }
  pose proof (extract_external_columns_spec
                ["daily_attrs_count"; "price"; "daily_attrs_sum"]%string
                ["daily_attrs"; "weather"]%string Hnd) as Hspec.
  fold r in Hspec. destruct r as [d l]. exact (proj2 (proj2 (proj2 (proj2 Hspec)))).
Defined.

End external_examples.

(** ** ModelExecutor: the group-by entry *)

Section normalisation.
Import Frame Calculator GroupBy DictUtils Executor.
Import Resolver(group_by_arg, GbNone, GbStr, GbList).

Lemma omap_id_Some {A : Type} (l : list A) : omap id (Some <$> l) = l.
Proof. induction l as [|x l IH]; [done|]. rewrite fmap_cons. cbn. by f_equal. Qed.

Lemma normalize_to_list_cases (g : group_by_arg) (indicators : list group_by_arg)
    (to_none : bool) :
  GbNone ∈ indicators → GbStr "" ∈ indicators →
  (∀ x, x ∈ indicators → x = GbNone ∨ x = GbStr "" ∨ x = GbList []) →
  normalize_to_list g (Some indicators) to_none
  = match g with
    | GbNone => if to_none then None else Some []
    | GbStr col =>
        if String.eqb col "" then (if to_none then None else Some [])
        else Some [Some col]
    | GbList [] => if bool_decide (GbList [] ∈ indicators)
                   then (if to_none then None else Some []) else Some []
    | GbList cols => Some (Some <$> cols)
    end.
Proof.
  intros Hnone Hstr Honly. unfold normalize_to_list; simpl.
  destruct g as [|col|cols].
  - by rewrite bool_decide_eq_true_2.
  - destruct (String.eqb_spec col "") as [->|Hne].
    + by rewrite bool_decide_eq_true_2.
    + rewrite bool_decide_eq_false_2; [done|].
      intros Hin. destruct (Honly _ Hin) as [? | [[= ?] | ?]]; done.
  - destruct cols as [|c cs]; [by case_bool_decide|].
    rewrite bool_decide_eq_false_2; [done|].
    intros Hin. destruct (Honly _ Hin) as [? | [? | ?]]; done.
Qed.

Lemma normalize_exec (g : group_by_arg) :
  normalize_to_list g (Some [GbNone; GbStr ""; GbList []]) true
  = match g with
    | GbNone => None
    | GbStr col => if String.eqb col "" then None else Some [Some col]
    | GbList [] => None
    | GbList cols => Some (Some <$> cols)
    end.
Proof.
  rewrite normalize_to_list_cases.
  - by destruct g as [|col|[|c cs]].
  - left.
  - right. left.
  - intros x Hx. rewrite !elem_of_cons in Hx.
    destruct Hx as [? | [? | [? | Hx]]]; auto. by inversion Hx.
Qed.

Lemma normalize_resolver (g : group_by_arg) (indicators : list group_by_arg) :
  indicators = [GbNone; GbStr ""] ∨ indicators = default_empty_indicators →
  normalize_to_list g (Some indicators) false
  = Some (Some <$> Resolver.normalize_to_list g).
Proof.
  intros Hind. rewrite normalize_to_list_cases.
  - destruct g as [|col|[|c cs]]; simpl; try done;
      [by destruct (String.eqb col "") | by case_bool_decide].
  - destruct Hind as [-> | ->]; left.
  - destruct Hind as [-> | ->]; right; left.
  - intros x Hx. unfold default_empty_indicators in Hind.
    destruct Hind as [-> | ->]; rewrite !elem_of_cons in Hx.
    + destruct Hx as [? | [? | Hx]]; auto. by inversion Hx.
    + destruct Hx as [? | [? | [? | Hx]]]; auto. by inversion Hx.
Qed.

Lemma executor_group_by_cases (g : group_by_arg) :
  executor_group_by g
  = match g with
    | GbNone => GbNone
    | GbStr col => if String.eqb col "" then GbNone else GbList [col]
    | GbList [] => GbNone
    | GbList cols => GbList cols
    end.
Proof.
  unfold executor_group_by. rewrite normalize_exec.
  destruct g as [|col|[|c cs]]; try done.
  - by destruct (String.eqb col "").
  - unfold as_group_by. by rewrite omap_id_Some.
Qed.

Lemma process_group_with_group_by (cfg : cfg_model) (g : group_by_arg) (df : DataFrame) :
  process_group (with_group_by cfg g) df = process_group cfg df.
Proof. done. Qed.

Lemma for_each_ext {A S : Type} (f g : A → S → res S) (l : list A) (s : S) :
  (∀ x t, x ∈ l → f x t = g x t) → for_each f l s = for_each g l s.
Proof.
  revert s. induction l as [|x l IH]; intros s Hfg; simpl; [done|].
  rewrite (Hfg x s) by left. destruct (g x s); simpl; [|done].
  apply IH. intros y t Hy. apply Hfg. by right.
Qed.

Lemma mapM_res_fmap {A B C : Type} (f : B → res C) (h : A → B) (l : list A) :
  mapM f (h <$> l) = mapM (fun x => f (h x)) l.
Proof. induction l as [|x l IH]; [done|]. simpl. by rewrite <- IH. Qed.

Lemma for_each_fmap {A B S : Type} (body : B → S → res S) (h : A → B) (l : list A) (s : S) :
  for_each body (h <$> l) s = for_each (fun x => body (h x)) l s.
Proof.
  revert s. induction l as [|x l IH]; intros s; [done|]. simpl.
  destruct (body (h x) s); simpl; [by rewrite <- IH | done].
Qed.

Lemma mapM_res_map_ok {A B C : Type} (f : A → res B) (h : B → C) (l : list A) :
  mapM (fun x => y ← f x; Ok (h y)) l = (k ← mapM f l; Ok (h <$> k)).
Proof.
  induction l as [|x l IH]; [done|]. simpl. rewrite IH.
  destruct (f x); simpl; [|done]. by destruct (mapM f l).
Qed.

Lemma process_grouped_tuple_keys (cfg : cfg_model) (col : string)
    (groups : list (group_value * DataFrame)) :
  group_by cfg = GbList [col] →
  Forall (fun kg => scalar_key kg.1) groups →
  _process_grouped cfg ((fun kg => (as_tuple_key kg.1, kg.2)) <$> groups)
  = _process_grouped cfg groups.
Proof.
  intros Hg Hkeys. unfold _process_grouped. rewrite Hg. simpl.
  assert (mapM (M := res)
            (fun g : group_value * DataFrame =>
               result ← process_group cfg g.2; Ok (g.1, result))
            ((fun kg : group_value * DataFrame => (as_tuple_key kg.1, kg.2)) <$> groups)
          = (k ← mapM (M := res)
                   (fun g : group_value * DataFrame =>
                      result ← process_group cfg g.2; Ok (g.1, result)) groups;
             Ok ((fun r : group_value * group_state => (as_tuple_key r.1, r.2)) <$> k)))
    as ->.
  { rewrite mapM_res_fmap, <- mapM_res_map_ok. apply mapM_res_ext.
    intros [gv df] _. simpl. by destruct (process_group cfg df). }
  destruct (mapM _ groups) as [grouped|e] eqn:Hgroups; simpl; [|done].
  assert (∀ r, r ∈ grouped → scalar_key r.1) as Hscalar.
  { intros [gv result] Hin. apply mapM_res_ok in Hgroups.
    apply list_elem_of_lookup in Hin as [i Hi].
    destruct (Forall2_lookup_r _ _ _ _ _ Hgroups Hi) as ([gv' group_df] & Hgi & Hpg).
    simpl in Hpg. apply bind_ok_inv in Hpg as (result' & _ & [= -> ->]).
    rewrite Forall_forall in Hkeys.
    apply (Hkeys (gv, group_df) (list_elem_of_lookup_2 _ _ _ Hgi)). }
  rewrite for_each_fmap, mapM_res_fmap.
  rewrite (for_each_ext _
             (fun r acc =>
                c ← group_contribution (GbList [col]) r.1 r.2;
                Ok (acc ++ match c with Some df_cleaned => [df_cleaned] | None => [] end))).
  2:{ intros [gv result] acc Hin. specialize (Hscalar _ Hin).
      by destruct gv as [v|]. }
  rewrite (mapM_res_ext _ (fun r => attrs_row (GbList [col]) r.1 r.2)).
  2:{ intros [gv result] Hin. specialize (Hscalar _ Hin).
      destruct gv as [v|]; [|done]. unfold attrs_row. simpl.
      by rewrite insert_empty. }
  assert (flat_map (fun r : group_value * group_state => filters_calculated r.2)
            ((fun r : group_value * group_state => (as_tuple_key r.1, r.2)) <$> grouped)
          = flat_map (fun r => filters_calculated r.2) grouped) as ->.
  { clear. induction grouped as [|r rs IH]; [done|]. simpl. by rewrite <- IH. }
  assert (flat_map (fun r : group_value * group_state => log r.2)
            ((fun r : group_value * group_state => (as_tuple_key r.1, r.2)) <$> grouped)
          = flat_map (fun r => log r.2) grouped) as ->.
  { clear. induction grouped as [|r rs IH]; [done|]. simpl. by rewrite <- IH. }
  done.
Qed.

Lemma process_all_groups_tuple_keys (cfg : cfg_model) (col : string) (data_in : DataFrame)
    (groups : list (group_value * DataFrame)) :
  group_by cfg = GbList [col] →
  Forall (fun kg => scalar_key kg.1) groups →
  process_all_groups cfg data_in ((fun kg => (as_tuple_key kg.1, kg.2)) <$> groups)
  = process_all_groups cfg data_in groups.
Proof.
  intros Hg Hkeys. unfold process_all_groups. rewrite Hg. simpl.
  destruct groups as [|g groups]; [done|].
  by apply (process_grouped_tuple_keys cfg col (g :: groups)).
Qed.

(** A single column name and the list of that one name give the same
    grouped result when the keys of the groups are scalars. *)
Lemma process_grouped_one_column (cfg : cfg_model) (col : string)
    (groups : list (group_value * DataFrame)) :
  group_by cfg = GbStr col →
  Forall (fun kg => scalar_key kg.1) groups →
  _process_grouped (with_group_by cfg (GbList [col])) groups
  = _process_grouped cfg groups.
Proof.
  intros Hg Hkeys. unfold _process_grouped. simpl. rewrite Hg.
  destruct (mapM _ groups) as [grouped|e] eqn:Hgroups; simpl; [|done].
  assert (Forall (fun r => scalar_key r.1) grouped) as Hscalar.
  { apply mapM_res_ok in Hgroups. apply Forall_forall. intros [gv result] Hin.
    apply list_elem_of_lookup in Hin as [i Hi].
    destruct (Forall2_lookup_r _ _ _ _ _ Hgroups Hi) as ([gv' group_df] & Hgi & Hpg).
    simpl in Hpg. apply bind_ok_inv in Hpg as (result' & _ & [= -> ->]).
    rewrite Forall_forall in Hkeys.
    apply (Hkeys (gv, group_df) (list_elem_of_lookup_2 _ _ _ Hgi)). }
  rewrite Forall_forall in Hscalar.
  rewrite (for_each_ext _
             (fun r acc =>
                c ← group_contribution (GbStr col) r.1 r.2;
                Ok (acc ++ match c with Some df_cleaned => [df_cleaned] | None => [] end))).
  2:{ intros [gv result] acc Hin. specialize (Hscalar _ Hin).
      destruct gv as [v|]; [|done]. simpl. unfold group_contribution. simpl.
      destruct (is_empty (GroupBy.data_in result)); [done|]. simpl.
      by destruct (setitem col (Scalar v) (GroupBy.data_in result)). }
  destruct (for_each _ grouped []) as [data_in_list|e]; simpl; [|done].
  rewrite (mapM_res_ext _ (fun r => attrs_row (GbStr col) r.1 r.2)); [done|].
  intros [gv result] Hin. specialize (Hscalar _ Hin).
  destruct gv as [v|]; [|done]. done.
Qed.

(** X12. The normalisation of 'group_by' by [execute_model]
    ([normalize_to_list] with [to_none]) is None exactly when
    [process_all_groups] would take the enrichment mode, and else the list
    of the group-by columns, the one [resolve_dependencies] works with;
    normalising twice changes nothing; and, the keys of the groups being
    scalars when a single column name is configured, [process_all_groups]
    returns the same with the normalised entry as with the original
    one. *)
Theorem executor_normalises_group_by (g : group_by_arg) :
  let normalized := normalize_to_list g (Some [GbNone; GbStr ""; GbList []]) true in
  (normalized = None ↔ no_grouping g = true) ∧
  (∀ l, normalized = Some l →
        l ≠ [] ∧ l = Some <$> Resolver.normalize_to_list g ∧
        l = Some <$> group_by_columns g) ∧
  normalize_to_list g (Some [GbNone; GbStr ""]) false
  = Some (Some <$> Resolver.normalize_to_list g) ∧
  normalize_to_list g None false
  = Some (Some <$> Resolver.normalize_to_list g) ∧
  executor_group_by (executor_group_by g) = executor_group_by g ∧
  (∀ cfg data_in groups,
     group_by cfg = g →
     Forall (fun kg => ∀ col, g = GbStr col → scalar_key kg.1) groups →
     process_all_groups (with_group_by cfg (executor_group_by g)) data_in groups
     = process_all_groups cfg data_in groups ∧
     (∀ col, g = GbStr col →
        process_all_groups (with_group_by cfg (executor_group_by g)) data_in
          ((fun kg => (as_tuple_key kg.1, kg.2)) <$> groups)
        = process_all_groups cfg data_in groups)).
Proof.
  cbv zeta. rewrite normalize_exec.
  split; [|split; [|split; [|split; [|split]]]].
  - destruct g as [|col|[|c cs]]; simpl; try done.
    by destruct (String.eqb col "").
  - intros l Hl. destruct g as [|col|[|c cs]]; simpl in *; try done.
    + destruct (String.eqb col ""); [done|]. by injection Hl as <-.
    + by injection Hl as <-.
  - apply normalize_resolver. by left.
  - apply (normalize_resolver g default_empty_indicators). by right.
  - rewrite !executor_group_by_cases.
    destruct g as [|col|[|c cs]]; simpl; try done.
    by destruct (String.eqb col "").
  - intros cfg data_in groups Hg Hkeys.
    assert (process_all_groups (with_group_by cfg (executor_group_by g)) data_in groups
            = process_all_groups cfg data_in groups) as Hsame; [|split; [done|]].
    2:{ intros col Hcol. rewrite Hcol in Hg, Hsame, Hkeys |- *.
        rewrite <- Hsame, executor_group_by_cases.
        destruct (String.eqb_spec col "") as [Hemp|Hne].
        { unfold process_all_groups. by simpl. }
        apply (process_all_groups_tuple_keys _ col); [done|].
        eapply Forall_impl; [exact Hkeys|]. intros kg Hkg. by eapply Hkg. }
    rewrite executor_group_by_cases.
    destruct g as [|col|[|c cs]]; simpl.
    + unfold process_all_groups. simpl. by rewrite Hg.
    + destruct (String.eqb_spec col "") as [->|Hne].
      { unfold process_all_groups. simpl. rewrite Hg. simpl. done. }
      unfold process_all_groups. simpl. rewrite Hg. simpl.
      apply String.eqb_neq in Hne. rewrite Hne.
      destruct groups as [|kg groups]; [done|].
      apply (process_grouped_one_column cfg col (kg :: groups)); [done|].
      eapply Forall_impl; [exact Hkeys|]. intros kg' Hkg. by eapply Hkg.
    + unfold process_all_groups. simpl. by rewrite Hg.
    + unfold process_all_groups. simpl. rewrite Hg. simpl.
      destruct groups as [|kg groups]; [done|].
      unfold _process_grouped. simpl. by rewrite Hg.
Qed.

End normalisation.

Section executor_examples.
Import Frame Calculator GroupBy DictUtils Executor.
Import Resolver(group_by_arg, GbNone, GbStr, GbList).

(** The entry "id" becomes the list of the one column "id", and the
    grouped execution returns the same with it. *)
Lemma executor_normalises_group_by_witness :
  normalize_to_list (GbStr "id") (Some [GbNone; GbStr ""; GbList []]) true
  = Some [Some "id"%string] ∧
  process_all_groups (with_group_by Examples.cfg_flag (executor_group_by (GbStr "id")))
    Examples.noted_orders Examples.noted_groups
  = process_all_groups Examples.cfg_flag Examples.noted_orders Examples.noted_groups.
Proof.
  destruct (executor_normalises_group_by (GbStr "id")) as (_ & Hsome & _ & _ & _ & Hsame).
  split.
  - destruct (normalize_to_list (GbStr "id") (Some [GbNone; GbStr ""; GbList []]) true)
      as [l|] eqn:Hl; [|vm_compute in Hl; discriminate].
    destruct (Hsome l eq_refl) as (_ & _ & ->). reflexivity.
  - apply (Hsame Examples.cfg_flag Examples.noted_orders Examples.noted_groups).
    + reflexivity.
    + repeat constructor.
Defined.

End executor_examples.

(** ** Where an argument comes from *)

Section argument_sources.
Import Frame Calculator GroupBy Prepare ExternalData.
Import Analyzer(validate_arguments).
Context (cfg : cfg_model) (st : group_state) (feature : string).

(** X13. [resolve_argument_source], called without [ext_data], is the scan
    of one argument in [process_group]: it finds a value exactly when the
    scan does, the same value, and its source is 'data_in' exactly when
    the scan sets [in_flg] (otherwise the scan sets [out_flg]); and each
    of them raises when the other does: the scan its "not found"
    ValueError where the function raises its own, a KeyError where the
    function finds an external column in no table, an IndexError where
    the table has no row. *)
Theorem resolve_argument_source_is_scan (arg : string) (acc : arg_scan) :
  match resolve_argument_source arg (data_in st) (agg_results st) (ext_cols_list cfg) None with
  | Resolved v src =>
      resolve_arg cfg st feature arg acc
      = Ok {| args_data := args_data acc ++ [v];
              in_flg := in_flg acc || is_data_in src;
              out_flg := out_flg acc || negb (is_data_in src) |}
  | NotFound =>
      resolve_arg cfg st feature arg acc = Raise (ArgumentNotFound feature arg false)
  | ExternalNotFound => resolve_arg cfg st feature arg acc = Raise (KeyError arg)
  | NoRows => resolve_arg cfg st feature arg acc = Raise IndexError
  end.
Proof.
  unfold resolve_argument_source, resolve_arg, getitem.
  destruct (agg_results st !! arg) as [v|]; simpl.
  { by rewrite orb_false_r, orb_true_r. }
  case_bool_decide; simpl.
  - destruct (get_column arg (data_in st)) as [[|v col]|]; simpl; try done.
    by rewrite orb_false_r, orb_true_r.
  - destruct (get_column arg (data_in st)) as [col|]; simpl; [|done].
    by rewrite orb_false_r, orb_true_r.
Qed.

(** X14. [prepare_filter_args] and [prepare_attribute_args] are the same
    function, and look at the row table before the scalar map, the
    reverse of the scan in [process_group]. For an argument that is not
    listed as external the two agree on the value unless the name is both
    a column and a key of the scalar map: then the scan takes the scalar
    and these functions the column. Where the scan raises its ValueError
    they raise KeyError. *)
Theorem prepare_args_and_scan (arg : string) (acc : arg_scan) :
  prepare_filter_args arg (data_in st) (agg_results st)
  = prepare_attribute_args arg (data_in st) (agg_results st) ∧
  (arg ∉ ext_cols_list cfg →
   (has_column arg (data_in st) = false ∨ agg_results st !! arg = None) →
   match prepare_filter_args arg (data_in st) (agg_results st) with
   | Ok v => ∃ scan, resolve_arg cfg st feature arg acc = Ok scan ∧
                     args_data scan = args_data acc ++ [v]
   | Raise e => e = KeyError (not_found arg) ∧
                resolve_arg cfg st feature arg acc
                = Raise (ArgumentNotFound feature arg false)
   end) ∧
  (∀ col v, get_column arg (data_in st) = Some col → agg_results st !! arg = Some v →
     prepare_filter_args arg (data_in st) (agg_results st) = Ok (Array col) ∧
     ∃ scan, resolve_arg cfg st feature arg acc = Ok scan ∧
             args_data scan = args_data acc ++ [v]).
Proof.
  split; [done|]. split.
  - intros Hext Hone. unfold prepare_filter_args, resolve_arg, getitem.
    rewrite (bool_decide_eq_false_2 _ Hext).
    destruct (has_column arg (data_in st)) eqn:Hcol.
    + apply has_column_get in Hcol as [col Hcol]. rewrite Hcol. simpl.
      destruct Hone as [? | ->]; [done|]. eauto.
    + apply has_column_false in Hcol. rewrite Hcol.
      destruct (agg_results st !! arg) as [v|]; simpl; eauto.
  - intros col v Hcol Hv. unfold prepare_filter_args, resolve_arg, getitem.
    assert (has_column arg (data_in st) = true) as -> by (apply has_column_get; eauto).
    rewrite Hcol, Hv. simpl. eauto.
Qed.

Lemma validate_arguments_true (args cols keys : list string) :
  validate_arguments feature args cols keys = true ↔
  ∀ arg, arg ∈ args → arg ∈ cols ∨ arg ∈ keys.
Proof.
  unfold validate_arguments.
  destruct (filter _ args) as [|a l] eqn:Hf.
  - split; [|done]. intros _ arg Harg.
    destruct (decide (arg ∈ cols)) as [|Hc]; [by left|].
    destruct (decide (arg ∈ keys)) as [|Hk]; [by right|].
    assert (arg ∈ filter (fun arg => (arg ∉ cols) ∧ (arg ∉ keys)) args) as Hin
      by (by apply list_elem_of_filter).
    rewrite Hf in Hin. by inversion Hin.
  - split; [done|]. intros Hall.
    assert (a ∈ filter (fun arg => (arg ∉ cols) ∧ (arg ∉ keys)) args) as Hin
      by (rewrite Hf; left).
    apply list_elem_of_filter in Hin as [[Hc Hk] Hin].
    destruct (Hall a Hin); done.
Qed.

(** X15. [validate_arguments], given the columns of the row table and the
    keys of the scalar map, answers True exactly when every argument is in
    one of the two. Then the scan of [process_group] does not raise its
    "not found" error; and when no column is listed as external, the scan
    succeeds exactly when [validate_arguments] answers True. *)
Theorem validate_arguments_and_scan (args : list string) (keys : list string) :
  (∀ k, k ∈ keys ↔ k ∈ dom (agg_results st)) →
  let valid := validate_arguments feature args (column_names (data_in st)) keys in
  (valid = true ↔ ∀ arg, arg ∈ args → has_column arg (data_in st) = true
                                     ∨ is_Some (agg_results st !! arg)) ∧
  (valid = true →
   ∀ f a enr, for_each (resolve_arg cfg st feature) args scan_start
              ≠ Raise (ArgumentNotFound f a enr)) ∧
  (ext_cols_list cfg = [] →
   (valid = true ↔ is_ok (for_each (resolve_arg cfg st feature) args scan_start))).
Proof.
  intros Hkeys valid.
  assert (valid = true ↔ ∀ arg, arg ∈ args → has_column arg (data_in st) = true
                                     ∨ is_Some (agg_results st !! arg)) as Hvalid.
  { unfold valid. rewrite validate_arguments_true. unfold has_column.
    setoid_rewrite bool_decide_eq_true. setoid_rewrite Hkeys.
    by setoid_rewrite elem_of_dom. }
  assert (valid = true → existsb (unresolved cfg st) args = false) as Hnone.
  { intros Hv. apply not_true_iff_false. rewrite existsb_exists.
    intros (a & Ha & Hun). apply list_elem_of_In in Ha.
    apply Hvalid in Ha; [|done]. unfold unresolved, from_scalar_map in Hun.
    destruct Ha as [Hc | Hs]; [rewrite Hc in Hun; by rewrite andb_false_r in Hun|].
    by rewrite (bool_decide_eq_true_2 _ Hs) in Hun. }
  split; [done|]. split.
  - intros Hv f a enr Hrun.
    apply scan_raise_unresolved in Hrun as (_ & _ & Ha & Hun).
    assert (existsb (unresolved cfg st) args = true); [|rewrite Hnone in *; done].
    apply existsb_exists. exists a. by rewrite <- list_elem_of_In.
  - intros Hext. split.
    + intros Hv. destruct (for_each _ args scan_start) as [scan|e] eqn:Hrun; [by eexists|].
      apply for_each_raise_inv in Hrun as (pre & x & post & t & -> & _ & Hx).
      apply resolve_arg_raise in Hx as [[_ Hun] | [Hex _]].
      * assert (existsb (unresolved cfg st) (pre ++ x :: post) = true); [|rewrite Hnone in *; done].
        apply existsb_exists. exists x. split; [|done].
        apply list_elem_of_In, elem_of_app. right. left.
      * unfold external_unreadable, from_external in Hex. rewrite Hext in Hex.
        rewrite bool_decide_eq_false_2 in Hex by (by inversion 1).
        by rewrite andb_false_r in Hex.
    + intros [scan Hrun]. apply Hvalid. intros arg Harg.
      apply scan_ok in Hrun as (_ & _ & _ & Hun).
      assert (unresolved cfg st arg = false) as Harg'.
      { apply not_true_iff_false. intros Ht.
        assert (existsb (unresolved cfg st) args = true); [|congruence].
        apply existsb_exists. exists arg. by rewrite <- list_elem_of_In. }
      unfold unresolved, from_scalar_map in Harg'. rewrite Hext in Harg'.
      rewrite (bool_decide_eq_false_2 (arg ∈ [])) in Harg' by (by inversion 1).
      simpl in Harg'. rewrite andb_true_r in Harg'.
      apply andb_false_iff in Harg' as [Hs | Hc].
      * right. apply negb_false_iff, bool_decide_eq_true in Hs. done.
      * left. by apply negb_false_iff in Hc.
Qed.

End argument_sources.

Section argument_examples.
Import Frame Calculator GroupBy Prepare ExternalData.
Import Analyzer(validate_arguments).

(** Once "price_sum" is computed, the scan of "price_sum" and
    [prepare_filter_args] find the same scalar. *)
Lemma prepare_args_and_scan_witness :
  prepare_filter_args "price_sum" (data_in Examples.prices_summed)
    (agg_results Examples.prices_summed) = Ok (Scalar (VInt 30)) ∧
  ∃ scan,
    resolve_arg Examples.cfg_weighted Examples.prices_summed "weighted" "price_sum"
      scan_start = Ok scan ∧
    args_data scan = [Scalar (VInt 30)].
Proof.
  split; [vm_compute; reflexivity|].
  destruct (prepare_args_and_scan Examples.cfg_weighted Examples.prices_summed
              "weighted" "price_sum" scan_start) as (_ & Hsame & _).
  assert ("price_sum"%string ∉ ext_cols_list Examples.cfg_weighted) as Hext.
  { intros Hin. inversion Hin. }
  specialize (Hsame Hext (or_introl eq_refl)).
  destruct (prepare_filter_args "price_sum" (data_in Examples.prices_summed)
              (agg_results Examples.prices_summed)) as [v|e] eqn:Hprep;
    [|vm_compute in Hprep; discriminate].
  vm_compute in Hprep. injection Hprep as <-. exact Hsame.
Defined.

(** The arguments of "weighted" are all at hand once "price_sum" is
    computed: the validation answers True and the scan succeeds. *)
Lemma validate_arguments_and_scan_witness :
  validate_arguments "weighted" ["price"; "price_sum"]%string
    (column_names (data_in Examples.prices_summed)) ["price_sum"%string] = true ∧
  is_ok (for_each (resolve_arg Examples.cfg_weighted Examples.prices_summed "weighted")
           ["price"; "price_sum"]%string scan_start).
Proof.
  assert (∀ k, k ∈ ["price_sum"%string] ↔ k ∈ dom (agg_results Examples.prices_summed))
    as Hkeys.
  { intros k. change (agg_results Examples.prices_summed)
      with ({[ "price_sum"%string := Scalar (VInt 30) ]} : gmap string pyobj).
    by rewrite dom_singleton, elem_of_singleton, list_elem_of_singleton. }
  destruct (validate_arguments_and_scan Examples.cfg_weighted Examples.prices_summed
              "weighted" ["price"; "price_sum"]%string ["price_sum"%string] Hkeys)
    as (_ & _ & Hscan).
  assert (validate_arguments "weighted" ["price"; "price_sum"]%string
            (column_names (data_in Examples.prices_summed)) ["price_sum"%string] = true)
    as Hvalid by (vm_compute; reflexivity).
  split; [exact Hvalid|]. apply (Hscan eq_refl). exact Hvalid.
Defined.

End argument_examples.

(** ** ModelExecutor: the filters listed after an enrichment *)

Section enrichment_columns.
Import Frame Calculator GroupBy DictUtils Executor.
Import Resolver(group_by_arg, GbNone, GbStr, GbList).

Lemma enrich_features_shape (cfg : cfg_model) (features : list string)
    (st st' : group_state) :
  for_each (enrich_feature cfg) features st = Ok st' →
  ∃ new,
    filters_calculated st' = filters_calculated st ++ new ∧
    column_names (data_in st') = column_names (data_in st) ++ new ∧
    NoDup new ∧
    (∀ f, f ∈ new → f ∉ column_names (data_in st)).
Proof.
  revert st. induction features as [|f fs IH]; intros st Hrun; simpl in Hrun.
  { injection Hrun as <-. exists []. rewrite !app_nil_r.
    repeat split; [apply NoDup_nil_2 | intros f Hf; by inversion Hf]. }
  apply bind_ok_inv in Hrun as (st1 & Hstep & Hrest).
  destruct (IH _ Hrest) as (new & Hfil & Hcols & Hnd & Hnew).
  apply enrich_feature_ok in Hstep
    as [[Hcol ->] | [(Hcol & Hflg & ->) | (Hcol & Hflg & func & args & cols & r & _ & _
                                           & _ & _ & Hset & Hagg1 & Hfil1 & Hlog1)]].
  - by exists new.
  - by exists new.
  - apply setitem_ok in Hset as (_ & _ & _ & Hnames). specialize (Hnames Hcol).
    unfold has_column in Hcol. apply bool_decide_eq_false in Hcol.
    exists (f :: new). rewrite Hfil, Hfil1, Hcols, Hnames, <- !app_assoc. simpl.
    split; [done|]. split; [done|].
    assert (f ∉ new) as Hfnew.
    { intros Hin. apply (Hnew f Hin). rewrite Hnames. apply elem_of_app. right. left. }
    split; [by constructor|].
    intros g Hg. apply elem_of_cons in Hg as [-> | Hg]; [done|].
    intros Hin. apply (Hnew g Hg). rewrite Hnames. apply elem_of_app. by left.
Qed.

(** X16. In enrichment mode the filters table has the columns of the data,
    in their order, followed by the filters listed under 'exec_fltrs', in
    the order they were computed and without repetition. The list
    [_update_exec_tracking] then stores under 'exec_fltrs' is, when the
    table is not empty, all these columns but the row-id column(s): the
    columns of the input data are reported as filters too; 'exec_attrs'
    is empty. *)
Theorem enrichment_columns_and_tracking (cfg : cfg_model) (df : DataFrame)
    (out : execution_output) (row_id : group_by_arg) :
  _process_no_grouping cfg df = Ok out →
  column_names (filters_df out) = column_names df ++ exec_fltrs out ∧
  NoDup (exec_fltrs out) ∧
  (∀ f, f ∈ exec_fltrs out → f ∈ exec_seq cfg ∧ has_column f df = false) ∧
  (is_empty (filters_df out) = false →
   _update_exec_tracking GbNone row_id (filters_df out) empty_frame
   = (filter (fun col => col ∉ Resolver.normalize_to_list row_id)
        (column_names df ++ exec_fltrs out), [])).
Proof.
  unfold _process_no_grouping. intros Hrun.
  apply bind_ok_inv in Hrun as (final & Hrun & [= <-]). simpl.
  destruct (enrich_features_shape _ _ _ _ Hrun) as (new & Hfil & Hcols & Hnd & Hnew).
  simpl in *. subst new. split; [done|]. split; [done|]. split.
  - intros f Hf. split.
    + destruct (enrich_features_frame _ _ _ _ Hrun) as (_ & _ & _ & Hcol & _).
      assert (has_column f (data_in final) = true) as Hc.
      { unfold has_column. apply bool_decide_eq_true. rewrite Hcols.
        apply elem_of_app. by right. }
      destruct (Hcol f Hc) as [Hin | [? _]]; [|done].
      exfalso. apply (Hnew f Hf). unfold has_column in Hin. by apply bool_decide_eq_true in Hin.
    + unfold has_column. apply bool_decide_eq_false. by apply Hnew.
  - intros Hne. unfold _update_exec_tracking. rewrite Hne. simpl.
    rewrite Hcols. f_equal.
    change (normalize_to_list GbNone None false) with (Some (@nil (option string))).
    simpl.
    assert (normalize_to_list row_id None false
            = Some (Some <$> Resolver.normalize_to_list row_id)) as ->.
    { unfold normalize_to_list, default_empty_indicators; simpl.
      destruct row_id as [|col|[|c cs]]; simpl; try done.
      destruct (String.eqb_spec col "") as [->|Hcol]; [done|].
      rewrite bool_decide_eq_false_2; [done|].
      rewrite !elem_of_cons. intros [? | [[= ?] | [? | H]]]; try done. by inversion H. }
    simpl. apply list_filter_iff. intros c. rewrite list_elem_of_fmap. split.
    + intros Hc Hin. apply Hc. by exists c.
    + intros Hc (c' & [= <-] & Hin). done.
Qed.

End enrichment_columns.

Section tracking_examples.
Import Frame Calculator GroupBy DictUtils Executor.
Import Resolver(group_by_arg, GbNone, GbStr, GbList).

(** The enrichment of the orders computes "total"; with the row id "id",
    the filters reported are "qty", "price" and "total". *)
Lemma enrichment_columns_and_tracking_witness :
  ∃ out,
    _process_no_grouping Examples.cfg_total Examples.orders = Ok out ∧
    exec_fltrs out = ["total"%string] ∧
    _update_exec_tracking GbNone (GbStr "id") (filters_df out) empty_frame
    = (["qty"; "price"; "total"]%string, []).
Proof.
  destruct (_process_no_grouping Examples.cfg_total Examples.orders)
    as [out|e] eqn:Hrun; [|vm_compute in Hrun; discriminate].
  destruct (enrichment_columns_and_tracking Examples.cfg_total Examples.orders out
              (GbStr "id") Hrun) as (_ & _ & _ & Htrack).
  assert (exec_fltrs out = ["total"%string]) as Hfl.
  { vm_compute in Hrun. injection Hrun as <-. reflexivity. }
  assert (is_empty (filters_df out) = false) as Hne.
  { vm_compute in Hrun. injection Hrun as <-. reflexivity. }
  exists out. split; [reflexivity|]. split; [exact Hfl|].
  rewrite (Htrack Hne), Hfl. vm_compute. reflexivity.
Defined.

End tracking_examples.

(** ** FeatureStore: the feature directories *)

Section files.
Import Store Frame Files.

(** X17. [load_from_filesystem(model, feature)] reads the model's own
    directory of the feature when it holds <feature>.py, whatever the
    folder 'common' holds, and the directory in 'common' otherwise. What
    it reads is stored under the model's key, so that [get_feature] finds
    it for that model. It raises FileNotFoundError when neither directory
    holds <feature>.py, and when the directory chosen, the model's own or
    the one in 'common', has no metadata.json: a model's directory with
    the code and without metadata makes the load fail even if 'common' has
    both files. *)
Theorem load_from_filesystem_folders (tree : gmap string (list (string * feature_dir)))
    (st : FeatureStore) (model feature : string) :
  let own := find_dir tree model feature in
  let shared := find_dir tree "common" feature in
  (∀ udf_code args,
     complete own udf_code args →
     load_from_filesystem tree st model feature
     = Ok (store_feature st feature (DefDict udf_code (Some args)) (Some model))) ∧
  (∀ udf_code args,
     own ≫= py_file = None → complete shared udf_code args →
     load_from_filesystem tree st model feature
     = Ok (store_feature st feature (DefDict udf_code (Some args)) (Some model))) ∧
  (is_Some (own ≫= py_file) → own ≫= metadata_json = None →
   load_from_filesystem tree st model feature = Raise (FileNotFoundError "metadata.json")) ∧
  (own ≫= py_file = None → shared ≫= py_file = None →
   load_from_filesystem tree st model feature = Raise (FileNotFoundError feature)) ∧
  (∀ st', load_from_filesystem tree st model feature = Ok st' →
     ∃ udf_code args,
       (complete own udf_code args ∨
        (own ≫= py_file = None ∧ complete shared udf_code args)) ∧
       st' = store_feature st feature (DefDict udf_code (Some args)) (Some model) ∧
       (model ≠ ""%string →
        get_feature st' feature (Some model) = Some (DefDict udf_code (Some args)))) ∧
  (own ≫= py_file = None → is_Some (shared ≫= py_file) →
   shared ≫= metadata_json = None →
   load_from_filesystem tree st model feature = Raise (FileNotFoundError "metadata.json")).
Proof.
  cbv zeta. unfold load_from_filesystem, complete.
  split; [|split; [|split; [|split; [|split]]]].
  - intros udf_code args (metadata & Hpy & Hmeta & ->). by rewrite Hpy, Hpy, Hmeta.
  - intros udf_code args Hnone (metadata & Hpy & Hmeta & ->). by rewrite Hnone, Hpy, Hmeta.
  - intros [code Hpy] Hmeta. by rewrite Hpy, Hpy, Hmeta.
  - intros Hnone Hnone'. by rewrite Hnone, Hnone'.
  - intros st'. destruct (find_dir tree model feature ≫= py_file) as [code|] eqn:Hown.
    + rewrite Hown. destruct (find_dir tree model feature ≫= metadata_json)
        as [metadata|] eqn:Hmeta; [|done].
      intros [= <-]. exists code, (default [] metadata). split; [left; by exists metadata|].
      split; [done|]. intros Hm. unfold get_feature, store_feature; simpl.
      by rewrite lookup_insert_eq.
    + destruct (find_dir tree "common" feature ≫= py_file) as [code|] eqn:Hsh; [|done].
      destruct (find_dir tree "common" feature ≫= metadata_json)
        as [metadata|] eqn:Hmeta; [|done].
      intros [= <-]. exists code, (default [] metadata).
      split; [right; split; [done|]; by exists metadata|].
      split; [done|]. intros Hm. unfold get_feature, store_feature; simpl.
      by rewrite lookup_insert_eq.
  - intros Hnone [code Hpy] Hmeta. by rewrite Hnone, Hpy, Hmeta.
Qed.

End files.

Section save_load.
Import Store Frame Files.

Lemma find_dir_insert (tree : gmap string (list (string * feature_dir)))
    (folder folder' feature : string) (dirs : list (string * feature_dir)) :
  find_dir (<[folder := dirs]> tree) folder' feature
  = if decide (folder = folder') then assoc feature dirs else find_dir tree folder' feature.
Proof.
  unfold find_dir. case_decide as Hf.
  - subst. by rewrite lookup_insert_eq.
  - by rewrite lookup_insert_ne.
Qed.

Lemma assoc_app_r {A : Type} (c c' : string) (a : A) (l : list (string * A)) :
  assoc c l = None → assoc c' (l ++ [(c, a)]) = if decide (c' = c) then Some a else assoc c' l.
Proof.
  induction l as [|[c0 a0] l IH]; simpl.
  - intros _. case_bool_decide; case_decide; congruence.
  - case_bool_decide as Hc; [done|]. intros Hnone. rewrite (IH Hnone).
    case_bool_decide as Hc'; [|done]. subst c0. case_decide; congruence.
Qed.

Lemma ensure_directory_find (tree : gmap string (list (string * feature_dir)))
    (folder feature folder' feature' : string) :
  find_dir (ensure_directory tree folder feature) folder' feature'
  = match find_dir tree folder' feature' with
    | Some d => Some d
    | None => if decide (folder = folder' ∧ feature' = feature) then Some empty_dir else None
    end.
Proof.
  unfold ensure_directory.
  destruct (assoc feature (default [] (tree !! folder))) as [d|] eqn:Hd.
  - destruct (find_dir tree folder' feature') as [d'|] eqn:Hd'; [done|].
    case_decide as Heq; [|done]. destruct Heq as [<- ->].
    unfold find_dir in Hd'. destruct (tree !! folder); simpl in *; congruence.
  - rewrite find_dir_insert. case_decide as Hf.
    + subst folder'. rewrite (assoc_app_r _ _ _ _ Hd). unfold find_dir.
      case_decide as Hfeat.
      * subst feature'. destruct (tree !! folder) as [dirs|]; simpl in *; [rewrite Hd|].
        -- by rewrite decide_True.
        -- by rewrite decide_True.
      * destruct (tree !! folder) as [dirs|]; simpl.
        -- destruct (assoc feature' dirs); [done|]. rewrite decide_False; [done|]. tauto.
        -- rewrite decide_False; [done|]. tauto.
    + destruct (find_dir tree folder' feature'); [done|]. rewrite decide_False; [done|]. tauto.
Qed.

Lemma save_ok (tree tree' : gmap string (list (string * feature_dir)))
    (feature_name : string) (d : python_def) (model_name : option string) :
  save_to_filesystem "local" tree feature_name d model_name = Saved tree' →
  ∃ source_code args,
    written d = Some (source_code, args) ∧
    ∀ folder feature,
      find_dir tree' folder feature
      = if decide (folder = target_folder model_name ∧ feature = feature_name)
        then Some {| py_file := Some source_code; metadata_json := Some (Some args) |}
        else find_dir tree folder feature.
Proof.
  unfold save_to_filesystem. simpl. fold (target_folder model_name).
  set (folder0 := target_folder model_name).
  assert (∀ source_code args folder feature,
            find_dir
              (<[folder0 :=
                   put feature_name
                     {| py_file := Some source_code; metadata_json := Some (Some args) |}
                     (default [] (ensure_directory tree folder0 feature_name !! folder0))]>
                 (ensure_directory tree folder0 feature_name)) folder feature
            = if decide (folder = folder0 ∧ feature = feature_name)
              then Some {| py_file := Some source_code; metadata_json := Some (Some args) |}
              else find_dir tree folder feature) as Hfind.
  { intros source_code args folder feature. rewrite find_dir_insert.
    case_decide as Hf.
    - subst folder. destruct (decide (feature = feature_name)) as [->|Hne].
      + rewrite decide_True by done. apply assoc_put_eq.
      + rewrite decide_False by tauto. rewrite assoc_put_ne by done.
        pose proof (ensure_directory_find tree folder0 feature_name folder0 feature) as He.
        unfold find_dir in He at 1.
        destruct (ensure_directory tree folder0 feature_name !! folder0) as [dirs|] eqn:Hdirs;
          simpl in *.
        * rewrite He. destruct (find_dir tree folder0 feature); [done|].
          rewrite decide_False; [done|]. tauto.
        * destruct (find_dir tree folder0 feature); [done|]. done.
    - rewrite decide_False by (intros [? _]; congruence).
      rewrite ensure_directory_find. destruct (find_dir tree folder feature); [done|].
      rewrite decide_False; [done|]. tauto. }
  destruct d as [cv parameters [src|]|udf args]; simpl; [| done |].
  - intros [= <-]. exists src, parameters. split; [done|]. apply Hfind.
  - intros [= <-]. exists udf, (default [] args). split; [done|]. apply Hfind.
Qed.

(** X18. What [save_to_filesystem] writes, [load_from_filesystem] reads
    back: after a save that succeeds, a load of the feature for the model
    it was saved for stores in the registry, under that model's key, the
    dict of the saved code and arguments (for a function, the names of
    its signature); every other feature directory is as before. A
    feature saved without model goes to 'common', and a load for any
    model that has no code of its own for the feature reads it; a model
    that has its own keeps reading its own. *)
Theorem save_then_load (tree tree' : gmap string (list (string * feature_dir)))
    (feature_name : string) (d : python_def) (model_name : option string) :
  save_to_filesystem "local" tree feature_name d model_name = Saved tree' →
  ∃ source_code args,
    written d = Some (source_code, args) ∧
    (∀ folder feature,
       (folder, feature) ≠ (target_folder model_name, feature_name) →
       find_dir tree' folder feature = find_dir tree folder feature) ∧
    (∀ st,
       load_from_filesystem tree' st (target_folder model_name) feature_name
       = Ok (store_feature st feature_name (DefDict source_code (Some args))
               (Some (target_folder model_name)))) ∧
    (∀ st model,
       target_folder model_name = "common"%string →
       find_dir tree model feature_name ≫= py_file = None →
       load_from_filesystem tree' st model feature_name
       = Ok (store_feature st feature_name (DefDict source_code (Some args))
               (Some model))) ∧
    (∀ st model,
       model ≠ target_folder model_name →
       is_Some (find_dir tree model feature_name ≫= py_file) →
       load_from_filesystem tree' st model feature_name
       = load_from_filesystem tree st model feature_name).
Proof.
  intros Hsave. apply save_ok in Hsave as (source_code & args & Hw & Hfind).
  exists source_code, args. split; [done|]. split; [|split; [|split]].
  - intros folder feature Hne. rewrite Hfind, decide_False; [done|].
    intros [-> ->]. done.
  - intros st. unfold load_from_filesystem.
    rewrite !Hfind, decide_True by done. done.
  - intros st model Hcommon Hnone. unfold load_from_filesystem.
    destruct (decide (model = "common"%string)) as [->|Hm].
    + rewrite !Hfind, Hcommon, decide_True by done. done.
    + rewrite (Hfind model), decide_False by (intros [? _]; congruence).
      rewrite Hnone. rewrite Hfind, Hcommon, decide_True by done. done.
  - intros st model Hne [code Hcode]. unfold load_from_filesystem.
    rewrite (Hfind model), decide_False by (intros [? _]; congruence).
    by rewrite Hcode.
Qed.

End save_load.

Section index.
Import Store Frame Files.

Lemma failed_save_listed (feature_index : gmap string (list string))
    (tree : gmap string (list (string * feature_dir))) (model feature_name : string)
    (co_varnames parameters : list string) (st : FeatureStore) :
  model ≠ ""%string → model ≠ "common"%string →
  feature_index !! model = None →
  find_dir tree model feature_name = None →
  find_dir tree "common" feature_name = None →
  ∃ tree1,
    save_to_filesystem "local" tree feature_name
      (PyFunction co_varnames parameters None) (Some model) = SaveRuntimeError tree1 ∧
    feature_name ∈ (get_feature_index feature_index tree1 model).1 ∧
    load_from_filesystem tree1 st model feature_name
    = Raise (FileNotFoundError feature_name).
Proof.
  intros Hm Hcommon Hc Hown Hshared.
  exists (ensure_directory tree model feature_name).
  assert (truthy (Some model) = true) as Ht by (apply truthy_Some; eauto).
  split; [|split].
  - unfold save_to_filesystem. simpl. simpl in Ht. by rewrite Ht.
  - unfold get_feature_index. rewrite Hc.
    pose proof (ensure_directory_find tree model feature_name model feature_name) as He.
    rewrite Hown, decide_True in He by done. unfold find_dir in He.
    destruct (ensure_directory tree model feature_name !! model) as [dirs|]; [|done].
    simpl in *. apply assoc_Some_elem in He.
    apply list_elem_of_fmap. by exists (feature_name, empty_dir).
  - unfold load_from_filesystem.
    rewrite (ensure_directory_find tree model feature_name model feature_name).
    rewrite Hown, decide_True by done. simpl.
    rewrite (ensure_directory_find tree model feature_name "common" feature_name).
    rewrite Hshared, decide_False by (intros [? _]; done). done.
Qed.

(** X19. [get_feature_index] reads the folder of a model once: the first
    call lists the feature directories of the folder (none when the
    folder does not exist) and caches the list; from then on the call
    returns the cached list whatever the directories have become, for
    instance after a feature was saved for the model, until [clear]
    empties the cache. The cache of the other models is not touched. A
    directory is listed even when it cannot be loaded, as the empty one a
    failed save leaves. *)
Theorem get_feature_index_cached (feature_index : gmap string (list string))
    (tree : gmap string (list (string * feature_dir))) (model : string) :
  let r := get_feature_index feature_index tree model in
  (feature_index !! model = None → r.1 = (default [] (tree !! model)).*1) ∧
  (∀ l, feature_index !! model = Some l → r = (l, feature_index)) ∧
  r.2 !! model = Some r.1 ∧
  (∀ m, m ≠ model → r.2 !! m = feature_index !! m) ∧
  (∀ tree', get_feature_index r.2 tree' model = r) ∧
  (∀ st tree', (get_feature_index (clear st r.2).2 tree' model).1
               = (default [] (tree' !! model)).*1) ∧
  (∀ feature_name co_varnames parameters st,
     model ≠ ""%string → model ≠ "common"%string →
     feature_index !! model = None →
     find_dir tree model feature_name = None →
     find_dir tree "common" feature_name = None →
     ∃ tree1,
       save_to_filesystem "local" tree feature_name
         (PyFunction co_varnames parameters None) (Some model) = SaveRuntimeError tree1 ∧
       feature_name ∈ (get_feature_index feature_index tree1 model).1 ∧
       load_from_filesystem tree1 st model feature_name
       = Raise (FileNotFoundError feature_name)).
Proof.
  intros r.
  assert (∀ tree', (get_feature_index ∅ tree' model).1
                   = (default [] (tree' !! model)).*1) as Hclear.
  { intros tree'. unfold get_feature_index; simpl. rewrite lookup_empty.
    by destruct (tree' !! model). }
  destruct (feature_index !! model) as [cached|] eqn:Hc.
  - assert (r = (cached, feature_index)) as ->
      by (unfold r, get_feature_index; by rewrite Hc).
    simpl. split; [done|]. split; [by intros l [= <-]|]. split; [done|]. split; [done|].
    split; [|split; [|done]].
    + intros tree'. unfold get_feature_index. by rewrite Hc.
    + intros st tree'. exact (Hclear tree').
  - assert (r = ((default [] (tree !! model)).*1,
                 <[model := (default [] (tree !! model)).*1]> feature_index)) as ->.
    { unfold r, get_feature_index. rewrite Hc. by destruct (tree !! model). }
    simpl. split; [done|]. split; [done|]. split; [apply lookup_insert_eq|].
    split; [intros m Hm; by rewrite lookup_insert_ne|]. split; [|split].
    + intros tree'. unfold get_feature_index. by rewrite lookup_insert_eq.
    + intros st tree'. exact (Hclear tree').
    + intros. by apply failed_save_listed.
Qed.

End index.

Section common.
Import Store Frame Files.

Lemma common_key_inj (f g : string) :
  "common" +:+ ":" +:+ f = "common" +:+ ":" +:+ g → f = g.
Proof. intros Heq. by apply (String.app_inj "common"), (String.app_inj ":") in Heq. Qed.

Lemma load_common_ok (tree : gmap string (list (string * feature_dir)))
    (dirs : list (string * feature_dir)) (st : FeatureStore) (f : string) (d : feature_dir) :
  tree !! "common"%string = Some dirs → assoc f dirs = Some d →
  load_from_filesystem tree st "common" f
  = if loadable (f, d)
    then Ok {| features :=
                 <["common" +:+ ":" +:+ f
                     := DefDict (default ""%string (py_file d))
                          (Some (default [] (default None (metadata_json d))))]>
                   (features st);
               current_model := current_model st |}
    else load_from_filesystem tree st "common" f.
Proof.
  intros Htree Hd. unfold loadable; simpl.
  destruct (py_file d) as [code|] eqn:Hpy; [|by rewrite andb_false_l].
  destruct (metadata_json d) as [meta|] eqn:Hmeta; [|by rewrite andb_false_r].
  rewrite !bool_decide_eq_true_2 by eauto. simpl.
  unfold load_from_filesystem, find_dir. rewrite Htree. simpl. rewrite Hd. simpl.
  rewrite Hpy. simpl. rewrite Hpy. by rewrite Hmeta.
Qed.

Lemma load_common_fail (tree : gmap string (list (string * feature_dir)))
    (dirs : list (string * feature_dir)) (st : FeatureStore) (f : string) (d : feature_dir) :
  tree !! "common"%string = Some dirs → assoc f dirs = Some d →
  loadable (f, d) = false →
  ∃ e, load_from_filesystem tree st "common" f = Raise e.
Proof.
  intros Htree Hd. unfold loadable; simpl.
  unfold load_from_filesystem, find_dir. rewrite Htree. simpl. rewrite Hd. simpl.
  destruct (py_file d) as [code|] eqn:Hpy; simpl.
  - destruct (metadata_json d) as [meta|]; simpl; rewrite ?Hpy; [done | eauto].
  - rewrite ?Hpy. eauto.
Qed.

Lemma assoc_NoDup {A : Type} (l : list (string * A)) (c : string) (a : A) :
  NoDup l.*1 → (c, a) ∈ l → assoc c l = Some a.
Proof.
  induction l as [|[c' a'] l IH]; simpl; [by inversion 2|].
  rewrite NoDup_cons. intros [Hnin Hnd] Hin.
  apply elem_of_cons in Hin as [[= -> ->] | Hin].
  - by rewrite bool_decide_eq_true_2.
  - rewrite bool_decide_eq_false_2; [by apply IH|].
    intros ->. apply Hnin. apply list_elem_of_fmap. by exists (c', a).
Qed.

Lemma load_each_cons (tree : gmap string (list (string * feature_dir)))
    (n : nat) (st : FeatureStore) (f : string) (fs : list string) :
  load_each tree (n, st) (f :: fs)
  = match load_from_filesystem tree st "common" f with
    | Ok st' => load_each tree (n + 1, st') fs
    | Raise _ => load_each tree (n, st) fs
    end.
Proof. unfold load_each. simpl. by destruct (load_from_filesystem tree st "common" f). Qed.

Lemma load_common_fold (tree : gmap string (list (string * feature_dir)))
    (dirs : list (string * feature_dir)) (part : list (string * feature_dir))
    (n : nat) (st : FeatureStore) :
  tree !! "common"%string = Some dirs →
  (∀ fd, fd ∈ part → assoc fd.1 dirs = Some fd.2) →
  NoDup part.*1 →
  let r := load_each tree (n, st) part.*1 in
  r.1 = n + length (filter (fun fd => loadable fd = true) part) ∧
  current_model r.2 = current_model st ∧
  (∀ f d, (f, d) ∈ part → loadable (f, d) = true →
          features r.2 !! ("common" +:+ ":" +:+ f)
          = Some (DefDict (default ""%string (py_file d))
                    (Some (default [] (default None (metadata_json d)))))) ∧
  (∀ k, (∀ fd, fd ∈ part → loadable fd = true → k ≠ "common" +:+ ":" +:+ fd.1) →
        features r.2 !! k = features st !! k).
Proof.
  intros Htree. revert n st. induction part as [|[f d] part IH]; intros n st Hdirs Hnd.
  { simpl. split; [lia|]. split; [done|]. split; [by intros f d Hin; inversion Hin | done]. }
  rewrite fmap_cons. cbv zeta. rewrite load_each_cons. simpl fst.
  rewrite fmap_cons in Hnd. apply NoDup_cons in Hnd as [Hf Hnd].
  assert (assoc f dirs = Some d) as Hd by (apply (Hdirs (f, d)); left).
  assert (∀ fd, fd ∈ part → assoc fd.1 dirs = Some fd.2) as Hdirs'
    by (intros fd Hin; apply Hdirs; by right).
  destruct (loadable (f, d)) eqn:Hl.
  - rewrite (load_common_ok _ _ _ _ _ Htree Hd), Hl.
    rewrite filter_cons_True by done. simpl.
    match goal with
    | |- context [load_each tree (?m, ?s) _] =>
        destruct (IH m s Hdirs' Hnd) as (Hn & Hm & Hin & Hout)
    end.
    split; [rewrite Hn; lia|]. split; [done|]. split.
    + intros f' d' Hin' Hl'. apply elem_of_cons in Hin' as [[= -> ->] | Hin'].
      * rewrite Hout; [simpl; by rewrite lookup_insert_eq|].
        intros [f1 d1] Hin1 _ Heq. apply common_key_inj in Heq. simpl in Heq. subst f1.
        apply Hf. apply list_elem_of_fmap. by exists (f, d1).
      * by apply Hin.
    + intros k Hk. rewrite Hout.
      * simpl. rewrite lookup_insert_ne; [done|]. intros <-.
        apply (Hk (f, d)); [left | done | done].
      * intros fd Hin' Hl'. apply Hk; [by right | done].
  - destruct (load_common_fail _ _ st _ _ Htree Hd Hl) as [e ->].
    rewrite filter_cons_False by (by rewrite Hl).
    destruct (IH n st Hdirs' Hnd) as (Hn & Hm & Hin & Hout).
    split; [done|]. split; [done|]. split.
    + intros f' d' Hin' Hl'. apply elem_of_cons in Hin' as [[= -> ->] | Hin']; [congruence|].
      by apply Hin.
    + intros k Hk. apply Hout. intros fd Hin' Hl'. apply Hk; [by right | done].
Qed.

(** X20. [load_common_features], on a cache that has no entry for
    'common': the number it returns is the number of feature directories
    of the folder 'common' that have both files; each of them is then in
    the registry under the key "common:<feature>", with the code and the
    arguments of its files; directories that cannot be loaded are passed
    over; no other key of the registry changes. So the bare keys are as
    before: [has_feature] answers for every name without ':' as it did
    before the call. *)
Theorem load_common_features_count (feature_index : gmap string (list string))
    (tree : gmap string (list (string * feature_dir)))
    (dirs : list (string * feature_dir)) (st : FeatureStore) :
  feature_index !! "common"%string = None →
  tree !! "common"%string = Some dirs →
  NoDup dirs.*1 →
  let r := load_common_features feature_index tree st in
  r.1.1 = length (filter (fun fd => loadable fd = true) dirs) ∧
  r.1.1 ≤ length dirs ∧
  current_model r.1.2 = current_model st ∧
  (∀ f d, (f, d) ∈ dirs → loadable (f, d) = true →
          features r.1.2 !! ("common" +:+ ":" +:+ f)
          = Some (DefDict (default ""%string (py_file d))
                    (Some (default [] (default None (metadata_json d)))))) ∧
  (∀ k, (∀ fd, fd ∈ dirs → loadable fd = true → k ≠ "common" +:+ ":" +:+ fd.1) →
        features r.1.2 !! k = features st !! k) ∧
  (∀ name, Resolver.colon_free name = true →
           has_feature r.1.2 name = has_feature st name) ∧
  r.2 !! "common"%string = Some dirs.*1.
Proof.
  intros Hidx Htree Hnd r.
  assert (r.1.1 = length (filter (fun fd => loadable fd = true) dirs) ∧
          current_model r.1.2 = current_model st ∧
          (∀ f d, (f, d) ∈ dirs → loadable (f, d) = true →
                  features r.1.2 !! ("common" +:+ ":" +:+ f)
                  = Some (DefDict (default ""%string (py_file d))
                            (Some (default [] (default None (metadata_json d)))))) ∧
          (∀ k, (∀ fd, fd ∈ dirs → loadable fd = true → k ≠ "common" +:+ ":" +:+ fd.1) →
                features r.1.2 !! k = features st !! k) ∧
          r.2 !! "common"%string = Some dirs.*1) as (Hn & Hm & Hin & Hout & Hcache).
  { unfold r, load_common_features, get_feature_index. rewrite Hidx, Htree.
    assert (∀ fd, fd ∈ dirs → assoc fd.1 dirs = Some fd.2) as Hassoc.
    { intros [f d] Hfd. simpl. by apply assoc_NoDup. }
    pose proof (load_common_fold tree dirs dirs 0 st Htree Hassoc Hnd) as Hfold.
    cbv zeta in Hfold. destruct Hfold as (Hn & Hm & Hin & Hout).
    destruct dirs as [|fd dirs'] eqn:Hdirs.
    { simpl. repeat split; try done; try apply lookup_insert_eq;
        try (by intros f d Hi; inversion Hi). }
    rewrite fmap_cons. cbv iota. rewrite <- fmap_cons.
    destruct (load_each tree (0, st) ((fd :: dirs').*1)) as [n st'] eqn:Hf. simpl in *.
    repeat split; try done. apply lookup_insert_eq. }
  split; [done|]. split; [rewrite Hn; apply length_filter|]. split; [done|].
  split; [done|]. split; [done|]. split; [|done].
  intros name Hname. unfold has_feature. apply bool_decide_ext.
  rewrite !elem_of_dom, Hout; [done|].
  intros fd _ _ Heq. symmetry in Heq. by apply colon_free_no_colon in Heq.
Qed.

End common.

Section store_many.
Import Store Frame Files.

Lemma store_each (st : FeatureStore) (items : list (string * python_def)) :
  NoDup items.*1 →
  let st' := foldl (fun st nd => store_feature st nd.1 (as_feature_def nd.2) None)
               st items in
  current_model st' = current_model st ∧
  (∀ name d, (name, d) ∈ items →
             features st' !! key_of (current_model st) name = Some (as_feature_def d)) ∧
  (∀ k, (∀ name, name ∈ items.*1 → k ≠ key_of (current_model st) name) →
        features st' !! k = features st !! k).
Proof.
  revert st. induction items as [|[name d] fs IH]; intros st Hnd; simpl.
  { split; [done|]. split; [by intros n d Hin; inversion Hin | done]. }
  rewrite fmap_cons in Hnd. apply NoDup_cons in Hnd as [Hname Hnd].
  destruct (IH (store_feature st name (as_feature_def d) None) Hnd) as (Hm & Hin & Hout).
  simpl in *. split; [done|]. split.
  - intros n' d' Hin'. apply elem_of_cons in Hin' as [[= -> ->] | Hin']; [|by apply Hin].
    rewrite Hout.
    + unfold py_or; simpl. by rewrite lookup_insert_eq.
    + intros n1 Hn1 Heq. apply key_of_inj in Heq. congruence.
  - intros k Hk. rewrite Hout.
    + unfold py_or; simpl. rewrite lookup_insert_ne; [done|].
      intros Heq. apply (Hk name); [left | done].
    + intros n1 Hn1. apply Hk. by right.
Qed.

Lemma save_each (tree : gmap string (list (string * feature_dir)))
    (items : list (string * python_def)) (model_name : option string)
    (tree' : gmap string (list (string * feature_dir))) :
  NoDup items.*1 →
  foldl
    (fun r nd =>
       match r with
       | Saved tree' => save_to_filesystem "local" tree' nd.1 nd.2 model_name
       | _ => r
       end)
    (Saved tree) items = Saved tree' →
  (∀ name d, (name, d) ∈ items →
     ∃ source_code args,
       written d = Some (source_code, args) ∧
       find_dir tree' (target_folder model_name) name
       = Some {| py_file := Some source_code; metadata_json := Some (Some args) |}) ∧
  (∀ folder feature,
     folder ≠ target_folder model_name ∨ feature ∉ items.*1 →
     find_dir tree' folder feature = find_dir tree folder feature).
Proof.
  revert tree. induction items as [|[name d] fs IH]; intros tree Hnd Hrun; simpl in Hrun.
  { injection Hrun as <-. split; [by intros n d Hin; inversion Hin | done]. }
  rewrite fmap_cons in Hnd. apply NoDup_cons in Hnd as [Hname Hnd].
  destruct (save_to_filesystem "local" tree name d model_name) as [tree1| |tree1] eqn:Hsave.
  2,3: exfalso; clear -Hrun; induction fs as [|x fs IHfs]; [done | by apply IHfs].
  destruct (IH tree1 Hnd Hrun) as (Hin & Hout).
  apply save_ok in Hsave as (src & args & Hw & Hfind). split.
  - intros n' d' Hin'. apply elem_of_cons in Hin' as [[= -> ->] | Hin']; [|by apply Hin].
    exists src, args. split; [done|]. rewrite Hout by (by right).
    by rewrite Hfind, decide_True.
  - intros folder feature Hother. rewrite Hout, Hfind.
    + rewrite decide_False; [done|]. intros [-> ->].
      destruct Hother as [? | Hnin]; [done|]. apply Hnin. left.
    + destruct Hother as [? | Hnin]; [by left | right].
      intros Hin'. apply Hnin. by right.
Qed.

(** X21. [store_features] puts every feature in the registry under the key
    of the model in force ([current_model], or the bare name), where
    [get_feature] finds it; the [model_name] it is given plays no part in
    the registry and only chooses the folder of the files. With
    [auto_save], when all saves succeed, every feature has its two files
    in that folder ('common' without [model_name]), holding its code and
    arguments, and no other directory has changed; without [auto_save]
    the directories are untouched. *)
Theorem store_features_registry_and_files (st : FeatureStore)
    (tree : gmap string (list (string * feature_dir)))
    (items : list (string * python_def)) (model_name : option string)
    (auto_save : bool) :
  NoDup items.*1 →
  let r := store_features "local" st tree items model_name auto_save in
  current_model r.1 = current_model st ∧
  (∀ name d, (name, d) ∈ items →
             features r.1 !! key_of (current_model st) name = Some (as_feature_def d) ∧
             get_feature r.1 name None = Some (as_feature_def d)) ∧
  (∀ k, (∀ name, name ∈ items.*1 → k ≠ key_of (current_model st) name) →
        features r.1 !! k = features st !! k) ∧
  (∀ tree0 other_model other_save,
     (store_features "local" st tree0 items other_model other_save).1 = r.1) ∧
  (auto_save = false → r.2 = Saved tree) ∧
  (∀ tree', auto_save = true → r.2 = Saved tree' →
     (∀ name d, (name, d) ∈ items →
        ∃ source_code args,
          written d = Some (source_code, args) ∧
          find_dir tree' (target_folder model_name) name
          = Some {| py_file := Some source_code; metadata_json := Some (Some args) |}) ∧
     (∀ folder feature,
        folder ≠ target_folder model_name ∨ feature ∉ items.*1 →
        find_dir tree' folder feature = find_dir tree folder feature)).
Proof.
  intros Hnd r.
  assert (r.1 = foldl (fun st nd => store_feature st nd.1 (as_feature_def nd.2) None)
                  st items) as Hr1.
  { unfold r, store_features. by destruct auto_save. }
  destruct (store_each st items Hnd) as (Hm & Hin & Hout). rewrite <- Hr1 in *.
  split; [done|]. split; [|split; [done|split; [|split]]].
  - intros name d Hnd'. specialize (Hin name d Hnd'). split; [done|].
    unfold get_feature, py_or; simpl. rewrite Hm. by rewrite Hin.
  - intros tree0 other_model other_save. rewrite Hr1.
    unfold store_features. by destruct other_save.
  - intros ->. done.
  - intros tree' -> Hsaved. unfold r, store_features in Hsaved. simpl in Hsaved.
    by apply save_each.
Qed.

End store_many.

Section file_examples.
Import Store Frame Files.

(** The model "sales" has the code of "total" without metadata: the load
    fails although 'common' has both files; a model without a directory
    for "total" reads the one of 'common'. *)
Lemma load_from_filesystem_folders_witness :
  load_from_filesystem FileExamples.shop_tree FileExamples.empty_store "sales" "total"
  = Raise (FileNotFoundError "metadata.json") ∧
  load_from_filesystem FileExamples.shop_tree FileExamples.empty_store "stock" "total"
  = Ok (store_feature FileExamples.empty_store "total"
          (DefDict "def total(rate): return rate" (Some ["rate"%string]))
          (Some "stock"%string)).
Proof.
  split.
  - destruct (load_from_filesystem_folders FileExamples.shop_tree
                FileExamples.empty_store "sales" "total") as (_ & _ & Hmeta & _).
    apply Hmeta; [eexists; vm_compute; reflexivity | vm_compute; reflexivity].
  - destruct (load_from_filesystem_folders FileExamples.shop_tree
                FileExamples.empty_store "stock" "total") as (_ & Hshared & _).
    apply Hshared; [vm_compute; reflexivity|].
    exists (Some ["rate"%string]). repeat split; vm_compute; reflexivity.
Defined.

(** A dict saved for the model "sales" in an empty store is read back. *)
Lemma save_then_load_witness :
  ∃ tree',
    save_to_filesystem "local" ∅ "total"
      (PyDict "def total(price): return price" (Some ["price"%string]))
      (Some "sales"%string) = Saved tree' ∧
    ∀ st, load_from_filesystem tree' st "sales" "total"
          = Ok (store_feature st "total"
                  (DefDict "def total(price): return price" (Some ["price"%string]))
                  (Some "sales"%string)).
Proof.
  destruct (save_to_filesystem "local" ∅ "total"
              (PyDict "def total(price): return price" (Some ["price"%string]))
              (Some "sales"%string)) as [tree'| |tree'] eqn:Hsave;
    [|vm_compute in Hsave; discriminate..].
  destruct (save_then_load ∅ tree' "total"
              (PyDict "def total(price): return price" (Some ["price"%string]))
              (Some "sales"%string) Hsave) as (src & args & Hw & _ & Hload & _).
  injection Hw as <- <-.
  exists tree'. split; [reflexivity | exact Hload].
Defined.

(** The folder 'common' is listed once, with its empty directory; the
    list stays the same whatever the folder becomes. *)
Lemma get_feature_index_cached_witness :
  (get_feature_index ∅ FileExamples.shop_tree "common").1
  = ["total"; "rate"; "draft"]%string ∧
  ∀ tree', get_feature_index (get_feature_index ∅ FileExamples.shop_tree "common").2
             tree' "common"
           = get_feature_index ∅ FileExamples.shop_tree "common".
Proof.
  destruct (get_feature_index_cached ∅ FileExamples.shop_tree "common")
    as (Hfirst & _ & _ & _ & Hagain & _).
  split; [|exact Hagain].
  rewrite Hfirst by apply lookup_empty. vm_compute. reflexivity.
Defined.

(** Of the three directories of 'common' two can be loaded. *)
Lemma load_common_features_count_witness :
  (load_common_features ∅ FileExamples.shop_tree FileExamples.empty_store).1.1 = 2 ∧
  has_feature (load_common_features ∅ FileExamples.shop_tree FileExamples.empty_store).1.2
    "total" = false.
Proof.
  assert (∃ dirs, FileExamples.shop_tree !! "common"%string = Some dirs ∧ NoDup dirs.*1
                  ∧ length (filter (fun fd => loadable fd = true) dirs) = 2)
    as (dirs & Htree & Hnd & Hlen).
  { eexists. split; [vm_compute; reflexivity|]. split.
    - apply (bool_decide_unpack _). vm_compute. exact I.
    - vm_compute. reflexivity. }
  destruct (load_common_features_count ∅ FileExamples.shop_tree dirs
              FileExamples.empty_store (lookup_empty _) Htree Hnd)
    as (Hn & _ & _ & _ & _ & Hbare & _).
  split; [by rewrite Hn|]. by rewrite Hbare.
Defined.

(** Two features stored and saved without model name: both are in the
    registry under their bare names and in the folder 'common'. *)
Lemma store_features_registry_and_files_witness :
  let r := store_features "local" FileExamples.empty_store ∅
             FileExamples.shop_features None true in
  get_feature r.1 "rate" None
  = Some (DefCallable ["price"%string] (Some "def rate(price): return price"%string)) ∧
  ∃ tree',
    r.2 = Saved tree' ∧
    find_dir tree' "common" "rate"
    = Some {| py_file := Some "def rate(price): return price"%string;
              metadata_json := Some (Some ["price"%string]) |}.
Proof.
  intros r.
  assert (NoDup FileExamples.shop_features.*1) as Hnd.
  { apply (bool_decide_unpack _). vm_compute. exact I. }
  destruct (store_features_registry_and_files FileExamples.empty_store ∅
              FileExamples.shop_features None true Hnd) as (_ & Hreg & _ & _ & _ & Hfiles).
  fold r in Hreg, Hfiles.
  assert (("rate"%string,
           PyFunction ["price"%string] ["price"%string]
             (Some "def rate(price): return price"%string))
          ∈ FileExamples.shop_features) as Hin
    by apply list_elem_of_further, list_elem_of_here.
  split; [exact (proj2 (Hreg _ _ Hin))|].
  destruct (r.2) as [tree'| |tree'] eqn:Hsave;
    [|vm_compute in Hsave; discriminate..].
  exists tree'. split; [reflexivity|].
  destruct (Hfiles tree' eq_refl eq_refl) as [Hwritten _].
  destruct (Hwritten _ _ Hin) as (src & args & Hw & Hfind).
  injection Hw as <- <-. exact Hfind.
Defined.

End file_examples.

(** ** FeatureAnalyzer *)

Section analysis.
Import Store Detector Frame Calculator.
Import Analyzer Tracking.
Context (str_lower : string → string)
        (behaviour : list string → option string → callable)
        (exec_udf : string → string → res callable).
Context (st : FeatureStore) (data_in_columns : list string) (model_name : option string).

Lemma analyze_definition_ok (f : string) (d : feature_def) (func : callable)
    (args : list string) (flg : bool) :
  analyze_definition str_lower behaviour exec_udf f d = Ok (func, args, flg) →
  args = Resolver.arg_list d ∧ flg = is_aggregation str_lower (body_of d).
Proof.
  unfold analyze_definition, _analyze_callable, _analyze_dict.
  destruct d as [vars src | udf [args'|]]; simpl; [by intros [= <- <- <-] | | done].
  intros H. apply bind_ok_inv in H as (func' & _ & [= <- <- <-]). done.
Qed.

Lemma analyze_features_analysed (seen rest : list string) (a a' : analysis) :
  analysed str_lower behaviour exec_udf st data_in_columns model_name seen a →
  for_each (analyze_feature str_lower behaviour exec_udf st data_in_columns model_name) rest a = Ok a' →
  analysed str_lower behaviour exec_udf st data_in_columns model_name (seen ++ rest) a'.
Proof.
  revert seen a. induction rest as [|f rest IH]; intros seen a Ha Hrun; simpl in Hrun.
  { injection Hrun as <-. by rewrite app_nil_r. }
  apply bind_ok_inv in Hrun as (a1 & Hstep & Hrest).
  replace (seen ++ f :: rest) with ((seen ++ [f]) ++ rest) by (by rewrite <- app_assoc).
  apply (IH _ a1); [|done]. clear IH Hrest.
  destruct Ha as (Hdom & Hfun & Hflg & Hval).
  unfold analyze_feature in Hstep. case_bool_decide as Hcol.
  { injection Hstep as <-. split; [|done]. intros g. rewrite Hdom, elem_of_app, list_elem_of_singleton.
    split; [tauto|]. intros [[?| ->] [? ?]]; done. }
  destruct (get_feature st f model_name) as [d|] eqn:Hget.
  2:{ injection Hstep as <-. split; [|done]. intros g. rewrite Hdom, elem_of_app, list_elem_of_singleton.
      split; [tauto|]. intros [[?| ->] [? [? ?]]]; [done | congruence]. }
  apply bind_ok_inv in Hstep as ([[func args] flg] & Hdef & [= <-]). simpl.
  pose proof (analyze_definition_ok _ _ _ _ _ Hdef) as [-> ->].
  split; [|split; [|split]]; simpl.
  - intros g. rewrite dom_insert, elem_of_union, elem_of_singleton, Hdom, elem_of_app,
      list_elem_of_singleton. split.
    + intros [-> | (? & ? & ?)]; [|tauto]. rewrite Hget. eauto.
    + intros [[? | ->] [? ?]]; [right | left]; done.
  - by rewrite !dom_insert_L, Hfun.
  - by rewrite !dom_insert_L, Hflg.
  - intros g dg Hg Hgd. destruct (decide (g = f)) as [-> | Hne].
    + rewrite !lookup_insert_eq. assert (dg = d) as -> by congruence. by exists func.
    + rewrite !lookup_insert_ne by done. apply Hval; [|done].
      rewrite dom_insert, elem_of_union, elem_of_singleton in Hg. tauto.
Qed.

End analysis.

Section analysis_thm.
Import Store Detector Frame Calculator.
Import Analyzer.

(** X22. The tables [analyze_features] builds. When the analysis returns,
    the three dicts have the same keys: the features of [exec_seq] that
    are no column of the input data and that [get_feature] finds for the
    model. Each holds what the definition found gives: the argument list
    the resolver reads from it, the flag [is_aggregation] computes for it
    and its function; a dict without 'args' is not among them, it makes
    the analysis raise. A feature the store does not know is left out
    (only logged): with the tables added to the configuration,
    [process_group] raises KeyError when it reaches such a feature in a
    group that has no such column. *)
Theorem analyze_features_tables
    (str_lower : string → string)
    (behaviour : list string → option string → callable)
    (exec_udf : string → string → res callable)
    (st : FeatureStore) (exec_seq data_in_columns : list string)
    (model_name : option string) (a : analysis) :
  analyze_features str_lower behaviour exec_udf st exec_seq data_in_columns model_name = Ok a →
  (∀ f, f ∈ dom (feature_args a) ↔
        f ∈ exec_seq ∧ (f ∉ data_in_columns) ∧ is_Some (get_feature st f model_name)) ∧
  dom (feature_funcs a) = dom (feature_args a) ∧
  dom (feature_groupby_flg a) = dom (feature_args a) ∧
  (∀ f d, f ∈ exec_seq → f ∉ data_in_columns → get_feature st f model_name = Some d →
          feature_args a !! f = Some (Resolver.arg_list d) ∧
          feature_groupby_flg a !! f = Some (is_aggregation str_lower (body_of d)) ∧
          (∀ udf, d ≠ DefDict udf None) ∧
          match d with
          | DefCallable co_varnames getsource =>
              feature_funcs a !! f = Some (behaviour co_varnames getsource)
          | DefDict udf _ =>
              ∃ func, exec_udf udf f = Ok func ∧ feature_funcs a !! f = Some func
          end) ∧
  (∀ f ext_cols_list group_by state,
     f ∉ data_in_columns → get_feature st f model_name = None →
     has_column f (GroupBy.data_in state) = false →
     GroupBy.process_feature (with_analysis exec_seq a ext_cols_list group_by) f state
     = Raise (KeyError f)).
Proof.
  intros Hrun. unfold analyze_features in Hrun.
  apply (analyze_features_analysed str_lower behaviour exec_udf st data_in_columns model_name [])
    in Hrun.
  2:{ split; [|done]. intros f. simpl. rewrite dom_empty, elem_of_empty.
      split; [done|]. intros [H _]. by inversion H. }
  simpl in Hrun. destruct Hrun as (Hdom & Hfun & Hflg & Hval).
  split; [done|]. split; [done|]. split; [done|]. split.
  - intros f d Hf Hcol Hget.
    assert (f ∈ dom (feature_args a)) as Hin by (apply Hdom; rewrite Hget; eauto).
    destruct (Hval f d Hin Hget) as (func0 & Hdef & Hfunc & Hargs & Hg).
    split; [done|]. split; [done|]. split.
    + intros udf ->. done.
    + unfold analyze_definition, _analyze_callable, _analyze_dict in Hdef.
      destruct d as [vars src | udf [args|]]; simpl in Hdef; [| |done].
      * injection Hdef as Hdef. by rewrite Hfunc, <- Hdef.
      * apply bind_ok_inv in Hdef as (func & Hexec & [= Hdef]).
        exists func. split; [done|]. by rewrite Hfunc, <- Hdef.
  - intros f ext gb state Hcol Hget Hnone.
    unfold GroupBy.process_feature, GroupBy.lookup_cfg, with_analysis. rewrite Hnone. simpl.
    assert (feature_funcs a !! f = None) as ->; [|done].
    apply not_elem_of_dom. rewrite Hfun, Hdom, Hget. intros (_ & _ & [? ?]). done.
Qed.

End analysis_thm.

Section analysis_examples.
Import Store Detector Frame Calculator.
Import Analyzer.

(** The registry of the functional test, analysed for a sequence that
    also names "ghost", a feature nobody registered: the analysis returns
    the tables of the two features, and the execution raises KeyError when
    it comes to "ghost". *)
Lemma analyze_features_tables_witness :
  ∃ a,
    analyze_features Text.lower FileExamples.behaviour FileExamples.exec_udf Examples.test_store
      ["base_feature"; "derived_feature"; "ghost"]%string ["col1"; "col2"]%string None
    = Ok a ∧
    feature_args a !! "derived_feature"%string = Some ["base_feature"; "col2"]%string ∧
    feature_groupby_flg a !! "derived_feature"%string = Some false ∧
    GroupBy.process_feature
      (with_analysis ["base_feature"; "derived_feature"; "ghost"]%string a []
         (Resolver.GbStr "id"))
      "ghost" (GroupBy.group_start Examples.prices)
    = Raise (KeyError "ghost").
Proof.
  destruct (analyze_features Text.lower FileExamples.behaviour FileExamples.exec_udf
              Examples.test_store ["base_feature"; "derived_feature"; "ghost"]%string
              ["col1"; "col2"]%string None) as [a|e] eqn:Hrun;
    [|vm_compute in Hrun; discriminate].
  destruct (analyze_features_tables _ _ _ _ _ _ _ a Hrun) as (_ & _ & _ & Hval & Hmiss).
  destruct (Hval "derived_feature"%string
              (DefCallable ["base_feature"; "col2"]%string None))
    as (Hargs & Hflg & _).
  - apply list_elem_of_further, list_elem_of_here.
  - intros Hin. apply elem_of_cons in Hin as [Hin | Hin]; [discriminate Hin|].
    apply list_elem_of_singleton in Hin. discriminate Hin.
  - vm_compute. reflexivity.
  - exists a. split; [reflexivity|]. split; [exact Hargs|]. split; [exact Hflg|].
    apply Hmiss.
    + intros Hin. apply elem_of_cons in Hin as [Hin | Hin]; [discriminate Hin|].
      apply list_elem_of_singleton in Hin. discriminate Hin.
    + vm_compute. reflexivity.
    + reflexivity.
Defined.

End analysis_examples.

(** ** Dictionary utilities *)

Section dict_keys.
Import DictUtils.
Context {V : Type}.

Lemma filter_safe_fold (d : gmap string V) (keys : list string) (acc : gmap string V) :
  acc ⊆ d →
  let r := foldl (fun acc k => match d !! k with Some v => <[k := v]> acc | None => acc end)
             acc keys in
  r ⊆ d ∧ ∀ k, k ∈ dom r ↔ k ∈ dom acc ∨ (k ∈ keys ∧ k ∈ dom d).
Proof.
  revert acc. induction keys as [|x keys IH]; intros acc Hsub; simpl.
  { split; [done|]. intros k. split; [by left|]. intros [? | [H _]]; [done | by inversion H]. }
  destruct (d !! x) as [v|] eqn:Hx.
  - destruct (IH (<[x := v]> acc)) as [Hr Hdom].
    { by apply insert_subseteq_l. }
    split; [done|]. intros k. rewrite Hdom, dom_insert, elem_of_union, elem_of_singleton,
      elem_of_cons. split.
    + intros [[-> | ?] | [? ?]]; [right | by left | right]; [|tauto].
      split; [by left | by apply elem_of_dom].
    + intros [? | [[-> | ?] ?]]; tauto.
  - destruct (IH acc Hsub) as [Hr Hdom]. split; [done|]. intros k.
    rewrite Hdom, elem_of_cons. split; [tauto|].
    intros [? | [[-> | ?] Hk]]; [tauto | | tauto].
    apply elem_of_dom in Hk as [v Hv]. congruence.
Qed.

Lemma filter_unsafe_fold (d : gmap string V) (keys : list string) (acc : gmap string V) :
  for_each
    (fun k acc => match d !! k with
                  | Some v => Ok (<[k := v]> acc)
                  | None => Raise (KeyError k)
                  end) keys acc
  = match get_missing_keys d keys with
    | [] => Ok (foldl (fun acc k => match d !! k with
                                    | Some v => <[k := v]> acc
                                    | None => acc
                                    end) acc keys)
    | k :: _ => Raise (KeyError k)
    end.
Proof.
  revert acc. induction keys as [|x keys IH]; intros acc; simpl; [done|].
  unfold get_missing_keys. rewrite filter_cons.
  destruct (d !! x) as [v|] eqn:Hx; simpl.
  - rewrite decide_False by (intros Hn; apply Hn, elem_of_dom; eauto). apply IH.
  - rewrite decide_True by (by apply not_elem_of_dom). done.
Qed.

(** X23. The key checks of dict_utils agree with each other. [has_all_keys]
    answers True exactly when [get_missing_keys] is empty; the missing
    keys are the required keys that are not in the dict, in the order
    required. [filter_dict_by_keys] in safe mode never raises and returns
    the part of the dict on the keys to keep that it has; in unsafe mode
    it returns the same when no key is missing, and else raises KeyError
    for the first missing key. *)
Theorem dict_key_checks (d : gmap string V) (keys : list string) :
  (has_all_keys d keys = true ↔ get_missing_keys d keys = []) ∧
  get_missing_keys d keys = filter (fun k => d !! k = None) keys ∧
  (∃ r, filter_dict_by_keys d keys true = Ok r ∧ r ⊆ d ∧
        ∀ k, k ∈ dom r ↔ k ∈ keys ∧ k ∈ dom d) ∧
  (has_all_keys d keys = true →
   filter_dict_by_keys d keys false = filter_dict_by_keys d keys true) ∧
  (∀ k rest, get_missing_keys d keys = k :: rest →
             filter_dict_by_keys d keys false = Raise (KeyError k)).
Proof.
  assert (has_all_keys d keys = true ↔ get_missing_keys d keys = []) as Hall.
  { unfold has_all_keys, get_missing_keys. induction keys as [|x keys IH]; [done|].
    simpl. rewrite filter_cons, andb_true_iff, bool_decide_eq_true, IH.
    destruct (decide (x ∉ dom d)) as [Hn | Hin]; [split; [by intros [? _] | done]|].
    apply dec_stable in Hin. tauto. }
  split; [done|]. split; [|split; [|split]].
  - unfold get_missing_keys. apply list_filter_iff. intros k. apply not_elem_of_dom.
  - eexists. split; [done|].
    destruct (filter_safe_fold d keys ∅ (map_empty_subseteq d)) as [Hsub Hdom].
    split; [done|]. intros k. rewrite Hdom, dom_empty, elem_of_empty. tauto.
  - intros Hhas. apply Hall in Hhas. unfold filter_dict_by_keys.
    by rewrite filter_unsafe_fold, Hhas.
  - intros k rest Hmiss. unfold filter_dict_by_keys.
    by rewrite filter_unsafe_fold, Hmiss.
Qed.

End dict_keys.

Section dict_examples.
Import DictUtils.

(** A configuration without 'group_by': in unsafe mode the filter raises
    KeyError for it. *)
Lemma dict_key_checks_witness :
  let d : gmap string nat := {[ "model_name"%string := 1; "exec_seq"%string := 2 ]} in
  get_missing_keys d ["model_name"; "group_by"]%string = ["group_by"%string] ∧
  filter_dict_by_keys d ["model_name"; "group_by"]%string false
  = Raise (KeyError "group_by").
Proof.
  intros d.
  assert (get_missing_keys d ["model_name"; "group_by"]%string = ["group_by"%string])
    as Hmiss by (vm_compute; reflexivity).
  split; [exact Hmiss|].
  destruct (dict_key_checks d ["model_name"; "group_by"]%string) as (_ & _ & _ & _ & Hraise).
  exact (Hraise _ _ Hmiss).
Defined.

End dict_examples.

(** ** GroupByProcessor: the rows of the filters table *)

Section filters_rows.
Import Frame Calculator GroupBy.
Import Resolver(group_by_arg, GbNone, GbStr, GbList).

Lemma data_in_list_contributions (g : group_by_arg)
    (grouped_results : list (group_value * group_state))
    (acc data_in_list : list DataFrame) :
  for_each
    (fun r acc =>
       c ← group_contribution g r.1 r.2;
       Ok (acc ++ match c with Some df_cleaned => [df_cleaned] | None => [] end))
    grouped_results acc = Ok data_in_list →
  ∃ cs, Forall2 (fun r c => group_contribution g r.1 r.2 = Ok c) grouped_results cs ∧
        data_in_list = acc ++ omap id cs.
Proof.
  revert acc. induction grouped_results as [|r rs IH]; intros acc Hrun; simpl in Hrun.
  - injection Hrun as <-. exists []. split; [constructor | by rewrite app_nil_r].
  - apply bind_ok_inv in Hrun as (acc' & Hstep & Hrest).
    apply bind_ok_inv in Hstep as (c & Hc & [= <-]).
    destruct (IH _ Hrest) as (cs & Hcs & ->). exists (c :: cs).
    split; [by constructor|]. rewrite <- app_assoc. by destruct c.
Qed.

Lemma concat_names (dfs : list DataFrame) :
  column_names (concat dfs) = first_seen [] (flat_map column_names dfs).
Proof.
  unfold column_names at 1, concat; simpl.
  rewrite <- list_fmap_compose. apply list_fmap_id.
Qed.

Lemma group_contribution_rows (g : group_by_arg) (gv : group_value)
    (result : group_state) (c : option DataFrame) :
  group_contribution g gv result = Ok c →
  (c = None ↔ is_empty (data_in result) = true) ∧
  (∀ dfc, c = Some dfc → nrows dfc = nrows (data_in result)).
Proof.
  unfold group_contribution. destruct (is_empty (data_in result)) eqn:He.
  - intros [= <-]. split; [done|]. by intros dfc.
  - intros H. apply bind_ok_inv in H as (df' & Hdf' & [= <-]).
    split; [split; done|]. intros dfc [= <-]. simpl.
    by apply attach_group_by_other_columns in Hdf' as [-> _].
Qed.

Lemma sum_contributions (groups : list (group_value * DataFrame))
    (cs : list (option DataFrame)) :
  Forall2 (fun g c => (c = None → nrows g.2 = 0) ∧
                      ∀ dfc, c = Some dfc → nrows dfc = nrows g.2) groups cs →
  sum_list (nrows <$> omap id cs) = sum_list (nrows <$> groups.*2).
Proof.
  induction 1 as [|g c groups cs [Hnone Hsome] _ IH]; [done|].
  rewrite !fmap_cons. destruct c as [dfc|].
  - change (omap id (Some dfc :: cs)) with (dfc :: omap id cs).
    rewrite fmap_cons. simpl sum_list. rewrite (Hsome dfc eq_refl). by rewrite IH.
  - change (omap id (None :: cs)) with (omap id cs).
    simpl sum_list. rewrite (Hnone eq_refl). by rewrite IH.
Qed.

(** X25. The rows and the columns of the filters table of a grouped run.
    The groups are taken in their order; a group contributes a table
    unless its working table is empty, and contributes as many rows as it
    has. When the filters table is not empty, it has as many rows as the
    contributions together, and its columns are the columns of the
    contributions in the order of their first appearance. So when every
    group has a column of its own and the filters table is not empty, the
    table has as many rows as the groups together. When the concatenation
    is empty the filters table is the empty frame. *)
Theorem process_all_groups_filters_rows (cfg : cfg_model) (data_in : DataFrame)
    (groups : list (group_value * DataFrame)) (out : execution_output) :
  no_grouping (group_by cfg) = false →
  process_all_groups cfg data_in groups = Ok out →
  ∃ contributions : list (option DataFrame),
    Forall2
      (fun g c =>
         ∃ result,
           process_group cfg g.2 = Ok result ∧
           group_contribution (group_by cfg) g.1 result = Ok c ∧
           (c = None ↔ is_empty (GroupBy.data_in result) = true) ∧
           (∀ dfc, c = Some dfc → nrows dfc = nrows g.2))
      groups contributions ∧
    (is_empty (filters_df out) = true → filters_df out = empty_frame) ∧
    (is_empty (filters_df out) = false →
     nrows (filters_df out) = sum_list (nrows <$> omap id contributions) ∧
     column_names (filters_df out)
     = first_seen [] (flat_map column_names (omap id contributions)) ∧
     (Forall (fun g => columns g.2 ≠ []) groups →
      nrows (filters_df out) = sum_list (nrows <$> groups.*2))).
Proof.
  intros Hgrouped Hrun. apply process_all_groups_grouped in Hrun; [|done].
  unfold _process_grouped in Hrun.
  apply bind_ok_inv in Hrun as (grouped & Hgroups & Hrun).
  apply bind_ok_inv in Hrun as (data_in_list & Hlist & Hrun).
  apply bind_ok_inv in Hrun as (attrs_list & _ & [= <-]). simpl.
  apply mapM_res_ok in Hgroups.
  apply data_in_list_contributions in Hlist as (cs & Hcs & ->). simpl.
  exists cs.
  assert (Forall2
            (fun (g : group_value * DataFrame) c =>
               ∃ result,
                 process_group cfg g.2 = Ok result ∧
                 group_contribution (group_by cfg) g.1 result = Ok c ∧
                 (c = None ↔ is_empty (GroupBy.data_in result) = true) ∧
                 (∀ dfc, c = Some dfc → nrows dfc = nrows g.2))
            groups cs) as Hall.
  { clear -Hgroups Hcs. revert cs Hcs.
    induction Hgroups as [|g r groups grouped Hg _ IH]; intros cs Hcs.
    { inversion Hcs. constructor. }
    inversion Hcs as [|? c ? cs' Hc Hcs']; subst. constructor; [|by apply IH].
    simpl in Hg. apply bind_ok_inv in Hg as (result & Hres & [= <-]). simpl in Hc.
    exists result. split; [done|]. split; [done|].
    destruct (group_contribution_rows _ _ _ _ Hc) as [Hnone Hsome].
    split; [done|]. intros dfc Hdfc. rewrite (Hsome dfc Hdfc).
    unfold process_group in Hres.
    by destruct (process_features_shape _ _ _ _ Hres) as [? _]. }
  split; [done|].
  assert (∀ df, (if is_empty df then empty_frame else _build_filters_dataframe df)
                = if is_empty df then empty_frame else df) as Hbuild.
  { intros df. unfold _build_filters_dataframe. by destruct (is_empty df). }
  rewrite Hbuild. clear Hbuild.
  set (combined := match omap id cs with [] => empty_frame | _ :: _ => concat (omap id cs) end).
  split.
  - destruct (is_empty combined) eqn:Hemp; [done|]. intros Hemp'. congruence.
  - destruct (is_empty combined) eqn:Hemp; [done|]. intros _.
    assert (combined = concat (omap id cs)) as Hcomb.
    { unfold combined in *. by destruct (omap id cs). }
    rewrite Hcomb. split; [done|]. split; [apply concat_names|].
    intros Hcols. simpl. apply sum_contributions.
    clear -Hall Hcols. induction Hall as [|g c groups cs Hg _ IH]; [constructor|].
    apply Forall_cons in Hcols as [Hg0 Hcols]. constructor; [|by apply IH].
    destruct Hg as (result & Hres & _ & Hnone & Hsome). split; [|done].
    intros Hc. apply Hnone in Hc. unfold is_empty in Hc.
    unfold process_group in Hres.
    pose proof (process_features_shape _ _ _ _ Hres) as (Hrows & new & _ & Hnames & _).
    simpl in Hrows, Hnames. apply orb_true_iff in Hc as [Hc | Hc].
    + apply bool_decide_eq_true in Hc. congruence.
    + apply bool_decide_eq_true in Hc. unfold column_names in Hnames.
      rewrite Hc in Hnames. simpl in Hnames. symmetry in Hnames.
      apply app_eq_nil in Hnames as [Hnames _].
      apply fmap_nil_inv in Hnames. done.
Qed.

End filters_rows.

Section rows_examples.
Import Frame Calculator GroupBy.
Import Resolver(group_by_arg, GbNone, GbStr, GbList).

(** Two orders in two groups: the filters table has two rows, and the
    note of the second order is a column after the price and the key. *)
Lemma process_all_groups_filters_rows_witness :
  ∃ out,
    process_all_groups Examples.cfg_flag Examples.noted_orders Examples.noted_groups
    = Ok out ∧
    nrows (filters_df out) = 2 ∧
    column_names (filters_df out) = ["price"; "id"; "note"]%string.
Proof.
  destruct (process_all_groups Examples.cfg_flag Examples.noted_orders
              Examples.noted_groups) as [out|e] eqn:Hrun;
    [|vm_compute in Hrun; discriminate].
  destruct (process_all_groups_filters_rows Examples.cfg_flag Examples.noted_orders
              Examples.noted_groups out eq_refl Hrun) as (cs & _ & _ & Hrows).
  assert (is_empty (filters_df out) = false) as Hne.
  { vm_compute in Hrun. injection Hrun as <-. reflexivity. }
  destruct (Hrows Hne) as (_ & Hnames & Hsum).
  exists out. split; [reflexivity|]. split.
  - rewrite Hsum; [reflexivity|]. repeat constructor; discriminate.
  - vm_compute in Hrun. injection Hrun as <-. reflexivity.
Defined.

End rows_examples.

(** ** GroupByProcessor: a grouped run without groups *)

Section without_groups.
Import Frame Calculator GroupBy.
Import Resolver(group_by_arg, GbNone, GbStr, GbList).



End without_groups.
